(** * The adjacency-matrix vessel of PLUMED (src/adjmat/AdjacencyMatrixVessel.cpp)

    A shallow embedding of [PLMD::adjmat::AdjacencyMatrixVessel]: the
    translation between matrix coordinates and the compact store, the three
    views built from the store (dense matrix, adjacency lists, edge list)
    and the adapter that turns stored derivatives into derivatives of the
    normalised value.

    Conventions.
    - [unsigned] is a 32-bit integer: a [Z] in [0, 2^32), arithmetic wraps.
    - [double] used for stored values and derivatives is IEEE binary64,
      i.e. Rocq's primitive [float].
    - [double] used inside the index formulas ([0.5*i*(i-1)+j]) is modelled
      by exact rationals, see [double_to_unsigned].
    - Undefined behaviour, failed assertions and calls to [error] are
      results of the [result] type, never silent values. *)

From Stdlib Require Import ZArith List Lia Bool QArith Sorted Permutation.
From Stdlib Require Import Floats.PrimFloat Floats.SpecFloat Floats.FloatOps Floats.FloatAxioms Uint63.
From stdpp Require Import base list.

Local Open Scope Z_scope.

(** ** Machine integers *)

Definition UINT_RANGE : Z := 2 ^ 32.

Definition wrap (z : Z) : Z := z mod UINT_RANGE.

Definition uadd (a b : Z) : Z := wrap (a + b).
Definition usub (a b : Z) : Z := wrap (a - b).
Definition umul (a b : Z) : Z := wrap (a * b).

Definition is_unsigned (z : Z) : Prop := 0 <= z < UINT_RANGE.

(** ** Results of fallible code *)

Inductive error : Type :=
| ErrSymmetricAndHbonds   (* error("matrix should be either symmetric or hbonds") *)
| ErrSymmetricNotSquare   (* error("matrix is supposed to be symmetric but nrows!=ncols") *)
| ErrHbondsNotSquare      (* error("matrix is supposed to be hbonds but nrows!=ncols") *)
| AssertionFailed         (* plumed_assert / plumed_dbg_assert *)
| Undefined.              (* undefined behaviour of the C++ abstract machine *)

Inductive result (A : Type) : Type :=
| Ok (a : A)
| Fail (e : error).

Arguments Ok {A} a.
Arguments Fail {A} e.

Definition bind {A B : Type} (r : result A) (k : A -> result B) : result B :=
  match r with
  | Ok a => k a
  | Fail e => Fail e
  end.

Notation "'do' x <- r ; k" := (bind r (fun x => k))
  (at level 10, x name, r at level 100, k at level 200).
Notation "'do' ' p <- r ; k" := (bind r (fun x => let p := x in k))
  (at level 10, p pattern, r at level 100, k at level 200).

(** A [for] loop over a list of indices, threading the state and stopping
    at the first failure. *)
Fixpoint for_each {I St : Type} (body : St -> I -> result St)
         (l : list I) (st : St) : result St :=
  match l with
  | [] => Ok st
  | i :: l' => do st' <- body st i; for_each body l' st'
  end.

(** The indices [0, 1, ..., n-1] visited by [for(unsigned i=0;i<n;++i)]. *)
Definition indices (n : Z) : list Z := map Z.of_nat (seq 0 (Z.to_nat n)).

(** ** Doubles in the index formulas

    [0.5*i*(i-1)+j] is evaluated in [double] and converted back to
    [unsigned].  The operands are integers below 2^32 and the half of one;
    as long as the exact value of the expression is below 2^32 every
    intermediate value is an integer (or half an integer) below 2^53, which
    binary64 represents exactly, so the rounded operations return the exact
    values.  When the exact value is 2^32 or more, so is the rounded one
    (rounding is monotone and 2^32 is representable) and the conversion to
    [unsigned] is undefined.  Hence: exact rational arithmetic, truncation
    towards zero, and [Undefined] outside the range of [unsigned]. *)

Definition Qtrunc (q : Q) : Z := Z.quot (Qnum q) (Zpos (Qden q)).

Definition double_to_unsigned (q : Q) : result Z :=
  let t := Qtrunc q in
  if (0 <=? t) && (t <? UINT_RANGE) then Ok t else Fail Undefined.

Definition unsigned_to_double (z : Z) : Q := inject_Z z.

(** ** Collaborators *)

(** The action that builds the matrix, [AdjacencyMatrixBase], declared
    outside these sources: the members the vessel calls, taken as they
    come. *)
Record AdjacencyMatrixBase : Type := {
  getNumberOfNodes : Z;
  getTaskCode : Z -> Z;
  decodeIndexToAtoms : Z -> list Z;
  weightHasDerivatives : bool
}.

(** Modelled from the spec: tools/MultiValue.h is not among the sources.  A
    [MultiValue] carries, per component (0 the weight, 1 the weighted
    value), derivatives keyed by a shared sparse index, and the list of the
    indices that are active. *)
Record MultiValue : Type := {
  mv_active : list Z;
  mv_derivatives : Z -> Z -> float
}.

Definition getNumberActive (mv : MultiValue) : Z := Z.of_nat (length (mv_active mv)).
Definition getActiveIndex (mv : MultiValue) (i : Z) : Z := nth (Z.to_nat i) (mv_active mv) 0.
Definition getDerivative (mv : MultiValue) (ival jder : Z) : float := mv_derivatives mv ival jder.
Definition setDerivative (mv : MultiValue) (ival jder : Z) (der : float) : MultiValue :=
  {| mv_active := mv_active mv;
     mv_derivatives := fun a b =>
       if (a =? ival) && (b =? jder) then der else mv_derivatives mv a b |}.

(** The base class [StoreDataVessel], declared outside these sources: the
    members the vessel calls, taken as they come.  [retrieveValue] fills
    [vals], which has size 2: component 0 the weight, component 1 the
    weighted value. *)
Record StoreDataVessel : Type := {
  storedValueIsActive : Z -> bool;
  retrieveValue : Z -> bool -> float * float;
  base_retrieveDerivatives : Z -> bool -> MultiValue -> MultiValue
}.

(** ** The vessel *)

Record AdjacencyMatrixVessel : Type := {
  base : StoreDataVessel;
  function : AdjacencyMatrixBase;
  nrows : Z;
  ncols : Z;
  symmetric : bool;
  hbonds : bool
}.

Definition plumed_assert (c : bool) : result unit :=
  if c then Ok tt else Fail AssertionFailed.

(** Modelled from the spec: the macro [plumed_dbg_assert] is defined outside
    these sources; a violated precondition is fatal and reported at the
    call. *)
Definition plumed_dbg_assert (c : bool) : result unit := plumed_assert c.

(** The constructor: [action] is the result of the [dynamic_cast], [None]
    for a null pointer. *)
Definition new_AdjacencyMatrixVessel (da : StoreDataVessel)
           (action : option AdjacencyMatrixBase)
           (NROWS NCOLS : Z) (SYMMETRIC HBONDS : bool)
  : result AdjacencyMatrixVessel :=
  match action with
  | None => Fail AssertionFailed
  | Some f =>
      if SYMMETRIC && HBONDS then Fail ErrSymmetricAndHbonds
      else if SYMMETRIC && negb (NROWS =? NCOLS) then Fail ErrSymmetricNotSquare
      else if HBONDS && negb (NROWS =? NCOLS) then Fail ErrHbondsNotSquare
      else Ok {| base := da; function := f; nrows := NROWS; ncols := NCOLS;
                 symmetric := SYMMETRIC; hbonds := HBONDS |}
  end.

Definition isSymmetric (v : AdjacencyMatrixVessel) : bool := symmetric v.

Definition undirectedGraph (v : AdjacencyMatrixVessel) : bool :=
  symmetric v || hbonds v.

Definition half : Q := 1 # 2.

Definition getNumberOfStoredValues (v : AdjacencyMatrixVessel) : result Z :=
  if symmetric v then
    let nnodes := getNumberOfNodes (function v) in
    double_to_unsigned
      (half * unsigned_to_double nnodes * unsigned_to_double (usub nnodes 1))
  else Ok (umul (nrows v) (ncols v)).

Definition getStoreIndexFromMatrixIndices (v : AdjacencyMatrixVessel)
           (ielem jelem : Z) : result Z :=
  if negb (symmetric v) then Ok (uadd (umul (nrows v) ielem) jelem)
  else if ielem >? jelem then
    double_to_unsigned
      (half * unsigned_to_double ielem * unsigned_to_double (usub ielem 1)
       + unsigned_to_double jelem)
  else
    double_to_unsigned
      (half * unsigned_to_double jelem * unsigned_to_double (usub jelem 1)
       + unsigned_to_double ielem).

Definition getMatrixIndices (v : AdjacencyMatrixVessel) (code : Z) : result (Z * Z) :=
  let myatoms := decodeIndexToAtoms (function v) (getTaskCode (function v) code) in
  match myatoms !! 0%nat, myatoms !! 1%nat with
  | Some i, Some j => Ok (i, j)
  | _, _ => Fail Undefined
  end.

(** [getStoreIndex] has statements after its first [return]; the body is
    kept as the statement list it is and run by [exec_block]. *)
Inductive stmt : Type :=
| SReturn (e : result Z)
| SIfReturn (c : bool) (e : result Z).

Definition exec_stmt (s : stmt) : option (result Z) :=
  match s with
  | SReturn e => Some e
  | SIfReturn c e => if c then Some e else None
  end.

Fixpoint exec_block (ss : list stmt) : result Z :=
  match ss with
  | [] => Fail Undefined
  | s :: rest =>
      match exec_stmt s with
      | Some r => r
      | None => exec_block rest
      end
  end.

Definition getStoreIndex_body (v : AdjacencyMatrixVessel) (ielem jelem : Z) : list stmt :=
  [ SReturn (getStoreIndexFromMatrixIndices v ielem jelem);
    SIfReturn (symmetric v)
      (double_to_unsigned
         (half * unsigned_to_double ielem * unsigned_to_double (usub ielem 1)
          + unsigned_to_double jelem));
    SReturn (Ok (uadd (umul (nrows v) ielem) jelem)) ].

Definition getStoreIndex (v : AdjacencyMatrixVessel) (myelem : Z) : result Z :=
  do '(ielem, jelem) <- getMatrixIndices v myelem;
  exec_block (getStoreIndex_body v ielem jelem).

Definition getMatrixAction (v : AdjacencyMatrixVessel) : AdjacencyMatrixBase := function v.

(** [triangular k = k(k-1)/2], the number of unordered pairs of [k] nodes. *)
Definition triangular (k : Z) : Z := k * (k - 1) / 2.

(** ** Containers handed in by the callers *)

(** [std::vector<T>] indexed by an [unsigned]; an access out of range is
    undefined behaviour. *)
Definition vec_get {T : Type} (l : list T) (i : Z) : result T :=
  if 0 <=? i then
    match l !! Z.to_nat i with
    | Some x => Ok x
    | None => Fail Undefined
    end
  else Fail Undefined.

Definition vec_set {T : Type} (l : list T) (i : Z) (x : T) : result (list T) :=
  if (0 <=? i) && (i <? Z.of_nat (length l)) then Ok (<[Z.to_nat i := x]> l)
  else Fail Undefined.

(** Modelled from the spec: tools/Matrix.h is not among the sources.  A
    [Matrix<T>] is a table of [rw] rows and [cl] columns kept row by row
    in [data]: the cell (i,j) is [data[j+i*cl]].  The views do no bounds
    checking, so a write to (i,j) goes to that place of [data] whatever
    [i] and [j] are: with [j >= cl] it lands in a following row, and it is
    undefined behaviour only when the place is past the end of [data].
    No view reads the table; [mat_get] is what the theorems read a cell
    of the table with. *)
Record Matrix (T : Type) : Type := {
  rw : Z;
  cl : Z;
  data : list T
}.

Arguments rw {T} m.
Arguments cl {T} m.
Arguments data {T} m.

Definition in_matrix {T : Type} (m : Matrix T) (i j : Z) : bool :=
  (0 <=? i) && (i <? rw m) && (0 <=? j) && (j <? cl m).

Definition mat_get {T : Type} (m : Matrix T) (i j : Z) : result T :=
  if in_matrix m i j then vec_get (data m) (j + i * cl m) else Fail Undefined.

Definition mat_set {T : Type} (m : Matrix T) (i j : Z) (x : T) : result (Matrix T) :=
  do d <- vec_set (data m) (j + i * cl m) x;
  Ok {| rw := rw m; cl := cl m; data := d |}.

(** [DynamicList<unsigned>], the list of active matrix cells kept next to
    the dense matrix: only its three members used by [retrieveMatrix]. *)
Class DynamicListOps (DL : Type) : Type := {
  deactivateAll : DL -> DL;
  activate : DL -> Z -> DL;
  updateActiveMembers : DL -> DL
}.

(** ** The views *)

Definition retrieveMatrix_body {DL : Type} `{DynamicListOps DL}
           (v : AdjacencyMatrixVessel)
           (st : DL * Matrix float) (i : Z) : result (DL * Matrix float) :=
  let '(myactive_elements, mymatrix) := st in
  (* Ignore any non active members *)
  if negb (storedValueIsActive (base v) i) then Ok st
  else
    let myactive_elements := activate myactive_elements i in
    do '(k, j) <- getMatrixIndices v i;
    let vals := retrieveValue (base v) i false in
    let x := (snd vals / fst vals)%float in
    if symmetric v then
      do m1 <- mat_set mymatrix j k x;
      do m2 <- mat_set m1 k j x;
      Ok (myactive_elements, m2)
    else
      do m1 <- mat_set mymatrix k j x;
      Ok (myactive_elements, m1).

Definition retrieveMatrix {DL : Type} `{DynamicListOps DL}
           (v : AdjacencyMatrixVessel)
           (myactive_elements : DL) (mymatrix : Matrix float)
  : result (DL * Matrix float) :=
  let myactive_elements := deactivateAll myactive_elements in
  do n <- getNumberOfStoredValues v;
  do '(myactive_elements, mymatrix) <-
     for_each (retrieveMatrix_body v) (indices n) (myactive_elements, mymatrix);
  Ok (updateActiveMembers myactive_elements, mymatrix).

(** [for(unsigned i=0;i<nneigh.size();++i) nneigh[i]=0;] *)
Definition zero_neighbours (nneigh : list Z) : list Z :=
  fold_left (fun l i => <[i := 0]> l) (seq 0 (length nneigh)) nneigh.

Definition retrieveAdjacencyLists_body (v : AdjacencyMatrixVessel)
           (st : list Z * Matrix Z) (i : Z) : result (list Z * Matrix Z) :=
  let '(nneigh, adj_list) := st in
  (* Ignore any non active members *)
  if negb (storedValueIsActive (base v) i) then Ok st
  else
    do '(k, j) <- getMatrixIndices v i;
    do nk <- vec_get nneigh k;
    do adj_list <- mat_set adj_list k nk j;
    do nneigh <- vec_set nneigh k (uadd nk 1);
    do nj <- vec_get nneigh j;
    do adj_list <- mat_set adj_list j nj k;
    do nneigh <- vec_set nneigh j (uadd nj 1);
    Ok (nneigh, adj_list).

Definition retrieveAdjacencyLists (v : AdjacencyMatrixVessel)
           (nneigh : list Z) (adj_list : Matrix Z) : result (list Z * Matrix Z) :=
  do _ <- plumed_dbg_assert (undirectedGraph v);
  (* Currently everything has zero neighbors *)
  let nneigh := zero_neighbours nneigh in
  (* And set up the adjacency list *)
  do n <- getNumberOfStoredValues v;
  for_each (retrieveAdjacencyLists_body v) (indices n) (nneigh, adj_list).

Definition retrieveEdgeList_body (v : AdjacencyMatrixVessel)
           (st : Z * list (Z * Z)) (i : Z) : result (Z * list (Z * Z)) :=
  let '(nedge, edge_list) := st in
  (* Ignore any non active members *)
  if negb (storedValueIsActive (base v) i) then Ok st
  else
    do _ <- vec_get edge_list nedge;
    do e <- getMatrixIndices v i;
    do edge_list <- vec_set edge_list nedge e;
    Ok (uadd nedge 1, edge_list).

(** [nedge] is an output only: it is reset before anything is read. *)
Definition retrieveEdgeList (v : AdjacencyMatrixVessel)
           (nedge : Z) (edge_list : list (Z * Z)) : result (Z * list (Z * Z)) :=
  do _ <- plumed_dbg_assert (undirectedGraph v);
  let nedge := 0 in
  do n <- getNumberOfStoredValues v;
  for_each (retrieveEdgeList_body v) (indices n) (nedge, edge_list).

(** ** The derivative adapter *)

Definition retrieveDerivatives_body (vals : float * float) (pref : float)
           (myvals : MultiValue) (i : Z) : MultiValue :=
  let jder := getActiveIndex myvals i in
  setDerivative myvals 1 jder
    (getDerivative myvals 1 jder / fst vals - pref * getDerivative myvals 0 jder)%float.

Definition retrieveDerivatives (v : AdjacencyMatrixVessel)
           (myelem : Z) (normed : bool) (myvals : MultiValue) : MultiValue :=
  let myvals := base_retrieveDerivatives (base v) myelem normed myvals in
  if negb (weightHasDerivatives (function v)) then myvals
  else
    let vals := retrieveValue (base v) myelem normed in
    let pref := (snd vals / (fst vals * fst vals))%float in
    fold_left (retrieveDerivatives_body vals pref)
              (indices (getNumberActive myvals)) myvals.

(** ** The index formulas in binary64

    The same formulas evaluated with the primitive binary64 operations, to
    check the exact model of [double_to_unsigned] against the arithmetic
    the compiled code performs. *)

Definition binary64_of_unsigned (z : Z) : float := PrimFloat.of_uint63 (Uint63.of_Z z).

Definition binary64_to_unsigned (f : float) : result Z :=
  match Prim2SF f with
  | S754_zero _ => Ok 0
  | S754_finite s m e =>
      let a := if 0 <=? e then Zpos m * 2 ^ e else Z.quot (Zpos m) (2 ^ (- e)) in
      let t := if s then - a else a in
      if (0 <=? t) && (t <? UINT_RANGE) then Ok t else Fail Undefined
  | _ => Fail Undefined
  end.

Definition binary64_half_product (i j : Z) : result Z :=
  binary64_to_unsigned
    (0.5 * binary64_of_unsigned i * binary64_of_unsigned (usub i 1)
     + binary64_of_unsigned j)%float.

Definition exact_half_product (i j : Z) : result Z :=
  double_to_unsigned
    (half * unsigned_to_double i * unsigned_to_double (usub i 1)
     + unsigned_to_double j).

Definition result_Z_eqb (a b : result Z) : bool :=
  match a, b with
  | Ok x, Ok y => x =? y
  | Fail _, Fail _ => true
  | _, _ => false
  end.

(** ** A store of four nodes

    The store of the examples: symmetric, four nodes, the six tasks decoded
    to the pairs (0,1) (0,2) (1,2) (0,3) (1,3) (2,3); the slots of (0,1)
    and (2,3) are active with normalised values 0.5 and 0.8. *)

(** The binary64 number nearest to 0.8, the value of the literal [0.8]. *)
Definition double_0_8 : float := 0x1.999999999999ap-1%float.

Definition example_atoms : list (list Z) :=
  [[0; 1]; [0; 2]; [1; 2]; [0; 3]; [1; 3]; [2; 3]].

Definition example_function : AdjacencyMatrixBase :=
  {| getNumberOfNodes := 4;
     getTaskCode := fun code => code;
     decodeIndexToAtoms := fun code => nth (Z.to_nat code) example_atoms [];
     weightHasDerivatives := true |}.

Definition example_store : StoreDataVessel :=
  {| storedValueIsActive := fun i => (i =? 0) || (i =? 5);
     retrieveValue := fun i _ =>
       if i =? 0 then (2, 1)%float
       else if i =? 5 then (1, double_0_8)%float
       else (0, 0)%float;
     base_retrieveDerivatives := fun _ _ myvals => myvals |}.

Definition example_vessel : AdjacencyMatrixVessel :=
  {| base := example_store; function := example_function;
     nrows := 4; ncols := 4; symmetric := true; hbonds := false |}.

(** The same store declared directed. *)
Definition example_directed : AdjacencyMatrixVessel :=
  {| base := example_store; function := example_function;
     nrows := 4; ncols := 4; symmetric := false; hbonds := false |}.

(** Directed stores that are not square. *)
Definition directed_2x3 : AdjacencyMatrixVessel :=
  {| base := example_store; function := example_function;
     nrows := 2; ncols := 3; symmetric := false; hbonds := false |}.

Definition directed_3x2 : AdjacencyMatrixVessel :=
  {| base := example_store; function := example_function;
     nrows := 3; ncols := 2; symmetric := false; hbonds := false |}.

(** A list of active cells for the examples: the indices activated since
    the last [deactivateAll], newest first. *)
#[export] Instance list_DynamicListOps : DynamicListOps (list Z) :=
  {| deactivateAll := fun _ => [];
     activate := fun l i => i :: l;
     updateActiveMembers := fun l => l |}.

Definition zero_matrix (r c : Z) : Matrix float :=
  {| rw := r; cl := c; data := replicate (Z.to_nat (r * c)) 0%float |}.

(** A matrix of four rows and four columns filled with 7. *)
Definition seven_matrix : Matrix float :=
  {| rw := 4; cl := 4; data := replicate 16%nat 7%float |}.

(** An adjacency table of four rows of width three, filled with 9. *)
Definition example_adj_list : Matrix Z :=
  {| rw := 4; cl := 3; data := replicate 12%nat 9 |}.

(** The derivative example: weight 2, weighted value 4, and one active
    derivative index (7) with dW = 1 and dV = 3. *)
Definition derivative_store : StoreDataVessel :=
  {| storedValueIsActive := fun _ => true;
     retrieveValue := fun _ _ => (2, 4)%float;
     base_retrieveDerivatives := fun _ _ _ =>
       {| mv_active := [7];
          mv_derivatives := fun ival jder =>
            if jder =? 7 then
              if ival =? 0 then 1%float else if ival =? 1 then 3%float else 0%float
            else 0%float |} |}.

Definition derivative_vessel (weight_derivatives : bool) : AdjacencyMatrixVessel :=
  {| base := derivative_store;
     function := {| getNumberOfNodes := 4;
                    getTaskCode := fun code => code;
                    decodeIndexToAtoms := fun code => nth (Z.to_nat code) example_atoms [];
                    weightHasDerivatives := weight_derivatives |};
     nrows := 4; ncols := 4; symmetric := true; hbonds := false |}.

Definition empty_MultiValue : MultiValue :=
  {| mv_active := []; mv_derivatives := fun _ _ => 0%float |}.

(** A matrix is well formed when [data] holds its [rw * cl] cells. *)
Definition mat_wf {T : Type} (m : Matrix T) : Prop :=
  0 <= rw m /\ 0 <= cl m /\ Z.of_nat (length (data m)) = rw m * cl m.

Definition same_shape {T : Type} (m m' : Matrix T) : Prop :=
  rw m' = rw m /\ cl m' = cl m.

(** The six unordered pairs of four nodes, larger index first. *)
Definition pairs_of_four : list (Z * Z) :=
  [(1, 0); (2, 0); (2, 1); (3, 0); (3, 1); (3, 2)].

(** ** What the views are expected to hold

    The functions below do not come from the source: they say, slot by
    slot, what the views are compared with. *)

(** The pair a slot is decoded to. *)
Definition decoded (v : AdjacencyMatrixVessel) (i : Z) : Z * Z :=
  match getMatrixIndices v i with
  | Ok p => p
  | Fail _ => (0, 0)
  end.

(** The active slots among [l], and the pairs they are decoded to. *)
Definition active_slots (v : AdjacencyMatrixVessel) (l : list Z) : list Z :=
  List.filter (storedValueIsActive (base v)) l.

Definition active_pairs (v : AdjacencyMatrixVessel) (l : list Z) : list (Z * Z) :=
  map (decoded v) (active_slots v l).

(** The normalised value V/W of a slot. *)
Definition normalized_value (v : AdjacencyMatrixVessel) (i : Z) : float :=
  let vals := retrieveValue (base v) i false in (snd vals / fst vals)%float.

(** Slot [i] is active and addresses the cell (a,b): directly, or in
    symmetric mode also as the mirror cell. *)
Definition writes_cell (v : AdjacencyMatrixVessel) (i a b : Z) : bool :=
  storedValueIsActive (base v) i &&
  match getMatrixIndices v i with
  | Ok (k, j) => ((k =? a) && (j =? b)) || (symmetric v && (j =? a) && (k =? b))
  | Fail _ => false
  end.

(** The last slot of [l] that writes the cell (a,b). *)
Fixpoint last_writer (v : AdjacencyMatrixVessel) (l : list Z) (a b : Z) : option Z :=
  match l with
  | [] => None
  | i :: l' =>
      match last_writer v l' a b with
      | Some i' => Some i'
      | None => if writes_cell v i a b then Some i else None
      end
  end.

(** The neighbours of node [x] in a list of pairs, in the order in which
    the pairs list them. *)
Fixpoint neighbours_of (prs : list (Z * Z)) (x : Z) : list Z :=
  match prs with
  | [] => []
  | (k, j) :: rest =>
      (if k =? x then [j] else []) ++ (if j =? x then [k] else [])
      ++ neighbours_of rest x
  end.

(** Every active slot of [l] decodes to a cell of [m] (and to a mirror
    cell of [m] in symmetric mode). *)
Definition slots_in_matrix (v : AdjacencyMatrixVessel) (l : list Z)
           (m : Matrix float) : Prop :=
  forall i, In i l -> storedValueIsActive (base v) i = true ->
  exists k j, getMatrixIndices v i = Ok (k, j)
              /\ in_matrix m k j = true
              /\ (symmetric v = true -> in_matrix m j k = true).

(** One half of an iteration of [retrieveAdjacencyLists]: node [b] is
    appended to the adjacency row of node [a] and the count of [a] goes up
    ([adj_list(a,nneigh[a])=b; nneigh[a]++;]). *)
Definition push_neighbour (st : list Z * Matrix Z) (a b : Z)
  : result (list Z * Matrix Z) :=
  let '(nneigh, adj_list) := st in
  do n <- vec_get nneigh a;
  do adj_list <- mat_set adj_list a n b;
  do nneigh <- vec_set nneigh a (uadd n 1);
  Ok (nneigh, adj_list).

(** The counts and the adjacency table hold the rows [f]: node [x] has
    [length (f x)] neighbours, listed in row [x] of the table. *)
Definition rows_hold (N : Z) (f : Z -> list Z) (nneigh : list Z)
           (adj_list : Matrix Z) : Prop :=
  Z.of_nat (length nneigh) = N /\ mat_wf adj_list
  /\ forall x, 0 <= x < N ->
       vec_get nneigh x = Ok (Z.of_nat (length (f x)))
       /\ forall (p : nat) (y : Z), f x !! p = Some y ->
            mat_get adj_list x (Z.of_nat p) = Ok y.

(** Every active slot of [l] decodes to a pair of nodes below [N]. *)
Definition slots_below (v : AdjacencyMatrixVessel) (l : list Z) (N : Z) : Prop :=
  forall i, In i l -> storedValueIsActive (base v) i = true ->
  exists k j, getMatrixIndices v i = Ok (k, j) /\ 0 <= k < N /\ 0 <= j < N.

(** Every active slot of [l] decodes to a pair. *)
Definition slots_decode (v : AdjacencyMatrixVessel) (l : list Z) : Prop :=
  forall i, In i l -> storedValueIsActive (base v) i = true ->
  exists p, getMatrixIndices v i = Ok p.

(** The adjustment of one derivative index: what an iteration of the loop
    of [retrieveDerivatives] does to the index [jder]. *)
Definition adjust_derivative (vals : float * float) (pref : float)
           (myvals : MultiValue) (jder : Z) : MultiValue :=
  setDerivative myvals 1 jder
    (getDerivative myvals 1 jder / fst vals - pref * getDerivative myvals 0 jder)%float.

(** The store index of a task as it is meant to be: decode the task to its
    matrix indices and take their store index. *)
Definition store_index_of_task (v : AdjacencyMatrixVessel) (myelem : Z) : result Z :=
  do '(ielem, jelem) <- getMatrixIndices v myelem;
  getStoreIndexFromMatrixIndices v ielem jelem.


(** No slot below [n] is active. *)
Definition store_empty (v : AdjacencyMatrixVessel) (n : Z) : Prop :=
  forall i, 0 <= i < n -> storedValueIsActive (base v) i = false.

(** The sum of the neighbour counts. *)
Definition total_degree (nneigh : list Z) : Z := fold_right Z.add 0 nneigh.

(** The store of four nodes declared hbonds: sixteen slots, row by row. *)
Definition hbonds_atoms : list (list Z) :=
  map (fun t => [t / 4; t mod 4]) (indices 16).

Definition hbonds_function : AdjacencyMatrixBase :=
  {| getNumberOfNodes := 4;
     getTaskCode := fun code => code;
     decodeIndexToAtoms := fun code => nth (Z.to_nat code) hbonds_atoms [];
     weightHasDerivatives := true |}.

Definition hbonds_store : StoreDataVessel :=
  {| storedValueIsActive := fun i => (i =? 1) || (i =? 11);
     retrieveValue := fun i _ =>
       if i =? 1 then (2, 1)%float
       else if i =? 11 then (1, double_0_8)%float
       else (0, 0)%float;
     base_retrieveDerivatives := fun _ _ myvals => myvals |}.

Definition example_hbonds : AdjacencyMatrixVessel :=
  {| base := hbonds_store; function := hbonds_function;
     nrows := 4; ncols := 4; symmetric := false; hbonds := true |}.

(** A store without active slots. *)
Definition silent_store : StoreDataVessel :=
  {| storedValueIsActive := fun _ => false;
     retrieveValue := fun _ _ => (0, 0)%float;
     base_retrieveDerivatives := fun _ _ myvals => myvals |}.

Definition silent_vessel : AdjacencyMatrixVessel :=
  {| base := silent_store; function := example_function;
     nrows := 4; ncols := 4; symmetric := true; hbonds := false |}.

(** The dense matrix of the store of four nodes. *)
Definition example_dense_matrix : Matrix float :=
  {| rw := 4; cl := 4;
     data := [0; 0.5; 0; 0;
              0.5; 0; 0; 0;
              0; 0; 0; double_0_8;
              0; 0; double_0_8; 0]%float |}.

(** The counts and the adjacency table handed to the adjacency-list view
    have room for the store: a count and a row for every node the active
    slots decode to, and rows as wide as the longest list of neighbours. *)
Definition adjacency_table_fits (v : AdjacencyMatrixVessel) (n : Z)
           (nneigh : list Z) (adj_list : Matrix Z) : Prop :=
  mat_wf adj_list
  /\ Z.of_nat (length nneigh) <= rw adj_list
  /\ cl adj_list < UINT_RANGE
  /\ slots_below v (indices n) (Z.of_nat (length nneigh))
  /\ forall x, 0 <= x < Z.of_nat (length nneigh) ->
       Z.of_nat (length (neighbours_of (active_pairs v (indices n)) x)) <= cl adj_list.


(** The adjacency table of the store of four nodes after the view. *)
Definition example_adj_list_filled : Matrix Z :=
  {| rw := 4; cl := 3; data := [1; 9; 9; 0; 9; 9; 3; 9; 9; 2; 9; 9] |}.

(** The counts hold the numbers of neighbours [f], whatever the table
    holds. *)
Definition counts_hold (N : Z) (f : Z -> list Z) (nneigh : list Z) : Prop :=
  Z.of_nat (length nneigh) = N
  /\ forall x, 0 <= x < N -> vec_get nneigh x = Ok (Z.of_nat (length (f x))).

(** Stores of four nodes in which one node has the three others as
    neighbours: node 0 (the slots 0, 1 and 3), node 3 (the slots 3, 4 and
    5). *)
Definition hub0_store : StoreDataVessel :=
  {| storedValueIsActive := fun i => (i =? 0) || (i =? 1) || (i =? 3);
     retrieveValue := fun _ _ => (1, 1)%float;
     base_retrieveDerivatives := fun _ _ myvals => myvals |}.

Definition hub0_vessel : AdjacencyMatrixVessel :=
  {| base := hub0_store; function := example_function;
     nrows := 4; ncols := 4; symmetric := true; hbonds := false |}.

Definition hub3_store : StoreDataVessel :=
  {| storedValueIsActive := fun i => (i =? 3) || (i =? 4) || (i =? 5);
     retrieveValue := fun _ _ => (1, 1)%float;
     base_retrieveDerivatives := fun _ _ myvals => myvals |}.

Definition hub3_vessel : AdjacencyMatrixVessel :=
  {| base := hub3_store; function := example_function;
     nrows := 4; ncols := 4; symmetric := true; hbonds := false |}.

(** Adjacency tables of four rows of width one and two, filled with 9. *)
Definition one_column_adj_list : Matrix Z :=
  {| rw := 4; cl := 1; data := replicate 4%nat 9 |}.

Definition two_column_adj_list : Matrix Z :=
  {| rw := 4; cl := 2; data := replicate 8%nat 9 |}.

(** * The collective variables of src/colvar/Gyration.cpp *)

(** ** GYRATION: sorting the principal components

    The part of [Gyration::calculate] that orders the eigenvalues of the
    gyration tensor and carries the eigenvectors along.  [princ_comp] is a
    [std::vector<double>] of size 3 and [transf] a [Matrix<double>] of
    3 x 3, both created in the function with these sizes and indexed by
    constants and by loops below 3: they are functions of the indices. *)
Module Gyration.

Definition vector3 : Type := Z -> float.
Definition matrix3 : Type := Z -> Z -> float.

Definition set3 (p : vector3) (c : Z) (x : float) : vector3 :=
  fun c' => if c' =? c then x else p c'.

Definition set33 (t : matrix3) (i c : Z) (x : float) : matrix3 :=
  fun i' c' => if (i' =? i) && (c' =? c) then x else t i' c'.

(** [if (princ_comp[a]<princ_comp[b]){ swap the two components; swap the
    columns a and b of transf, row by row }] *)
Definition compare_swap (a b : Z) (st : vector3 * matrix3) : vector3 * matrix3 :=
  let '(princ_comp, transf) := st in
  if (princ_comp a <? princ_comp b)%float then
    let tmp := princ_comp a in
    let princ_comp := set3 princ_comp a (princ_comp b) in
    let princ_comp := set3 princ_comp b tmp in
    let transf :=
      fold_left (fun transf i =>
                   let tmp := transf i a in
                   let transf := set33 transf i a (transf i b) in
                   set33 transf i b tmp)
                (indices 3) transf in
    (princ_comp, transf)
  else st.

Definition sort_principal_components (st : vector3 * matrix3) : vector3 * matrix3 :=
  compare_swap 0 1 (compare_swap 1 2 (compare_swap 0 1 st)).

End Gyration.

(** ** NOE

    [NOE] reads numbered groups of atoms, GROUPA1 with GROUPB1, GROUPA2
    with GROUPB2, ..., and computes one value for each couple of groups.
    The atoms of all the groups are concatenated in two lists that are
    handed to a [NeighborList] of pairs, and [nga] keeps the number of atoms
    of each group: the couples of the [i]-th NOE are the pairs numbered
    from [nga[0] + ... + nga[i-1]] on.  The model keeps this bookkeeping
    as it is written; the parser, the geometry and the communicator are
    collaborators declared outside these sources and are taken as they
    come. *)
Module NOE.

Definition AtomNumber : Type := Z.

(** What the parser finds in the input line.  The numbered keywords are
    lists: [GROUPA1] is the first element, and a keyword that is not given
    reads as no atom, as does every keyword past the end.  [other_words]
    is the number of words of the line that name no keyword of [NOE] or of
    its base classes. *)
Record ActionOptions : Type := {
  SERIAL : bool;
  NOPBC : bool;
  GROUPA : list (list AtomNumber);
  GROUPB : list (list AtomNumber);
  ADDDISTANCES : bool;
  NOEDIST : list (option float);
  other_words : nat
}.

(** The messages of [Action::error], which ends the construction. *)
Inductive message : Type :=
| SameNumberOfAtoms      (* error("The same number of atoms is expected for the same GROUPA-GROUPB couple") *)
| SameNumberOfKeywords   (* error("There should be the same number of GROUPA and GROUPB keywords") *)
| WrongNumberOfNoedist   (* error("found wrong number of NOEDIST values") *)
| CannotUnderstand.      (* checkRead() *)

Inductive construction (A : Type) : Type :=
| Built (a : A)
| Error (m : message)
| OutOfRange.            (* a std::vector indexed past its end: undefined *)

Arguments Built {A} a.
Arguments Error {A} m.
Arguments OutOfRange {A}.

Definition and_then {A B : Type} (r : construction A) (k : A -> construction B)
  : construction B :=
  match r with
  | Built a => k a
  | Error m => Error m
  | OutOfRange => OutOfRange
  end.

Definition of_result {A : Type} (r : result A) : construction A :=
  match r with
  | Ok a => Built a
  | Fail _ => OutOfRange
  end.

(** [t.size()] stored in a [std::vector<unsigned>]. *)
Definition size {T : Type} (t : list T) : Z := wrap (Z.of_nat (length t)).

(** [for(int i=1;;++i){ parseAtomList("GROUPA",i,t); if(t.empty()) break; ... }] *)
Fixpoint read_GROUPA (kw : list (list AtomNumber))
         (ga_lista : list AtomNumber) (nga : list Z) : list AtomNumber * list Z :=
  match kw with
  | [] => (ga_lista, nga)
  | t :: kw' =>
      match t with
      | [] => (ga_lista, nga)
      | _ :: _ => read_GROUPA kw' (ga_lista ++ t) (nga ++ [size t])
      end
  end.

(** The same loop for GROUPB, which also compares [ngb[i-1]] with
    [nga[i-1]]. *)
Fixpoint read_GROUPB (nga : list Z) (kw : list (list AtomNumber)) (i : Z)
         (gb_lista : list AtomNumber) (ngb : list Z)
  : construction (list AtomNumber * list Z) :=
  match kw with
  | [] => Built (gb_lista, ngb)
  | t :: kw' =>
      match t with
      | [] => Built (gb_lista, ngb)
      | _ :: _ =>
          let gb_lista := gb_lista ++ t in
          let ngb := ngb ++ [size t] in
          and_then (of_result (vec_get ngb (i - 1))) (fun b =>
          and_then (of_result (vec_get nga (i - 1))) (fun a =>
          if negb (b =? a) then Error SameNumberOfAtoms
          else read_GROUPB nga kw' (i + 1) gb_lista ngb))
      end
  end.

(** [for(unsigned i=0;i<nga.size();++i){ if(!parseNumbered("NOEDIST",i+1,noedist[i])) break; ntarget++; }] *)
Fixpoint read_NOEDIST (kw : list (option float)) (ks : list Z)
         (noedist : list float) (ntarget : Z) : construction (list float * Z) :=
  match ks with
  | [] => Built (noedist, ntarget)
  | i :: ks' =>
      match kw !! Z.to_nat i with
      | Some (Some x) =>
          and_then (of_result (vec_set noedist i x)) (fun noedist =>
          read_NOEDIST kw ks' noedist (uadd ntarget 1))
      | _ => Built (noedist, ntarget)
      end
  end.

(** The loop nest over the couples that the constructor and [calculate]
    both have:
    [for(i=0;i<nga.size();i++){ first(i); for(j=0;j<nga[i];j++){ visit(i,j,index); index++; } }]
    with [index] running through the pairs of the neighbour list. *)
Section Couples.
Context {St : Type}.
Variable first : Z -> St -> result St.
Variable visit : Z -> Z -> Z -> St -> result St.

Definition couples (nga : list Z) (i : Z) (st : Z * St) : result (Z * St) :=
  do n <- vec_get nga i;
  for_each (fun '(index, s) j => do s' <- visit i j index s; Ok (uadd index 1, s'))
           (indices n) st.

Definition all_couples (nga : list Z) (sga : Z) (s : St) : result St :=
  do '(_, s') <- for_each (fun '(index, s) i => do s' <- first i s;
                                                 couples nga i (index, s'))
                          (indices sga) (0, s);
  Ok s'.

End Couples.

(** What the constructor writes to the log about the couples. *)
Inductive log_line : Type :=
| noe_line (i n : Z)                      (* The %uth NOE is calculated using %u equivalent couples of atoms *)
| couple_line (j : Z) (a b : AtomNumber). (* couple %u is %d %d. *)

(** The components the constructor declares. *)
Inductive component : Type :=
| noe_ (i : Z)                  (* addComponentWithDerivatives("noe_"+num) *)
| exp_ (i : Z) (value : float). (* addComponent("exp_"+num); comp->set(noedist[i]) *)

Record NOE : Type := {
  pbc : bool;
  serial : bool;
  nga : list Z;
  (** [nl = new NeighborList(ga_lista,gb_lista,true,pbc,getPbc())]: the
      list of the pairs [(ga_lista[k], gb_lista[k])]. *)
  ga_lista : list AtomNumber;
  gb_lista : list AtomNumber;
  noedist : list float;
  log : list log_line;
  components : list component
}.

Definition log_couples (nga : list Z) (ga_lista gb_lista : list AtomNumber)
  : result (list log_line) :=
  all_couples
    (fun i log => do n <- vec_get nga i; Ok (log ++ [noe_line i n]))
    (fun i j index log => do a <- vec_get ga_lista index;
                          do b <- vec_get gb_lista index;
                          Ok (log ++ [couple_line j a b]))
    nga (Z.of_nat (length nga)) [].

Definition exp_components (nga : list Z) (noedist : list float) : result (list component) :=
  for_each (fun cs i => do x <- vec_get noedist i; Ok (cs ++ [exp_ i x]))
           (indices (Z.of_nat (length nga))) [].

Definition nonempty {T : Type} (t : list T) : bool :=
  match t with
  | [] => false
  | _ :: _ => true
  end.

Definition present {T : Type} (o : option T) : bool :=
  match o with
  | Some _ => true
  | None => false
  end.

(** The words of the input line that no call of the parser has asked
    for, when the loops have read [na] GROUPA keywords, [nb] GROUPB
    keywords and [nd] NOEDIST keywords.  (The loops of the groups have
    also asked for the keyword after the last one, and found none.) *)
Definition unread_keywords (ao : ActionOptions) (na nb nd : nat) : bool :=
  existsb nonempty (drop na (GROUPA ao))
  || existsb nonempty (drop nb (GROUPB ao))
  || existsb present (drop nd (NOEDIST ao))
  || negb (Nat.eqb (other_words ao) 0).

(** Modelled from the spec: [Action::checkRead] is not among the sources,
    and the spec leaves the parsing to collaborators.  It is taken as the
    closing check of the parser: the construction stops when a word of
    the input line has not been read. *)
Definition checkRead (unread : bool) : construction unit :=
  if unread then Error CannotUnderstand else Built tt.

(** [NOE::NOE].  The loops over [i<nga.size()] run over the indices of
    [nga]: a vector has fewer than 2^32 elements.  [requestAtoms] acts on
    the base classes and reads nothing of what is built here. *)
Definition new_NOE (ao : ActionOptions) : construction NOE :=
  let serial := SERIAL ao in
  let nopbc := NOPBC ao in
  let pbc := negb nopbc in
  let '(ga_lista, nga) := read_GROUPA (GROUPA ao) [] [] in
  and_then (read_GROUPB nga (GROUPB ao) 1 [] []) (fun '(gb_lista, ngb) =>
  if negb (Z.of_nat (length nga) =? Z.of_nat (length ngb))
  then Error SameNumberOfKeywords else
  let addistance := ADDDISTANCES ao in
  and_then
    (if addistance then
       and_then (read_NOEDIST (NOEDIST ao) (indices (Z.of_nat (length nga)))
                              (replicate (length nga) 0%float) 0)
                (fun '(noedist, ntarget) =>
                   if negb (ntarget =? Z.of_nat (length nga)) then Error WrongNumberOfNoedist
                   else Built (noedist, Z.to_nat ntarget))
     else Built ([], 0%nat))
    (fun '(noedist, nread) =>
  and_then (of_result (log_couples nga ga_lista gb_lista)) (fun log =>
  let noes := map noe_ (indices (Z.of_nat (length nga))) in
  and_then
    (if addistance then of_result (exp_components nga noedist) else Built [])
    (fun exps =>
  and_then (checkRead (unread_keywords ao (length nga) (length ngb) nread)) (fun _ =>
  Built {| pbc := pbc; serial := serial; nga := nga;
           ga_lista := ga_lista; gb_lista := gb_lista;
           noedist := noedist; log := log; components := noes ++ exps |}))))).

(** *** [NOE::calculate] *)

(** The indices [lo, lo+1, ..., hi-1] of [for(unsigned k=lo;k<hi;k++)]. *)
Definition range (lo hi : Z) : list Z :=
  map (fun k => lo + Z.of_nat k) (seq 0 (Z.to_nat (hi - lo))).

(** [for(k in ks) index += nga[k];] *)
Definition skip_couples (nga : list Z) (ks : list Z) (index : Z) : result Z :=
  for_each (fun index k => do n <- vec_get nga k; Ok (uadd index n)) ks index.

Section Calculate.
Context {St : Type}.
(** The body of the first loop: the distance of the pair [index] is added
    to [noe[i]], [deriv] and [dervir[i]]. *)
Variable accumulate : Z -> Z -> Z -> St -> result St.
(** [getNumberOfAtoms()], of the base class: the length of [deriv]. *)
Variable getNumberOfAtoms : Z.
(** What [comm.Sum] does to the three arrays. *)
Variable sum_over_ranks : St -> result St.
(** [val->set(noe[i]); setBoxDerivatives(val,dervir[i])] *)
Variable set_component : Z -> St -> result St.
(** [setAtomsDerivatives] of the two atoms of the pair [index]. *)
Variable set_derivatives : Z -> Z -> Z -> St -> result St.

(** [for(unsigned i=rank;i<sga;i+=stride){ couples; skip the NOEs of the
    other ranks }].  The loop counter can wrap around, so the loop is run
    on fuel: [None] when it runs out. *)
Fixpoint first_loop (fuel : nat) (nga : list Z) (sga stride i index : Z) (s : St)
  : option (result (Z * St)) :=
  if i <? sga then
    match fuel with
    | O => None
    | S fuel' =>
        match (do '(index', s') <- couples accumulate nga i (index, s);
               do index'' <- skip_couples nga (range (uadd i 1) (uadd i stride)) index';
               Ok (index'', s')) with
        | Ok (index', s') => first_loop fuel' nga sga stride (uadd i stride) index' s'
        | Fail e => Some (Fail e)
        end
    end
  else Some (Ok (index, s)).

(** [s] holds the arrays [deriv], [dervir] and [noe] as they are created,
    filled with zeros: [noe] and [dervir] of length [sga], [deriv] of
    length [getNumberOfAtoms()].  [comm_size] and [comm_rank] are
    [comm.Get_size()] and [comm.Get_rank()].  In a parallel run the first
    element of each array is handed to [comm.Sum]: indexing an empty
    vector is undefined. *)
Definition calculate (fuel : nat) (noe : NOE) (comm_size comm_rank : Z) (s : St)
  : option (result St) :=
  let sga := size (nga noe) in
  let stride := if serial noe then 1 else comm_size in
  let rank := if serial noe then 0 else comm_rank in
  match skip_couples (nga noe) (indices rank) 0 with
  | Fail e => Some (Fail e)
  | Ok index =>
      match first_loop fuel (nga noe) sga stride rank index s with
      | None => None
      | Some (Fail e) => Some (Fail e)
      | Some (Ok (_, s')) =>
          Some (do s'' <- (if serial noe then Ok s'
                           else
                             (* comm.Sum(&noe[0],sga);
                                comm.Sum(&deriv[0][0],3*deriv.size());
                                comm.Sum(&dervir[0][0][0],9*sga); *)
                             if (sga =? 0) || (getNumberOfAtoms =? 0) then Fail Undefined
                             else sum_over_ranks s');
                all_couples set_component set_derivatives (nga noe) sga s'')
      end
  end.

End Calculate.

(** *** What the loops amount to *)

(** The numbered keywords that are read: the ones before the first that
    is missing. *)
Fixpoint given (kw : list (list AtomNumber)) : list (list AtomNumber) :=
  match kw with
  | [] => []
  | t :: kw' =>
      match t with
      | [] => []
      | _ :: _ => t :: given kw'
      end
  end.

(** The number of the first pair of the [i]-th NOE. *)
Definition offset (nga : list Z) (i : Z) : Z :=
  fold_right Z.add 0 (take (Z.to_nat i) nga).

(** The couples of the [i]-th NOE with the pair of each one in closed
    form. *)
Definition couples_of {St : Type} (visit : Z -> Z -> Z -> St -> result St)
           (nga : list Z) (s : St) (i : Z) : result St :=
  for_each (fun s j => visit i j (offset nga i + j) s)
           (indices (nth (Z.to_nat i) nga 0)) s.

(** The NOEs of a rank: [rank], [rank+stride], ... below [sga]. *)
Definition noes_of_rank (sga stride rank : Z) : list Z :=
  List.filter (fun i => (rank <=? i) && ((i - rank) mod stride =? 0)) (indices sga).

(** A state that records the pairs it is asked for. *)
Definition trace : Type := list (Z * Z * Z).
Definition record_pair (i j index : Z) (t : trace) : result trace :=
  Ok (t ++ [(i, j, index)]).

End NOE.

(** Three NOEs of two, one and three couples, with their distances. *)
Definition example_noe_options : NOE.ActionOptions :=
  {| NOE.SERIAL := false;
     NOE.NOPBC := false;
     NOE.GROUPA := [[1; 2]; [3]; [4; 5; 6]];
     NOE.GROUPB := [[7; 8]; [9]; [10; 11; 12]];
     NOE.ADDDISTANCES := true;
     NOE.NOEDIST := [Some 1%float; Some 2%float; Some 3%float];
     NOE.other_words := 0 |}.

Definition example_noe : NOE.NOE :=
  {| NOE.pbc := true;
     NOE.serial := false;
     NOE.nga := [2; 1; 3];
     NOE.ga_lista := [1; 2; 3; 4; 5; 6];
     NOE.gb_lista := [7; 8; 9; 10; 11; 12];
     NOE.noedist := [1%float; 2%float; 3%float];
     NOE.log := [NOE.noe_line 0 2; NOE.couple_line 0 1 7; NOE.couple_line 1 2 8;
                 NOE.noe_line 1 1; NOE.couple_line 0 3 9;
                 NOE.noe_line 2 3; NOE.couple_line 0 4 10; NOE.couple_line 1 5 11;
                 NOE.couple_line 2 6 12];
     NOE.components := [NOE.noe_ 0; NOE.noe_ 1; NOE.noe_ 2;
                        NOE.exp_ 0 1%float; NOE.exp_ 1 2%float; NOE.exp_ 2 3%float] |}.

(** The same groups with one more GROUPB keyword. *)
Definition unpaired_groupb_options : NOE.ActionOptions :=
  {| NOE.SERIAL := false;
     NOE.NOPBC := false;
     NOE.GROUPA := [[1; 2]; [3]; [4; 5; 6]];
     NOE.GROUPB := [[7; 8]; [9]; [10; 11; 12]; [13]];
     NOE.ADDDISTANCES := false;
     NOE.NOEDIST := [];
     NOE.other_words := 0 |}.

(** The same groups for a serial run without distances. *)
Definition serial_noe_options : NOE.ActionOptions :=
  {| NOE.SERIAL := true;
     NOE.NOPBC := true;
     NOE.GROUPA := [[1; 2]; [3]; [4; 5; 6]];
     NOE.GROUPB := [[7; 8]; [9]; [10; 11; 12]];
     NOE.ADDDISTANCES := false;
     NOE.NOEDIST := [];
     NOE.other_words := 0 |}.

Definition serial_noe : NOE.NOE :=
  {| NOE.pbc := false;
     NOE.serial := true;
     NOE.nga := [2; 1; 3];
     NOE.ga_lista := [1; 2; 3; 4; 5; 6];
     NOE.gb_lista := [7; 8; 9; 10; 11; 12];
     NOE.noedist := [];
     NOE.log := [NOE.noe_line 0 2; NOE.couple_line 0 1 7; NOE.couple_line 1 2 8;
                 NOE.noe_line 1 1; NOE.couple_line 0 3 9;
                 NOE.noe_line 2 3; NOE.couple_line 0 4 10; NOE.couple_line 1 5 11;
                 NOE.couple_line 2 6 12];
     NOE.components := [NOE.noe_ 0; NOE.noe_ 1; NOE.noe_ 2] |}.

(** * Index arithmetic *)

Lemma triangular_double (k : Z) : 2 * triangular k = k * (k - 1).
Proof.
  unfold triangular.
  assert (E : (k * (k - 1)) mod 2 = 0).
  { rewrite Z.mul_mod by lia.
    pose proof (Z.mod_pos_bound k 2 ltac:(lia)) as Hk.
    assert (Hc : k mod 2 = 0 \/ k mod 2 = 1) by lia.
    destruct Hc as [Hc | Hc].
    - rewrite Hc. reflexivity.
    - replace ((k - 1) mod 2) with 0.
      + rewrite Z.mul_0_r. reflexivity.
      + symmetry. rewrite Zminus_mod, Hc. reflexivity. }
  symmetry. apply Z.div_exact; [lia | exact E].
Qed.

Lemma triangular_succ (k : Z) : triangular (k + 1) = triangular k + k.
Proof.
  pose proof (triangular_double k). pose proof (triangular_double (k + 1)). nia.
Qed.

Lemma triangular_nonneg (k : Z) : 0 <= k -> 0 <= triangular k.
Proof. intros Hk. pose proof (triangular_double k). nia. Qed.

Lemma triangular_mono (a b : Z) : 0 <= a <= b -> triangular a <= triangular b.
Proof.
  intros H. pose proof (triangular_double a). pose proof (triangular_double b).
  destruct (Z.eq_dec a b) as [-> | Hne]; [lia |].
  assert (0 <= (b - a) * (a + b - 1)) by (apply Z.mul_nonneg_nonneg; lia).
  nia.
Qed.

Lemma triangular_bound (k : Z) :
  0 <= k -> triangular k < UINT_RANGE -> k < UINT_RANGE.
Proof.
  unfold UINT_RANGE. intros Hk Ht. pose proof (triangular_double k).
  destruct (Z_lt_ge_dec k (2 ^ 32)) as [Hlt | Hge]; [exact Hlt | nia].
Qed.

Lemma wrap_small (z : Z) : 0 <= z < UINT_RANGE -> wrap z = z.
Proof. intros H. unfold wrap. apply Z.mod_small. exact H. Qed.

Lemma Qtrunc_inject_Z (q : Q) (z : Z) : (q == inject_Z z)%Q -> Qtrunc q = z.
Proof.
  unfold Qeq, Qtrunc. simpl. intros E. rewrite Z.mul_1_r in E. rewrite E.
  apply Z.quot_mul. discriminate.
Qed.

Lemma double_to_unsigned_exact (q : Q) (z : Z) :
  (q == inject_Z z)%Q -> 0 <= z < UINT_RANGE -> double_to_unsigned q = Ok z.
Proof.
  intros E [H0 H1]. unfold double_to_unsigned.
  rewrite (Qtrunc_inject_Z q z E).
  destruct (Z.leb_spec 0 z); [| lia].
  destruct (Z.ltb_spec z UINT_RANGE); [reflexivity | lia].
Qed.

Lemma double_to_unsigned_range (q : Q) (z : Z) :
  double_to_unsigned q = Ok z -> 0 <= z < UINT_RANGE.
Proof.
  unfold double_to_unsigned. intros H.
  destruct (Z.leb_spec 0 (Qtrunc q)); [| discriminate].
  destruct (Z.ltb_spec (Qtrunc q) UINT_RANGE); [| discriminate].
  injection H as <-. lia.
Qed.

(** The double expression [0.5*i*(i-1)+j] has the exact value
    [triangular i + j] whenever [i-1] does not wrap. *)
Lemma half_product_exact (i j : Z) :
  1 <= i < UINT_RANGE ->
  (half * unsigned_to_double i * unsigned_to_double (usub i 1)
   + unsigned_to_double j == inject_Z (triangular i + j))%Q.
Proof.
  intros Hi. unfold usub, unsigned_to_double, half.
  rewrite wrap_small by lia.
  pose proof (triangular_double i) as Ht.
  rewrite inject_Z_plus.
  assert (E : (inject_Z i * inject_Z (i - 1) == 2 * inject_Z (triangular i))%Q).
  { rewrite <- inject_Z_mult, <- Ht, inject_Z_mult. reflexivity. }
  rewrite <- Qmult_assoc, E. field.
Qed.

(** With [i = 0] the factor [i-1] wraps to [2^32-1], and the product is 0. *)
Lemma half_product_zero (j : Z) :
  (half * unsigned_to_double 0 * unsigned_to_double (usub 0 1)
   + unsigned_to_double j == inject_Z (triangular 0 + j))%Q.
Proof.
  unfold unsigned_to_double, half.
  change (triangular 0 + j) with j. change (inject_Z 0) with 0%Q.
  generalize (inject_Z (usub 0 1)). intros q. ring.
Qed.

Lemma half_product_value (i j : Z) :
  0 <= i < UINT_RANGE ->
  (half * unsigned_to_double i * unsigned_to_double (usub i 1)
   + unsigned_to_double j == inject_Z (triangular i + j))%Q.
Proof.
  intros Hi. destruct (Z.eq_dec i 0) as [-> | Hne].
  - apply half_product_zero.
  - apply half_product_exact. lia.
Qed.

(** What the symmetric branch returns: the triangular offset of the larger
    index plus the smaller index. *)
Lemma symmetric_index_value (v : AdjacencyMatrixVessel) (i j : Z) :
  symmetric v = true ->
  0 <= i -> 0 <= j ->
  triangular (Z.max i j) + Z.min i j < UINT_RANGE ->
  getStoreIndexFromMatrixIndices v i j = Ok (triangular (Z.max i j) + Z.min i j).
Proof.
  intros Hs Hi Hj Hr. unfold getStoreIndexFromMatrixIndices. rewrite Hs. simpl.
  assert (Hm : Z.max i j < UINT_RANGE).
  { apply triangular_bound; [lia |].
    assert (0 <= Z.min i j) by lia. lia. }
  pose proof (triangular_nonneg (Z.max i j) ltac:(lia)) as Hn.
  destruct (Z.gtb_spec i j) as [Hgt | Hle].
  - rewrite Z.max_l, Z.min_r in * by lia.
    apply double_to_unsigned_exact; [apply half_product_value; lia | lia].
  - rewrite Z.max_r, Z.min_l in * by lia.
    apply double_to_unsigned_exact; [apply half_product_value; lia | lia].
Qed.

Lemma triangular_pair_lt (a b n : Z) :
  0 <= b < a -> a < n -> triangular a + b < triangular n.
Proof.
  intros Hb Ha.
  pose proof (triangular_succ a) as Hs.
  pose proof (triangular_mono (a + 1) n ltac:(lia)). lia.
Qed.

Lemma triangular_pair_inj (a b a' b' : Z) :
  0 <= b < a -> 0 <= b' < a' ->
  triangular a + b = triangular a' + b' -> a = a' /\ b = b'.
Proof.
  intros Hb Hb' E.
  pose proof (triangular_nonneg a ltac:(lia)).
  pose proof (triangular_nonneg a' ltac:(lia)).
  destruct (Z.lt_trichotomy a a') as [Hlt | [Heq | Hgt]].
  - pose proof (triangular_pair_lt a b a' Hb Hlt). lia.
  - subst a'. lia.
  - pose proof (triangular_pair_lt a' b' a Hb' Hgt). lia.
Qed.

(** Every index below [triangular n] is the index of a pair [j < i < n]. *)
Lemma triangular_pair_surj (n : Z) :
  0 <= n ->
  forall idx, 0 <= idx < triangular n ->
  exists i j, 0 <= j < i /\ i < n /\ idx = triangular i + j.
Proof.
  intros Hn. pattern n. apply natlike_ind; [| | exact Hn].
  - intros idx H. change (triangular 0) with 0 in H. lia.
  - intros m Hm IH idx Hidx.
    unfold Z.succ in Hidx. rewrite triangular_succ in Hidx.
    destruct (Z_lt_ge_dec idx (triangular m)) as [Hlt | Hge].
    + destruct (IH idx ltac:(lia)) as (i & j & Hj & Hi & E).
      exists i, j. repeat split; lia.
    + exists m, (idx - triangular m). repeat split; lia.
Qed.

(** In a square directed (or hbonds) matrix the row-major index is a
    bijection between the cells and the store. *)
Lemma square_index_value (v : AdjacencyMatrixVessel) (i j : Z) :
  symmetric v = false -> nrows v = ncols v ->
  nrows v * ncols v <= UINT_RANGE ->
  0 <= i < nrows v -> 0 <= j < ncols v ->
  getStoreIndexFromMatrixIndices v i j = Ok (nrows v * i + j)
  /\ 0 <= nrows v * i + j < nrows v * ncols v.
Proof.
  intros Hs Hsq Hr Hi Hj. unfold getStoreIndexFromMatrixIndices. rewrite Hs. simpl.
  assert (Hb : 0 <= nrows v * i + j < nrows v * ncols v) by nia.
  split; [| exact Hb].
  unfold uadd, umul. rewrite (wrap_small (nrows v * i)) by nia.
  rewrite wrap_small by lia. reflexivity.
Qed.

Lemma square_index_injective (v : AdjacencyMatrixVessel) (i j i' j' : Z) :
  symmetric v = false -> nrows v = ncols v ->
  nrows v * ncols v <= UINT_RANGE ->
  0 <= i < nrows v -> 0 <= j < ncols v ->
  0 <= i' < nrows v -> 0 <= j' < ncols v ->
  getStoreIndexFromMatrixIndices v i j = getStoreIndexFromMatrixIndices v i' j' ->
  i = i' /\ j = j'.
Proof.
  intros Hs Hsq Hr Hi Hj Hi' Hj' E.
  destruct (square_index_value v i j Hs Hsq Hr Hi Hj) as [E1 _].
  destruct (square_index_value v i' j' Hs Hsq Hr Hi' Hj') as [E2 _].
  rewrite E1, E2 in E. injection E as E. rewrite <- Hsq in *.
  destruct (Z.lt_trichotomy i i') as [Hlt | [Heq | Hgt]].
  - assert (nrows v * 1 <= nrows v * (i' - i)) by (apply Z.mul_le_mono_nonneg_l; lia).
    lia.
  - subst i'. lia.
  - assert (nrows v * 1 <= nrows v * (i - i')) by (apply Z.mul_le_mono_nonneg_l; lia).
    lia.
Qed.

Lemma square_index_surjective (v : AdjacencyMatrixVessel) (idx : Z) :
  symmetric v = false -> nrows v = ncols v -> 0 <= nrows v ->
  nrows v * ncols v <= UINT_RANGE ->
  0 <= idx < nrows v * ncols v ->
  exists i j, 0 <= i < nrows v /\ 0 <= j < ncols v
              /\ getStoreIndexFromMatrixIndices v i j = Ok idx.
Proof.
  intros Hs Hsq H0 Hr Hidx.
  assert (Hpos : 0 < nrows v) by nia.
  exists (idx / nrows v), (idx mod nrows v).
  pose proof (Z.mod_pos_bound idx (nrows v) Hpos) as Hm.
  pose proof (Z.div_mod idx (nrows v) ltac:(lia)) as Hd.
  assert (Hq : 0 <= idx / nrows v < nrows v).
  { split; [apply Z.div_pos; lia | apply Z.div_lt_upper_bound; nia]. }
  split; [exact Hq |]. split; [lia |].
  destruct (square_index_value v (idx / nrows v) (idx mod nrows v) Hs Hsq Hr Hq
              ltac:(lia)) as [E _].
  rewrite E. f_equal. lia.
Qed.

(** The exact model of the index formula agrees with binary64 arithmetic:
    on every pair of small indices, around the largest row whose triangular
    offset still fits an [unsigned], and at the largest [unsigned]. *)
Lemma exact_model_agrees_with_binary64 :
  forallb (fun i => forallb (fun j =>
             result_Z_eqb (binary64_half_product i j) (exact_half_product i j))
           (indices 40 ++ [65535; 92680; 4294967295]))
          (indices 40 ++ [65535; 65536; 92680; 92681; 92682; 92683; 4294967295])
  = true.
Proof. vm_compute. reflexivity. Qed.

(** * The storage index *)

(** C1: in directed mode the index [nrows*i + j] is computed with the number
    of rows as stride, so in a matrix that is not square it is not a
    bijection onto [0, nrows*ncols): with 2 rows and 3 columns the cells
    (0,2) and (1,0) share index 2, and with 3 rows and 2 columns the cell
    (2,1) has index 7, beyond the 6 stored values. *)
Theorem C1_directed_index_not_bijective_when_not_square :
  new_AdjacencyMatrixVessel example_store (Some example_function) 2 3 false false
    = Ok directed_2x3
  /\ getNumberOfStoredValues directed_2x3 = Ok 6
  /\ getStoreIndexFromMatrixIndices directed_2x3 0 2 = Ok 2
  /\ getStoreIndexFromMatrixIndices directed_2x3 1 0 = Ok 2
  /\ new_AdjacencyMatrixVessel example_store (Some example_function) 3 2 false false
    = Ok directed_3x2
  /\ getNumberOfStoredValues directed_3x2 = Ok 6
  /\ getStoreIndexFromMatrixIndices directed_3x2 2 1 = Ok 7.
Proof. repeat split; reflexivity. Qed.

(** A vessel accepted by the constructor in hbonds mode is square and
    stored like a directed one. *)
Lemma hbonds_vessel_is_square da action r c v :
  new_AdjacencyMatrixVessel da action r c false true = Ok v ->
  symmetric v = false /\ hbonds v = true /\ nrows v = r /\ ncols v = c /\ r = c.
Proof.
  unfold new_AdjacencyMatrixVessel. destruct action as [f |]; [| discriminate].
  simpl. destruct (Z.eqb_spec r c) as [E | E]; simpl; [| discriminate].
  intros H. injection H as <-. simpl. auto.
Qed.

(** In hbonds mode, and in any square directed matrix, the index is the
    bijection the store needs. *)
Lemma hbonds_index_bijection da action r c v :
  new_AdjacencyMatrixVessel da action r c false true = Ok v ->
  0 <= r -> r * c <= UINT_RANGE ->
  (forall i j, 0 <= i < r -> 0 <= j < c ->
     getStoreIndexFromMatrixIndices v i j = Ok (r * i + j) /\ 0 <= r * i + j < r * c)
  /\ (forall i j i' j', 0 <= i < r -> 0 <= j < c -> 0 <= i' < r -> 0 <= j' < c ->
        getStoreIndexFromMatrixIndices v i j = getStoreIndexFromMatrixIndices v i' j' ->
        i = i' /\ j = j')
  /\ (forall idx, 0 <= idx < r * c ->
        exists i j, 0 <= i < r /\ 0 <= j < c
                    /\ getStoreIndexFromMatrixIndices v i j = Ok idx).
Proof.
  intros Hv H0 Hr.
  destruct (hbonds_vessel_is_square _ _ _ _ _ Hv) as (Hs & _ & Hn & Hc & Hsq).
  assert (Hsq' : nrows v = ncols v) by congruence.
  rewrite <- Hn, <- Hc in *. clear Hn Hc Hsq.
  split; [| split].
  - intros i j Hi Hj. apply square_index_value; auto.
  - intros i j i' j' Hi Hj Hi' Hj'. apply square_index_injective; auto.
  - intros idx Hidx. apply square_index_surjective; auto.
Qed.

(** C2: in symmetric mode the storage index of a pair [i <> j] of nodes
    below [n] is [triangular i + j] if [i > j] and [triangular j + i]
    otherwise; it lies below [n(n-1)/2], two pairs with the same index are
    the same unordered pair, and every index below [n(n-1)/2] is the index
    of a pair.  For four nodes the six pairs map onto 0, 1, 2, 3, 4, 5. *)
Theorem C2_symmetric_index_bijection (v : AdjacencyMatrixVessel) (n : Z) :
  symmetric v = true ->
  0 <= n -> triangular n < UINT_RANGE ->
  (forall i j, 0 <= i < n -> 0 <= j < n -> i <> j ->
     getStoreIndexFromMatrixIndices v i j
       = Ok (if i >? j then triangular i + j else triangular j + i)
     /\ 0 <= (if i >? j then triangular i + j else triangular j + i) < triangular n)
  /\ (forall i j i' j', 0 <= i < n -> 0 <= j < n -> i <> j ->
        0 <= i' < n -> 0 <= j' < n -> i' <> j' ->
        getStoreIndexFromMatrixIndices v i j = getStoreIndexFromMatrixIndices v i' j' ->
        (i = i' /\ j = j') \/ (i = j' /\ j = i'))
  /\ (forall idx, 0 <= idx < triangular n ->
        exists i j, 0 <= j < i /\ i < n
                    /\ getStoreIndexFromMatrixIndices v i j = Ok idx)
  /\ map (fun p => getStoreIndexFromMatrixIndices v (fst p) (snd p)) pairs_of_four
     = map Ok [0; 1; 2; 3; 4; 5].
Proof.
  intros Hs Hn Hr.
  assert (Hval : forall i j, 0 <= i < n -> 0 <= j < n -> i <> j ->
     getStoreIndexFromMatrixIndices v i j
       = Ok (if i >? j then triangular i + j else triangular j + i)
     /\ 0 <= (if i >? j then triangular i + j else triangular j + i) < triangular n).
  { intros i j Hi Hj Hne.
    assert (Hlt : triangular (Z.max i j) + Z.min i j < triangular n).
    { apply triangular_pair_lt; lia. }
    pose proof (triangular_nonneg (Z.max i j) ltac:(lia)) as Hnn.
    rewrite (symmetric_index_value v i j Hs) by lia.
    destruct (Z.gtb_spec i j) as [Hgt | Hle].
    - rewrite Z.max_l, Z.min_r in * by lia. split; [reflexivity | lia].
    - rewrite Z.max_r, Z.min_l in * by lia. split; [reflexivity | lia]. }
  split; [exact Hval |]. split; [| split].
  - intros i j i' j' Hi Hj Hne Hi' Hj' Hne' E.
    destruct (Hval i j Hi Hj Hne) as [E1 _].
    destruct (Hval i' j' Hi' Hj' Hne') as [E2 _].
    rewrite E1, E2 in E. injection E as E.
    destruct (Z.gtb_spec i j), (Z.gtb_spec i' j').
    + left. apply triangular_pair_inj; [lia | lia | exact E].
    + right. destruct (triangular_pair_inj i j j' i') as [? ?]; [lia | lia | exact E |].
      split; assumption.
    + right. destruct (triangular_pair_inj j i i' j') as [? ?]; [lia | lia | exact E |].
      split; congruence.
    + left. destruct (triangular_pair_inj j i j' i') as [? ?]; [lia | lia | exact E |].
      split; congruence.
  - intros idx Hidx.
    destruct (triangular_pair_surj n Hn idx Hidx) as (i & j & Hj & Hi & E).
    exists i, j. split; [exact Hj |]. split; [exact Hi |].
    destruct (Hval i j ltac:(lia) ltac:(lia) ltac:(lia)) as [E1 _].
    rewrite E1. destruct (Z.gtb_spec i j); [| lia]. congruence.
  - unfold pairs_of_four. simpl map.
    rewrite !(symmetric_index_value v) by (try exact Hs; vm_compute; congruence).
    reflexivity.
Qed.

Lemma C2_symmetric_index_bijection_witness :
  map (fun p => getStoreIndexFromMatrixIndices example_vessel (fst p) (snd p)) pairs_of_four
  = map Ok [0; 1; 2; 3; 4; 5].
Proof.
  apply (C2_symmetric_index_bijection example_vessel 4);
    [reflexivity | lia | reflexivity].
Defined.

(** C3: in symmetric mode the pairs (i,j) and (j,i) have the same storage
    index; in directed and hbonds mode, whenever (i,j) and (j,i) are both
    cells of the matrix and [i <> j], their indices differ. *)
Theorem C3_index_symmetry (v : AdjacencyMatrixVessel) (i j : Z) :
  i <> j ->
  (symmetric v = true ->
     getStoreIndexFromMatrixIndices v i j = getStoreIndexFromMatrixIndices v j i)
  /\ (symmetric v = false ->
      nrows v * ncols v <= UINT_RANGE ->
      0 <= i < nrows v -> 0 <= j < ncols v ->
      0 <= j < nrows v -> 0 <= i < ncols v ->
      getStoreIndexFromMatrixIndices v i j <> getStoreIndexFromMatrixIndices v j i).
Proof.
  intros Hne. split.
  - intros Hs. unfold getStoreIndexFromMatrixIndices. rewrite Hs. simpl.
    destruct (Z.gtb_spec i j), (Z.gtb_spec j i); try reflexivity; lia.
  - intros Hs Hr Hi Hj Hj' Hi'.
    unfold getStoreIndexFromMatrixIndices. rewrite Hs. simpl.
    assert (Hb : forall a b, 0 <= a < ncols v -> 0 <= b < nrows v ->
                 0 <= nrows v * a + b < UINT_RANGE).
    { intros a b Ha Hb.
      assert (nrows v * a <= nrows v * (ncols v - 1))
        by (apply Z.mul_le_mono_nonneg_l; lia).
      assert (0 <= nrows v * a) by (apply Z.mul_nonneg_nonneg; lia).
      lia. }
    assert (Hw : forall a b, 0 <= a < ncols v -> 0 <= b < nrows v ->
                 uadd (umul (nrows v) a) b = nrows v * a + b).
    { intros a b Ha Hb'. pose proof (Hb a b Ha Hb') as Hab.
      assert (0 <= nrows v * a) by (apply Z.mul_nonneg_nonneg; lia).
      unfold uadd, umul. rewrite (wrap_small (nrows v * a)) by lia.
      apply wrap_small. exact Hab. }
    rewrite (Hw i j) by lia. rewrite (Hw j i) by lia.
    intros E. injection E as E.
    assert (E' : (nrows v - 1) * (i - j) = 0) by lia.
    apply Z.mul_eq_0 in E'. lia.
Qed.

Lemma C3_index_symmetry_witness :
  getStoreIndexFromMatrixIndices example_vessel 1 3
    = getStoreIndexFromMatrixIndices example_vessel 3 1
  /\ getStoreIndexFromMatrixIndices example_directed 1 3
    <> getStoreIndexFromMatrixIndices example_directed 3 1.
Proof.
  destruct (C3_index_symmetry example_vessel 1 3 ltac:(lia)) as [Hsym _].
  destruct (C3_index_symmetry example_directed 1 3 ltac:(lia)) as [_ Hdir].
  split.
  - apply Hsym. reflexivity.
  - apply Hdir; [reflexivity | vm_compute; congruence | simpl; lia ..].
Defined.

(** * The number of stored values *)

(** C4: for dimensions and a node count that are [unsigned] values,
    [getNumberOfStoredValues] returns [nrows*ncols] in directed and hbonds
    mode and [n(n-1)/2] in symmetric mode, [n] the number of nodes, as long
    as that number fits an [unsigned]. *)
Theorem C4_number_of_stored_values (v : AdjacencyMatrixVessel) (n : Z) :
  is_unsigned (nrows v) -> is_unsigned (ncols v) ->
  getNumberOfNodes (function v) = n -> is_unsigned n ->
  (symmetric v = false -> nrows v * ncols v < UINT_RANGE ->
     getNumberOfStoredValues v = Ok (nrows v * ncols v))
  /\ (symmetric v = true -> 2 <= n -> n * (n - 1) / 2 < UINT_RANGE ->
      getNumberOfStoredValues v = Ok (n * (n - 1) / 2)).
Proof.
  intros Hr Hc En Hn. unfold getNumberOfStoredValues. rewrite En. split.
  - intros Hs Hlt. rewrite Hs. unfold umul. rewrite wrap_small; [reflexivity |].
    unfold is_unsigned in *. split; [apply Z.mul_nonneg_nonneg; lia | exact Hlt].
  - intros Hs Hn2 Hlt. rewrite Hs.
    change (n * (n - 1) / 2) with (triangular n) in *.
    apply double_to_unsigned_exact.
    + pose proof (half_product_value n 0 Hn) as E.
      unfold unsigned_to_double in *. rewrite Z.add_0_r in E.
      rewrite <- E. change (inject_Z 0) with 0%Q. ring.
    + split; [apply triangular_nonneg; lia | exact Hlt].
Qed.

Lemma C4_number_of_stored_values_witness :
  getNumberOfStoredValues example_directed = Ok 16
  /\ getNumberOfStoredValues example_vessel = Ok 6.
Proof.
  assert (Hu : is_unsigned 4) by (unfold is_unsigned, UINT_RANGE; lia).
  destruct (C4_number_of_stored_values example_directed 4 Hu Hu eq_refl Hu) as [Hdir _].
  destruct (C4_number_of_stored_values example_vessel 4 Hu Hu eq_refl Hu) as [_ Hsym].
  split.
  - apply Hdir; [reflexivity | reflexivity].
  - apply Hsym; [reflexivity | lia | reflexivity].
Defined.

(** * [getStoreIndex] *)

(** C10: whatever the mode and the task, [getStoreIndex] returns the store
    index of the matrix indices decoded from the task: its body is that
    [return] followed by two statements, and nothing that follows the
    first [return] is ever run, whatever it is. *)
Theorem C10_getStoreIndex_first_return (v : AdjacencyMatrixVessel) (myelem : Z) :
  getStoreIndex v myelem = store_index_of_task v myelem
  /\ (forall ielem jelem,
        exists dead,
          getStoreIndex_body v ielem jelem
          = SReturn (getStoreIndexFromMatrixIndices v ielem jelem) :: dead
          /\ length dead = 2%nat)
  /\ (forall ielem jelem dead,
        exec_block (SReturn (getStoreIndexFromMatrixIndices v ielem jelem) :: dead)
        = getStoreIndexFromMatrixIndices v ielem jelem).
Proof.
  split; [| split].
  - unfold getStoreIndex, store_index_of_task.
    destruct (getMatrixIndices v myelem) as [[i j] | e]; reflexivity.
  - intros i j. eexists. split; reflexivity.
  - intros i j dead. reflexivity.
Qed.

(** The formula written after the [return] for symmetric mode is not the
    store index: for the pair (1,3) it gives 3, the index of (3,0), where
    [getStoreIndex] gives 4. *)
Lemma getStoreIndex_dead_formula_differs :
  getStoreIndex example_vessel 4 = Ok 4
  /\ nth 1 (getStoreIndex_body example_vessel 1 3) (SReturn (Fail Undefined))
     = SIfReturn true (Ok 3).
Proof. split; reflexivity. Qed.

(** * Containers *)

Section Vectors.
Context {T : Type}.
Implicit Types (l : list T) (i j : Z) (x : T).

Lemma vec_set_ok l i x :
  0 <= i < Z.of_nat (length l) ->
  vec_set l i x = Ok (<[Z.to_nat i := x]> l).
Proof.
  intros [H0 H1]. unfold vec_set.
  destruct (Z.leb_spec 0 i); [| lia].
  destruct (Z.ltb_spec i (Z.of_nat (length l))); [reflexivity | lia].
Qed.

Lemma vec_set_inv l i x l' :
  vec_set l i x = Ok l' ->
  0 <= i < Z.of_nat (length l) /\ l' = <[Z.to_nat i := x]> l.
Proof.
  unfold vec_set.
  destruct (Z.leb_spec 0 i); [| discriminate].
  destruct (Z.ltb_spec i (Z.of_nat (length l))); [| discriminate].
  simpl. intros E. injection E as <-. split; [lia | reflexivity].
Qed.

Lemma vec_get_ok l i :
  0 <= i < Z.of_nat (length l) -> exists x, vec_get l i = Ok x.
Proof.
  intros [H0 H1]. unfold vec_get.
  destruct (Z.leb_spec 0 i); [| lia].
  destruct (lookup_lt_is_Some_2 l (Z.to_nat i)) as [x E]; [lia |].
  exists x. rewrite E. reflexivity.
Qed.

Lemma vec_get_inv l i x :
  vec_get l i = Ok x -> 0 <= i < Z.of_nat (length l) /\ l !! Z.to_nat i = Some x.
Proof.
  unfold vec_get. destruct (Z.leb_spec 0 i); [| discriminate].
  destruct (l !! Z.to_nat i) as [y |] eqn:E; [| discriminate].
  intros H'. injection H' as <-.
  apply lookup_lt_Some in E as Hlt. split; [lia | reflexivity].
Qed.

Lemma vec_get_lookup l i x :
  0 <= i -> l !! Z.to_nat i = Some x -> vec_get l i = Ok x.
Proof.
  intros H0 E. unfold vec_get.
  destruct (Z.leb_spec 0 i); [| lia]. rewrite E. reflexivity.
Qed.

Lemma vec_get_insert_eq l i x :
  0 <= i < Z.of_nat (length l) -> vec_get (<[Z.to_nat i := x]> l) i = Ok x.
Proof.
  intros H. apply vec_get_lookup; [lia |].
  apply list_lookup_insert_eq. lia.
Qed.

Lemma vec_get_insert_ne l i j x :
  0 <= i -> i <> j -> vec_get (<[Z.to_nat i := x]> l) j = vec_get l j.
Proof.
  intros H0 Hne. unfold vec_get.
  destruct (Z.leb_spec 0 j); [| reflexivity].
  rewrite list_lookup_insert_ne by lia. reflexivity.
Qed.
End Vectors.

Section Matrices.
Context {T : Type}.
Implicit Types (m : Matrix T) (i j a b : Z) (x : T).

Lemma in_matrix_spec m i j :
  in_matrix m i j = true <-> 0 <= i < rw m /\ 0 <= j < cl m.
Proof.
  unfold in_matrix. rewrite !andb_true_iff, !Z.leb_le, !Z.ltb_lt. lia.
Qed.

Lemma in_matrix_same_shape m m' i j :
  same_shape m m' -> in_matrix m' i j = in_matrix m i j.
Proof. intros [Hr Hc]. unfold in_matrix. rewrite Hr, Hc. reflexivity. Qed.

Lemma cell_offset_bound m i j :
  mat_wf m -> 0 <= i < rw m -> 0 <= j < cl m ->
  0 <= j + i * cl m < Z.of_nat (length (data m)).
Proof.
  intros (Hr & Hc & Hl) Hi Hj. rewrite Hl.
  assert (i * cl m <= (rw m - 1) * cl m) by (apply Z.mul_le_mono_nonneg_r; lia).
  assert (0 <= i * cl m) by (apply Z.mul_nonneg_nonneg; lia).
  lia.
Qed.

Lemma cell_offset_inj m i j a b :
  0 <= j < cl m -> 0 <= b < cl m ->
  j + i * cl m = b + a * cl m -> i = a /\ j = b.
Proof.
  intros Hj Hb E.
  destruct (Z.lt_trichotomy i a) as [Hlt | [Heq | Hgt]].
  - assert (1 * cl m <= (a - i) * cl m) by (apply Z.mul_le_mono_nonneg_r; lia). lia.
  - subst a. lia.
  - assert (1 * cl m <= (i - a) * cl m) by (apply Z.mul_le_mono_nonneg_r; lia). lia.
Qed.

(** Writing a cell of a well-formed matrix succeeds, the cell then holds
    the value written, and every other cell is as before. *)
Lemma mat_set_ok m i j x :
  mat_wf m -> in_matrix m i j = true ->
  exists m', mat_set m i j x = Ok m'
             /\ mat_wf m' /\ same_shape m m'
             /\ mat_get m' i j = Ok x
             /\ (forall a b, (a, b) <> (i, j) -> mat_get m' a b = mat_get m a b).
Proof.
  intros Hwf Hin. pose proof Hin as Hin'. apply in_matrix_spec in Hin' as [Hi Hj].
  pose proof (cell_offset_bound m i j Hwf Hi Hj) as Hb.
  unfold mat_set. rewrite (vec_set_ok _ _ _ Hb). simpl.
  eexists. split; [reflexivity |].
  assert (Hs : same_shape m {| rw := rw m; cl := cl m;
                               data := <[Z.to_nat (j + i * cl m) := x]> (data m) |})
    by (split; reflexivity).
  split; [| split; [exact Hs | split]].
  - destruct Hwf as (? & ? & Hl). unfold mat_wf. simpl.
    rewrite length_insert. auto.
  - unfold mat_get. rewrite (in_matrix_same_shape _ _ _ _ Hs), Hin. simpl.
    apply vec_get_insert_eq. exact Hb.
  - intros a b Hne. unfold mat_get. rewrite (in_matrix_same_shape _ _ _ _ Hs). simpl.
    destruct (in_matrix m a b) eqn:Hab; [| reflexivity].
    apply in_matrix_spec in Hab as [Ha Hb'].
    apply vec_get_insert_ne; [lia |].
    intros E. apply cell_offset_inj in E as [-> ->]; [| lia | lia].
    apply Hne. reflexivity.
Qed.

Lemma mat_get_ok m i j :
  mat_wf m -> in_matrix m i j = true -> exists x, mat_get m i j = Ok x.
Proof.
  intros Hwf Hin. pose proof Hin as Hin'. apply in_matrix_spec in Hin' as [Hi Hj].
  unfold mat_get. rewrite Hin. apply vec_get_ok.
  apply cell_offset_bound; assumption.
Qed.

Lemma mat_get_in_matrix m i j x : mat_get m i j = Ok x -> in_matrix m i j = true.
Proof. unfold mat_get. destruct (in_matrix m i j); [reflexivity | discriminate]. Qed.
End Matrices.

(** * Loops over the store *)

Lemma In_indices (n i : Z) : In i (indices n) <-> 0 <= i < n.
Proof.
  unfold indices. rewrite in_map_iff. split.
  - intros (k & <- & Hk). apply in_seq in Hk. lia.
  - intros H. exists (Z.to_nat i). split; [lia |]. apply in_seq. lia.
Qed.

(** The indices are visited in ascending order: those below [i], then [i],
    then larger ones. *)
Lemma indices_split (n i : Z) :
  0 <= i < n ->
  exists later, indices n = indices i ++ i :: later
                /\ forall i', In i' later -> i < i' < n.
Proof.
  intros H. unfold indices.
  exists (map Z.of_nat (seq (S (Z.to_nat i)) (Z.to_nat n - S (Z.to_nat i)))).
  split.
  - replace (Z.to_nat n) with (Z.to_nat i + S (Z.to_nat n - S (Z.to_nat i)))%nat at 1 by lia.
    rewrite seq_app, map_app. simpl. f_equal. f_equal. lia.
  - intros i' Hin. apply in_map_iff in Hin as (k & <- & Hk). apply in_seq in Hk. lia.
Qed.


(** * The dense-matrix view *)

Lemma last_writer_None (v : AdjacencyMatrixVessel) (l : list Z) (a b : Z) :
  (forall i, In i l -> writes_cell v i a b = false) -> last_writer v l a b = None.
Proof.
  induction l as [| i l IH]; intros H; simpl; [reflexivity |].
  rewrite IH by (intros i' Hi'; apply H; right; exact Hi').
  rewrite (H i) by (left; reflexivity). reflexivity.
Qed.

Lemma last_writer_app (v : AdjacencyMatrixVessel) (l1 l2 : list Z) (a b : Z) :
  last_writer v (l1 ++ l2) a b
  = match last_writer v l2 a b with
    | Some i => Some i
    | None => last_writer v l1 a b
    end.
Proof.
  induction l1 as [| i l1 IH]; simpl.
  - destruct (last_writer v l2 a b); reflexivity.
  - rewrite IH. destruct (last_writer v l2 a b); reflexivity.
Qed.

Lemma last_writer_Some (v : AdjacencyMatrixVessel) (n i a b : Z) :
  0 <= i < n -> writes_cell v i a b = true ->
  (forall i', i < i' < n -> writes_cell v i' a b = false) ->
  last_writer v (indices n) a b = Some i.
Proof.
  intros Hi Hw Hlater.
  destruct (indices_split n i Hi) as (later & -> & Hl).
  rewrite last_writer_app. simpl.
  rewrite last_writer_None by (intros i' Hi'; apply Hlater, Hl, Hi').
  rewrite Hw. reflexivity.
Qed.

Section DenseMatrix.
Context {DL : Type} `{DynamicListOps DL}.
Variable v : AdjacencyMatrixVessel.

Lemma slots_in_matrix_same_shape (l : list Z) (m m' : Matrix float) :
  same_shape m m' -> slots_in_matrix v l m -> slots_in_matrix v l m'.
Proof.
  intros Hs Hl i Hi Ha. destruct (Hl i Hi Ha) as (k & j & E & Hkj & Hjk).
  exists k, j. rewrite !(in_matrix_same_shape _ _ _ _ Hs). auto.
Qed.

Lemma retrieveMatrix_body_ok (i : Z) (dl : DL) (m : Matrix float) :
  mat_wf m -> slots_in_matrix v [i] m ->
  exists dl' m', retrieveMatrix_body v (dl, m) i = Ok (dl', m')
    /\ mat_wf m' /\ same_shape m m'
    /\ forall a b, mat_get m' a b
                   = if writes_cell v i a b then Ok (normalized_value v i)
                     else mat_get m a b.
Proof.
  intros Hwf Hin. unfold retrieveMatrix_body, writes_cell.
  destruct (storedValueIsActive (base v) i) eqn:Ha; simpl.
  2:{ exists dl, m. split; [reflexivity |]. split; [exact Hwf |].
      split; [split; reflexivity | reflexivity]. }
  destruct (Hin i ltac:(left; reflexivity) Ha) as (k & j & E & Hkj & Hjk).
  rewrite E. simpl.
  fold (normalized_value v i). set (x := normalized_value v i).
  destruct (symmetric v) eqn:Hs; simpl.
  - destruct (mat_set_ok m j k x Hwf (Hjk eq_refl)) as (m1 & E1 & Hwf1 & Hs1 & G1 & O1).
    rewrite E1. simpl.
    assert (Hkj1 : in_matrix m1 k j = true)
      by (rewrite (in_matrix_same_shape _ _ _ _ Hs1); exact Hkj).
    destruct (mat_set_ok m1 k j x Hwf1 Hkj1) as (m2 & E2 & Hwf2 & Hs2 & G2 & O2).
    rewrite E2. simpl. exists (activate dl i), m2.
    split; [reflexivity |]. split; [exact Hwf2 |].
    split; [destruct Hs1, Hs2; split; congruence |].
    intros a b.
    destruct (Z.eqb_spec k a) as [Hka | Hka], (Z.eqb_spec j b) as [Hjb | Hjb],
             (Z.eqb_spec j a) as [Hja | Hja], (Z.eqb_spec k b) as [Hkb | Hkb]; simpl;
      first [ exfalso; congruence
            | subst a b; exact G2
            | rewrite O2 by congruence;
              first [ subst a b; exact G1 | apply O1; congruence ] ].
  - destruct (mat_set_ok m k j x Hwf Hkj) as (m1 & E1 & Hwf1 & Hs1 & G1 & O1).
    rewrite E1. simpl. exists (activate dl i), m1.
    split; [reflexivity |]. split; [exact Hwf1 |]. split; [exact Hs1 |].
    intros a b. rewrite orb_false_r.
    destruct (Z.eqb_spec k a) as [Hka | Hka], (Z.eqb_spec j b) as [Hjb | Hjb]; simpl;
      first [ subst a b; exact G1 | apply O1; congruence ].
Qed.

(** After the loop over [l] a cell holds the normalised value of the last
    slot that addresses it, or what it held before. *)
Lemma retrieveMatrix_loop (l : list Z) :
  forall (dl : DL) (m : Matrix float),
  mat_wf m -> slots_in_matrix v l m ->
  exists dl' m', for_each (retrieveMatrix_body v) l (dl, m) = Ok (dl', m')
    /\ mat_wf m' /\ same_shape m m'
    /\ forall a b, mat_get m' a b
                   = match last_writer v l a b with
                     | Some i => Ok (normalized_value v i)
                     | None => mat_get m a b
                     end.
Proof.
  induction l as [| i l IH]; intros dl m Hwf Hin.
  - exists dl, m. split; [reflexivity |]. split; [exact Hwf |].
    split; [split; reflexivity | reflexivity].
  - assert (Hi : slots_in_matrix v [i] m).
    { intros i' [<- | []] Ha. apply Hin; [left; reflexivity | exact Ha]. }
    destruct (retrieveMatrix_body_ok i dl m Hwf Hi) as (dl1 & m1 & E1 & Hwf1 & Hs1 & G1).
    assert (Hl : slots_in_matrix v l m1).
    { apply (slots_in_matrix_same_shape l m m1 Hs1).
      intros i' Hi' Ha. apply Hin; [right; exact Hi' | exact Ha]. }
    destruct (IH dl1 m1 Hwf1 Hl) as (dl2 & m2 & E2 & Hwf2 & Hs2 & G2).
    exists dl2, m2. cbn [for_each]. rewrite E1. cbn [bind].
    split; [exact E2 |]. split; [exact Hwf2 |].
    split; [destruct Hs1, Hs2; split; congruence |].
    intros a b. rewrite G2. cbn [last_writer].
    destruct (last_writer v l a b); [reflexivity |].
    rewrite G1. destruct (writes_cell v i a b); reflexivity.
Qed.

End DenseMatrix.

(** C5: the dense-matrix view succeeds when every active slot decodes to a
    cell of the matrix; each active slot's cell then holds its normalised
    value V/W (unless a later active slot addresses the same cell), in
    symmetric mode the mirror cell holds it too, and a cell no active slot
    addresses is as it was handed in, so zero if it was zero.  For the
    store of four nodes with active pairs (0,1) and (2,3) and a zeroed
    matrix, the cells (0,1) and (1,0) hold 0.5, the cells (2,3) and (3,2)
    hold 0.8, and every other cell is zero. *)
Theorem C5_dense_matrix_view :
  (forall (DL : Type) (ops : DynamicListOps DL) (v : AdjacencyMatrixVessel)
          (dl : DL) (m : Matrix float) (n : Z),
     mat_wf m ->
     getNumberOfStoredValues v = Ok n ->
     slots_in_matrix v (indices n) m ->
     exists dl' m',
       retrieveMatrix v dl m = Ok (dl', m') /\ same_shape m m'
       /\ (forall i k j,
             0 <= i < n -> storedValueIsActive (base v) i = true ->
             getMatrixIndices v i = Ok (k, j) ->
             ((forall i', i < i' < n -> writes_cell v i' k j = false) ->
              mat_get m' k j = Ok (normalized_value v i))
             /\ (symmetric v = true ->
                 (forall i', i < i' < n -> writes_cell v i' j k = false) ->
                 mat_get m' j k = Ok (normalized_value v i)))
       /\ (forall a b,
             (forall i, 0 <= i < n -> writes_cell v i a b = false) ->
             mat_get m' a b = mat_get m a b
             /\ (mat_get m a b = Ok 0%float -> mat_get m' a b = Ok 0%float)))
  /\ (exists dl' m',
        retrieveMatrix example_vessel ([] : list Z) (zero_matrix 4 4) = Ok (dl', m')
        /\ mat_get m' 0 1 = Ok 0.5%float /\ mat_get m' 1 0 = Ok 0.5%float
        /\ mat_get m' 2 3 = Ok double_0_8 /\ mat_get m' 3 2 = Ok double_0_8
        /\ (forall a b, in_matrix m' a b = true ->
              ~ In (a, b) [(0, 1); (1, 0); (2, 3); (3, 2)] ->
              mat_get m' a b = Ok 0%float)).
Proof.
  split.
  - intros DL ops v dl m n Hwf Hn Hin.
    destruct (retrieveMatrix_loop v (indices n) (deactivateAll dl) m Hwf Hin)
      as (dl1 & m1 & E & _ & Hs & G).
    exists (updateActiveMembers dl1), m1.
    split; [unfold retrieveMatrix; rewrite Hn; cbn [bind]; rewrite E; reflexivity |].
    split; [exact Hs |]. split.
    + intros i k j Hi Ha Hd.
      assert (Hw : forall a b, writes_cell v i a b
                   = ((k =? a) && (j =? b)) || (symmetric v && (j =? a) && (k =? b))).
      { intros a b. unfold writes_cell. rewrite Ha, Hd. reflexivity. }
      split.
      * intros Hlater. rewrite G, (last_writer_Some v n i k j Hi); [reflexivity | | exact Hlater].
        rewrite Hw, !Z.eqb_refl. reflexivity.
      * intros Hs' Hlater.
        rewrite G, (last_writer_Some v n i j k Hi); [reflexivity | | exact Hlater].
        rewrite Hw, Hs', !Z.eqb_refl. apply orb_true_r.
    + intros a b Hnone.
      assert (E' : mat_get m1 a b = mat_get m a b).
      { rewrite G, last_writer_None; [reflexivity |].
        intros i Hi. apply Hnone, In_indices, Hi. }
      split; [exact E' | intros Hz; rewrite E'; exact Hz].
  - eexists _, _. split; [vm_compute; reflexivity |].
    repeat (split; [vm_compute; reflexivity |]).
    intros a b Hin Hne. apply in_matrix_spec in Hin. cbn [rw cl] in Hin.
    assert (Ha : a = 0 \/ a = 1 \/ a = 2 \/ a = 3) by lia.
    assert (Hb : b = 0 \/ b = 1 \/ b = 2 \/ b = 3) by lia.
    destruct Ha as [-> | [-> | [-> | ->]]], Hb as [-> | [-> | [-> | ->]]];
      try (vm_compute; reflexivity); exfalso; apply Hne; simpl; tauto.
Qed.

Lemma example_slots_in_matrix :
  slots_in_matrix example_vessel (indices 6) (zero_matrix 4 4).
Proof.
  intros i Hi Ha. apply In_indices in Hi.
  assert (Hc : i = 0 \/ i = 1 \/ i = 2 \/ i = 3 \/ i = 4 \/ i = 5) by lia.
  destruct Hc as [-> | [-> | [-> | [-> | [-> | ->]]]]]; try discriminate Ha.
  - exists 0, 1. repeat split; reflexivity.
  - exists 2, 3. repeat split; reflexivity.
Qed.

Lemma zero_matrix_wf (r c : Z) : 0 <= r -> 0 <= c -> mat_wf (zero_matrix r c).
Proof.
  intros Hr Hc. unfold mat_wf, zero_matrix. simpl.
  rewrite length_replicate. split; [exact Hr |]. split; [exact Hc |].
  apply Z2Nat.id. apply Z.mul_nonneg_nonneg; assumption.
Qed.

Lemma C5_dense_matrix_view_witness :
  exists dl' m',
    retrieveMatrix example_vessel ([] : list Z) (zero_matrix 4 4) = Ok (dl', m')
    /\ mat_get m' 0 1 = Ok (normalized_value example_vessel 0)
    /\ mat_get m' 1 0 = Ok (normalized_value example_vessel 0)
    /\ mat_get m' 0 2 = Ok 0%float.
Proof.
  destruct (proj1 C5_dense_matrix_view (list Z) list_DynamicListOps example_vessel
              [] (zero_matrix 4 4) 6
              (zero_matrix_wf 4 4 ltac:(lia) ltac:(lia)) eq_refl example_slots_in_matrix)
    as (dl' & m' & E & _ & Hact & Hrest).
  exists dl', m'. split; [exact E |].
  assert (Hlater : forall a b, (a, b) = (0, 1) \/ (a, b) = (1, 0) ->
            forall i', 0 < i' < 6 -> writes_cell example_vessel i' a b = false).
  { intros a b Hab i' Hi'.
    assert (Hc : i' = 1 \/ i' = 2 \/ i' = 3 \/ i' = 4 \/ i' = 5) by lia.
    destruct Hab as [Hab | Hab]; injection Hab as -> ->;
      destruct Hc as [-> | [-> | [-> | [-> | ->]]]]; reflexivity. }
  destruct (Hact 0 0 1 ltac:(lia) eq_refl eq_refl) as [Hd Hm].
  split; [apply Hd, Hlater; left; reflexivity |].
  split; [apply Hm; [reflexivity | apply Hlater; right; reflexivity] |].
  apply (Hrest 0 2); [| reflexivity].
  intros i Hi.
  assert (Hc : i = 0 \/ i = 1 \/ i = 2 \/ i = 3 \/ i = 4 \/ i = 5) by lia.
  destruct Hc as [-> | [-> | [-> | [-> | [-> | ->]]]]]; reflexivity.
Defined.

(** C5, where the claim goes too far: the view does not leave zero in the
    cells it does not write, it leaves them alone.  Run on a matrix filled
    with 7, it writes the cells of the two active pairs, and the cell
    (0,2), which no active slot addresses, still holds 7. *)
Lemma C5_other_cells_are_not_cleared :
  exists dl' m',
    retrieveMatrix example_vessel ([] : list Z) seven_matrix = Ok (dl', m')
    /\ mat_get m' 0 1 = Ok 0.5%float /\ mat_get m' 1 0 = Ok 0.5%float
    /\ mat_get m' 2 3 = Ok double_0_8 /\ mat_get m' 3 2 = Ok double_0_8
    /\ mat_get m' 0 2 = Ok 7%float
    /\ mat_get m' 0 2 <> Ok 0%float.
Proof.
  eexists _, _. split; [vm_compute; reflexivity |].
  repeat (split; [vm_compute; reflexivity |]).
  intros E.
  match type of E with
  | ?cell = _ =>
      assert (Hb : match cell with Ok x => PrimFloat.eqb x 0 | Fail _ => false end = true)
        by (rewrite E; reflexivity)
  end.
  vm_compute in Hb. discriminate Hb.
Qed.

(** * The adjacency-list view *)

Lemma zero_neighbours_shift (k a : nat) (x : Z) (l : list Z) :
  fold_left (fun l i => <[i := 0]> l) (seq (S a) k) (x :: l)
  = x :: fold_left (fun l i => <[i := 0]> l) (seq a k) l.
Proof.
  revert a l. induction k as [| k IH]; intros a l; simpl; [reflexivity |].
  apply IH.
Qed.

(** The first loop sets every count to zero, whatever it was. *)
Lemma zero_neighbours_replicate (nneigh : list Z) :
  zero_neighbours nneigh = replicate (length nneigh) 0.
Proof.
  unfold zero_neighbours. induction nneigh as [| x l IH]; [reflexivity |].
  cbn [length seq fold_left]. change (<[0%nat := 0]> (x :: l)) with (0 :: l).
  rewrite zero_neighbours_shift, IH. reflexivity.
Qed.

Lemma neighbours_of_app (prs1 prs2 : list (Z * Z)) (x : Z) :
  neighbours_of (prs1 ++ prs2) x = neighbours_of prs1 x ++ neighbours_of prs2 x.
Proof.
  induction prs1 as [| [k j] prs1 IH]; simpl; [reflexivity |].
  rewrite IH, !app_assoc. reflexivity.
Qed.

Lemma active_pairs_cons (v : AdjacencyMatrixVessel) (i : Z) (l : list Z) :
  active_pairs v (i :: l)
  = if storedValueIsActive (base v) i then decoded v i :: active_pairs v l
    else active_pairs v l.
Proof.
  unfold active_pairs, active_slots. simpl.
  destruct (storedValueIsActive (base v) i); reflexivity.
Qed.

Lemma rows_hold_ext (N : Z) (f g : Z -> list Z) (nn : list Z) (adj : Matrix Z) :
  (forall x, f x = g x) -> rows_hold N f nn adj -> rows_hold N g nn adj.
Proof.
  intros E (Hl & Hwf & Hr). split; [exact Hl |]. split; [exact Hwf |].
  intros x Hx. rewrite <- E. apply Hr, Hx.
Qed.

(** Appending [b] to the row of [a], when the row has room. *)
Lemma push_neighbour_ok (N : Z) (f : Z -> list Z) (nn : list Z) (adj : Matrix Z) (a b : Z) :
  rows_hold N f nn adj ->
  0 <= a < N -> N <= rw adj ->
  Z.of_nat (length (f a)) < cl adj -> cl adj < UINT_RANGE ->
  exists nn' adj',
    push_neighbour (nn, adj) a b = Ok (nn', adj')
    /\ same_shape adj adj'
    /\ rows_hold N (fun x => if x =? a then f x ++ [b] else f x) nn' adj'.
Proof.
  intros (Hl & Hwf & Hr) Ha HN Hroom Hcl.
  destruct (Hr a Ha) as [Hcount _].
  set (n := Z.of_nat (length (f a))) in *.
  assert (Hin : in_matrix adj a n = true) by (apply in_matrix_spec; lia).
  destruct (mat_set_ok adj a n b Hwf Hin) as (adj' & Eset & Hwf' & Hs & Gset & Oset).
  exists (<[Z.to_nat a := n + 1]> nn), adj'.
  split.
  { unfold push_neighbour. rewrite Hcount. cbn [bind]. rewrite Eset. cbn [bind].
    rewrite vec_set_ok by lia. cbn [bind].
    unfold uadd. rewrite wrap_small by lia. reflexivity. }
  split; [exact Hs |].
  split; [rewrite length_insert; exact Hl |]. split; [exact Hwf' |].
  intros x Hx. destruct (Z.eqb_spec x a) as [-> | Hne].
  - split.
    + rewrite vec_get_insert_eq by lia. f_equal.
      rewrite length_app. simpl. lia.
    + intros p y Hp. apply lookup_app_Some in Hp as [Hp | [Hge Hp]].
      * apply lookup_lt_Some in Hp as Hlt.
        rewrite Oset by (intros E; injection E as E; lia).
        apply Hr; assumption.
      * destruct (p - length (f a))%nat as [| d] eqn:Ed; [| destruct d; discriminate].
        simpl in Hp. injection Hp as <-.
        replace (Z.of_nat p) with n by lia. exact Gset.
  - destruct (Hr x Hx) as [Hc He]. split.
    + rewrite vec_get_insert_ne by lia. exact Hc.
    + intros p y Hp. rewrite Oset by congruence. apply He, Hp.
Qed.

Lemma retrieveAdjacencyLists_body_pushes (v : AdjacencyMatrixVessel)
      (nn : list Z) (adj : Matrix Z) (i k j : Z) :
  storedValueIsActive (base v) i = true ->
  getMatrixIndices v i = Ok (k, j) ->
  retrieveAdjacencyLists_body v (nn, adj) i
  = (do st <- push_neighbour (nn, adj) k j; push_neighbour st j k).
Proof.
  intros Ha Hd. unfold retrieveAdjacencyLists_body, push_neighbour.
  rewrite Ha, Hd. cbn [negb bind].
  destruct (vec_get nn k) as [nk |]; cbn [bind]; [| reflexivity].
  destruct (mat_set adj k nk j) as [adj1 |]; cbn [bind]; [| reflexivity].
  destruct (vec_set nn k (uadd nk 1)) as [nn1 |]; cbn [bind]; reflexivity.
Qed.

Lemma neighbours_of_length_app (prs1 prs2 : list (Z * Z)) (x : Z) :
  (length (neighbours_of prs1 x) <= length (neighbours_of (prs1 ++ prs2) x))%nat.
Proof. rewrite neighbours_of_app, length_app. lia. Qed.

Lemma neighbours_of_snoc (prs : list (Z * Z)) (k j x : Z) :
  neighbours_of (prs ++ [(k, j)]) x
  = (if x =? j then (if x =? k then neighbours_of prs x ++ [j] else neighbours_of prs x) ++ [k]
     else if x =? k then neighbours_of prs x ++ [j] else neighbours_of prs x).
Proof.
  rewrite neighbours_of_app. simpl. rewrite app_nil_r.
  rewrite (Z.eqb_sym k x), (Z.eqb_sym j x).
  destruct (x =? j), (x =? k); simpl; rewrite <- ?app_assoc; simpl;
    rewrite ?app_nil_r; reflexivity.
Qed.

(** One iteration on an active slot records the pair in both rows. *)
Lemma retrieveAdjacencyLists_body_ok (v : AdjacencyMatrixVessel) (N : Z)
      (prs : list (Z * Z)) (nn : list Z) (adj : Matrix Z) (i k j : Z) :
  storedValueIsActive (base v) i = true ->
  getMatrixIndices v i = Ok (k, j) ->
  rows_hold N (neighbours_of prs) nn adj ->
  0 <= k < N -> 0 <= j < N -> N <= rw adj -> cl adj < UINT_RANGE ->
  (forall x, 0 <= x < N ->
     Z.of_nat (length (neighbours_of (prs ++ [(k, j)]) x)) <= cl adj) ->
  exists nn' adj',
    retrieveAdjacencyLists_body v (nn, adj) i = Ok (nn', adj')
    /\ same_shape adj adj'
    /\ rows_hold N (neighbours_of (prs ++ [(k, j)])) nn' adj'.
Proof.
  intros Ha Hd Hrows Hk Hj HN Hcl Hcap.
  rewrite (retrieveAdjacencyLists_body_pushes v nn adj i k j Ha Hd).
  pose proof (Hcap k Hk) as Hck. pose proof (Hcap j Hj) as Hcj.
  rewrite neighbours_of_snoc in Hck, Hcj. rewrite Z.eqb_refl in Hck, Hcj.
  destruct (push_neighbour_ok N _ nn adj k j Hrows Hk HN) as (nn1 & adj1 & E1 & Hs1 & Hr1);
    [| exact Hcl |].
  { destruct (k =? j); rewrite !length_app in Hck; simpl in Hck; lia. }
  rewrite E1. cbn [bind]. destruct Hs1 as [Hrw1 Hcl1].
  destruct (push_neighbour_ok N _ nn1 adj1 j k Hr1 Hj ltac:(lia)) as (nn2 & adj2 & E2 & Hs2 & Hr2).
  { rewrite Hcl1. cbn beta. rewrite length_app in Hcj. simpl in Hcj. lia. }
  { lia. }
  exists nn2, adj2. split; [exact E2 |].
  split; [destruct Hs2; split; congruence |].
  refine (rows_hold_ext N _ _ nn2 adj2 _ Hr2).
  intros x. cbn beta. rewrite neighbours_of_snoc. reflexivity.
Qed.

(** The second loop: after the slots of [l], the rows hold the neighbours
    in the pairs recorded before and those decoded from the active slots
    of [l]. *)
Lemma retrieveAdjacencyLists_loop (v : AdjacencyMatrixVessel) (N : Z) (l : list Z) :
  forall (prs : list (Z * Z)) (nn : list Z) (adj : Matrix Z),
  rows_hold N (neighbours_of prs) nn adj ->
  slots_below v l N -> N <= rw adj -> cl adj < UINT_RANGE ->
  (forall x, 0 <= x < N ->
     Z.of_nat (length (neighbours_of (prs ++ active_pairs v l) x)) <= cl adj) ->
  exists nn' adj',
    for_each (retrieveAdjacencyLists_body v) l (nn, adj) = Ok (nn', adj')
    /\ same_shape adj adj'
    /\ rows_hold N (neighbours_of (prs ++ active_pairs v l)) nn' adj'.
Proof.
  induction l as [| i l IH]; intros prs nn adj Hrows Hdec HN Hcl Hcap.
  - exists nn, adj. split; [reflexivity |]. split; [split; reflexivity |].
    unfold active_pairs, active_slots. simpl. rewrite app_nil_r. exact Hrows.
  - assert (Hdec' : slots_below v l N).
    { intros i' Hi'. apply Hdec. right. exact Hi'. }
    rewrite active_pairs_cons in *. cbn [for_each].
    destruct (storedValueIsActive (base v) i) eqn:Ha.
    + destruct (Hdec i ltac:(left; reflexivity) Ha) as (k & j & Hd & Hk & Hj).
      assert (Ed : decoded v i = (k, j)) by (unfold decoded; rewrite Hd; reflexivity).
      rewrite Ed in *.
      assert (Eapp : prs ++ (k, j) :: active_pairs v l
                     = (prs ++ [(k, j)]) ++ active_pairs v l)
        by (rewrite <- app_assoc; reflexivity).
      rewrite Eapp in *.
      destruct (retrieveAdjacencyLists_body_ok v N prs nn adj i k j Ha Hd Hrows Hk Hj HN Hcl)
        as (nn1 & adj1 & E1 & [Hrw1 Hcl1] & Hr1).
      { intros x Hx. pose proof (Hcap x Hx).
        pose proof (neighbours_of_length_app (prs ++ [(k, j)]) (active_pairs v l) x). lia. }
      rewrite E1. cbn [bind].
      destruct (IH (prs ++ [(k, j)]) nn1 adj1 Hr1 Hdec' ltac:(lia) ltac:(lia))
        as (nn2 & adj2 & E2 & Hs2 & Hr2).
      { intros x Hx. rewrite Hcl1. apply Hcap, Hx. }
      exists nn2, adj2. split; [exact E2 |].
      split; [destruct Hs2; split; congruence | exact Hr2].
    + assert (Eb : retrieveAdjacencyLists_body v (nn, adj) i = Ok (nn, adj)).
      { unfold retrieveAdjacencyLists_body. rewrite Ha. reflexivity. }
      rewrite Eb. cbn [bind]. apply IH; assumption.
Qed.

Lemma rows_hold_zero (nneigh : list Z) (adj : Matrix Z) :
  mat_wf adj ->
  rows_hold (Z.of_nat (length nneigh)) (neighbours_of [])
            (replicate (length nneigh) 0) adj.
Proof.
  intros Hwf. split; [rewrite length_replicate; reflexivity |]. split; [exact Hwf |].
  intros x Hx. split.
  - apply vec_get_lookup; [lia |]. apply lookup_replicate_2. lia.
  - intros p y Hp. discriminate Hp.
Qed.

(** C6: the adjacency-list view starts from counts that are all zero,
    whatever the caller handed in; then every active pair (k,j), in the
    order of the slots, appends j to the row of k and k to the row of j and
    raises both counts.  So the count of a node is the number of its
    neighbours and its row lists them.  For the store of four nodes with
    active pairs (0,1) and (2,3) every node has one neighbour, its partner. *)
Theorem C6_adjacency_list_view :
  (forall (v : AdjacencyMatrixVessel) (nneigh : list Z) (adj_list : Matrix Z) (n : Z),
     undirectedGraph v = true ->
     getNumberOfStoredValues v = Ok n ->
     mat_wf adj_list ->
     Z.of_nat (length nneigh) <= rw adj_list -> cl adj_list < UINT_RANGE ->
     slots_below v (indices n) (Z.of_nat (length nneigh)) ->
     (forall x, 0 <= x < Z.of_nat (length nneigh) ->
        Z.of_nat (length (neighbours_of (active_pairs v (indices n)) x)) <= cl adj_list) ->
     exists nneigh' adj_list',
       retrieveAdjacencyLists v nneigh adj_list = Ok (nneigh', adj_list')
       /\ retrieveAdjacencyLists v (replicate (length nneigh) 0) adj_list
          = Ok (nneigh', adj_list')
       /\ length nneigh' = length nneigh /\ same_shape adj_list adj_list'
       /\ forall x, 0 <= x < Z.of_nat (length nneigh) ->
            vec_get nneigh' x
            = Ok (Z.of_nat (length (neighbours_of (active_pairs v (indices n)) x)))
            /\ forall (p : nat) (y : Z),
                 neighbours_of (active_pairs v (indices n)) x !! p = Some y ->
                 mat_get adj_list' x (Z.of_nat p) = Ok y)
  /\ (exists adj_list',
        retrieveAdjacencyLists example_vessel [5; 5; 5; 5] example_adj_list
        = Ok ([1; 1; 1; 1], adj_list')
        /\ mat_get adj_list' 0 0 = Ok 1 /\ mat_get adj_list' 1 0 = Ok 0
        /\ mat_get adj_list' 2 0 = Ok 3 /\ mat_get adj_list' 3 0 = Ok 2).
Proof.
  split.
  - intros v nneigh adj_list n Hu Hn Hwf HN Hcl Hdec Hcap.
    destruct (retrieveAdjacencyLists_loop v (Z.of_nat (length nneigh)) (indices n) []
                (replicate (length nneigh) 0) adj_list
                (rows_hold_zero nneigh adj_list Hwf) Hdec HN Hcl Hcap)
      as (nn' & adj' & E & Hs & Hlen & _ & Hrows).
    simpl in E, Hrows.
    exists nn', adj'.
    assert (Erun : forall nn0, length nn0 = length nneigh ->
              retrieveAdjacencyLists v nn0 adj_list = Ok (nn', adj')).
    { intros nn0 El. unfold retrieveAdjacencyLists, plumed_dbg_assert, plumed_assert.
      rewrite Hu, Hn. cbn [bind]. rewrite zero_neighbours_replicate, El. exact E. }
    split; [apply Erun; reflexivity |].
    split; [apply Erun, length_replicate |].
    split; [apply Nat2Z.inj, Hlen |]. split; [exact Hs |]. exact Hrows.
  - eexists. repeat split; vm_compute; reflexivity.
Qed.

Lemma example_slots_below : slots_below example_vessel (indices 6) 4.
Proof.
  intros i Hi Ha. apply In_indices in Hi.
  assert (Hc : i = 0 \/ i = 1 \/ i = 2 \/ i = 3 \/ i = 4 \/ i = 5) by lia.
  destruct Hc as [-> | [-> | [-> | [-> | [-> | ->]]]]]; try discriminate Ha.
  - exists 0, 1. repeat split; reflexivity || lia.
  - exists 2, 3. repeat split; reflexivity || lia.
Qed.

Lemma example_rows_fit (x : Z) :
  0 <= x < 4 ->
  Z.of_nat (length (neighbours_of (active_pairs example_vessel (indices 6)) x)) <= 3.
Proof.
  intros Hx. assert (Hc : x = 0 \/ x = 1 \/ x = 2 \/ x = 3) by lia.
  destruct Hc as [-> | [-> | [-> | ->]]]; vm_compute; congruence.
Qed.

Lemma example_adj_list_wf : mat_wf example_adj_list.
Proof. unfold mat_wf. simpl. lia. Qed.

Lemma C6_adjacency_list_view_witness :
  exists nneigh' adj_list',
    retrieveAdjacencyLists example_vessel [5; 5; 5; 5] example_adj_list
    = Ok (nneigh', adj_list')
    /\ vec_get nneigh' 2 = Ok 1 /\ mat_get adj_list' 2 0 = Ok 3.
Proof.
  destruct (proj1 C6_adjacency_list_view example_vessel [5; 5; 5; 5] example_adj_list 6
              eq_refl eq_refl example_adj_list_wf
              ltac:(simpl; lia) ltac:(vm_compute; reflexivity)
              example_slots_below example_rows_fit)
    as (nn' & adj' & E & _ & _ & _ & Hrows).
  exists nn', adj'. split; [exact E |].
  destruct (Hrows 2 ltac:(simpl; lia)) as [Hc He].
  split; [exact Hc |]. apply (He 0%nat 3). reflexivity.
Defined.

(** * The edge-list view *)

Lemma getNumberOfStoredValues_range (v : AdjacencyMatrixVessel) (n : Z) :
  getNumberOfStoredValues v = Ok n -> 0 <= n < UINT_RANGE.
Proof.
  unfold getNumberOfStoredValues. destruct (symmetric v).
  - apply double_to_unsigned_range.
  - intros E. injection E as <-. unfold umul, wrap.
    apply Z.mod_pos_bound. reflexivity.
Qed.

Lemma length_indices (n : Z) : 0 <= n -> Z.of_nat (length (indices n)) = n.
Proof. intros Hn. unfold indices. rewrite length_map, length_seq. lia. Qed.

Lemma length_active_slots (v : AdjacencyMatrixVessel) (l : list Z) :
  (length (active_slots v l) <= length l)%nat.
Proof. unfold active_slots. apply List.filter_length_le. Qed.

Lemma active_slots_cons (v : AdjacencyMatrixVessel) (i : Z) (l : list Z) :
  active_slots v (i :: l)
  = if storedValueIsActive (base v) i then i :: active_slots v l else active_slots v l.
Proof. reflexivity. Qed.

(** The slots are visited, and the edges written, in ascending order. *)
Lemma indices_sorted (n : Z) : StronglySorted Z.lt (indices n).
Proof.
  unfold indices. generalize 0%nat as a. generalize (Z.to_nat n) as k.
  induction k as [| k IH]; intros a; simpl; constructor.
  - apply IH.
  - apply List.Forall_forall. intros x Hx.
    apply in_map_iff in Hx as (y & <- & Hy). apply in_seq in Hy. lia.
Qed.

Lemma active_slots_sorted (v : AdjacencyMatrixVessel) (n : Z) :
  StronglySorted Z.lt (active_slots v (indices n)).
Proof.
  unfold active_slots. generalize (indices_sorted n). generalize (indices n) as l.
  induction l as [| i l IH]; intros Hs; simpl; [constructor |].
  apply StronglySorted_inv in Hs as [Hs Hi].
  destruct (storedValueIsActive (base v) i); [| apply IH, Hs].
  constructor; [apply IH, Hs |].
  apply List.Forall_forall. intros x Hx. apply List.filter_In in Hx as [Hx _].
  eapply List.Forall_forall in Hi; [exact Hi | exact Hx].
Qed.

(** The loop of the edge-list view, entered with [k] edges written. *)
Lemma retrieveEdgeList_loop (v : AdjacencyMatrixVessel) (l : list Z) :
  forall (k : nat) (edge_list : list (Z * Z)),
  slots_decode v l ->
  (k + length (active_slots v l) <= length edge_list)%nat ->
  Z.of_nat (k + length (active_slots v l)) < UINT_RANGE ->
  for_each (retrieveEdgeList_body v) l (Z.of_nat k, edge_list)
  = Ok (Z.of_nat (k + length (active_slots v l)),
        take k edge_list ++ active_pairs v l
        ++ drop (k + length (active_slots v l)) edge_list).
Proof.
  induction l as [| i l IH]; intros k el Hdec Hlen Hr.
  - simpl. rewrite Nat.add_0_r, take_drop. reflexivity.
  - assert (Hdec' : slots_decode v l).
    { intros i' Hi'. apply Hdec. right. exact Hi'. }
    rewrite active_pairs_cons. rewrite active_slots_cons in *. cbn [for_each].
    unfold retrieveEdgeList_body at 1.
    destruct (storedValueIsActive (base v) i) eqn:Ha; cbn [negb bind].
    + cbn [length] in Hlen, Hr.
      destruct (Hdec i ltac:(left; reflexivity) Ha) as (p & Hd).
      assert (Ed : decoded v i = p) by (unfold decoded; rewrite Hd; reflexivity).
      destruct (vec_get_ok el (Z.of_nat k) ltac:(lia)) as (old & Eg).
      rewrite Eg, Hd. cbn [bind]. rewrite vec_set_ok by lia. cbn [bind].
      unfold uadd. rewrite wrap_small by lia.
      replace (Z.of_nat k + 1) with (Z.of_nat (S k)) by lia.
      rewrite Nat2Z.id.
      rewrite IH; [| exact Hdec' | rewrite length_insert; lia | lia].
      cbn [length]. replace (S k + length (active_slots v l))%nat
        with (k + S (length (active_slots v l)))%nat by lia.
      f_equal. f_equal.
      rewrite (take_S_r _ k p) by (apply list_lookup_insert_eq; lia).
      rewrite take_insert_ge by lia. rewrite drop_insert_lt by lia.
      rewrite Ed, <- app_assoc. reflexivity.
    + apply IH; assumption.
Qed.

(** C7: the edge-list view writes the pair decoded from each active slot,
    one edge per active slot in ascending order of the slots, at the front
    of the edge list, and returns their number.  For the store of four
    nodes with active pairs (0,1) and (2,3) it writes these two edges and
    returns 2. *)
Theorem C7_edge_list_view :
  (forall (v : AdjacencyMatrixVessel) (nedge : Z) (edge_list : list (Z * Z)) (n : Z),
     undirectedGraph v = true ->
     getNumberOfStoredValues v = Ok n ->
     slots_decode v (indices n) ->
     (length (active_slots v (indices n)) <= length edge_list)%nat ->
     retrieveEdgeList v nedge edge_list
     = Ok (Z.of_nat (length (active_slots v (indices n))),
           map (decoded v) (active_slots v (indices n))
           ++ drop (length (active_slots v (indices n))) edge_list)
     /\ StronglySorted Z.lt (active_slots v (indices n))
     /\ (forall i, In i (active_slots v (indices n))
                   <-> 0 <= i < n /\ storedValueIsActive (base v) i = true))
  /\ retrieveEdgeList example_vessel 17 [(8, 8); (8, 8); (8, 8)]
     = Ok (2, [(0, 1); (2, 3); (8, 8)]).
Proof.
  split.
  - intros v nedge el n Hu Hn Hdec Hlen.
    pose proof (getNumberOfStoredValues_range v n Hn) as Hr.
    pose proof (length_active_slots v (indices n)) as Hle.
    pose proof (length_indices n ltac:(lia)) as Hli.
    split; [| split].
    + unfold retrieveEdgeList, plumed_dbg_assert, plumed_assert.
      rewrite Hu, Hn. cbn [bind].
      pose proof (retrieveEdgeList_loop v (indices n) 0 el Hdec
                    ltac:(simpl; lia) ltac:(simpl; lia)) as E.
      cbn [Z.of_nat Nat.add take app] in E. exact E.
    + apply active_slots_sorted.
    + intros i. unfold active_slots. rewrite List.filter_In, In_indices. reflexivity.
  - vm_compute. reflexivity.
Qed.

Lemma example_slots_decode : slots_decode example_vessel (indices 6).
Proof.
  intros i Hi Ha. destruct (example_slots_below i Hi Ha) as (k & j & E & _).
  exists (k, j). exact E.
Qed.

Lemma C7_edge_list_view_witness :
  retrieveEdgeList example_vessel 17 [(8, 8); (8, 8); (8, 8)]
  = Ok (Z.of_nat (length (active_slots example_vessel (indices 6))),
        map (decoded example_vessel) (active_slots example_vessel (indices 6))
        ++ drop (length (active_slots example_vessel (indices 6))) [(8, 8); (8, 8); (8, 8)]).
Proof.
  apply (proj1 C7_edge_list_view example_vessel 17 [(8, 8); (8, 8); (8, 8)] 6
           eq_refl eq_refl example_slots_decode).
  vm_compute. lia.
Defined.

(** * Views of a directed matrix *)

(** C8: when neither symmetric nor hbonds is set, the adjacency-list view
    and the edge-list view stop at their precondition, whatever the store
    holds and whatever they are handed, and return no data. *)
Theorem C8_views_need_undirected_graph (v : AdjacencyMatrixVessel)
        (nneigh : list Z) (adj_list : Matrix Z)
        (nedge : Z) (edge_list : list (Z * Z)) :
  symmetric v = false -> hbonds v = false ->
  undirectedGraph v = false
  /\ retrieveAdjacencyLists v nneigh adj_list = Fail AssertionFailed
  /\ retrieveEdgeList v nedge edge_list = Fail AssertionFailed.
Proof.
  intros Hs Hh.
  assert (Hu : undirectedGraph v = false) by (unfold undirectedGraph; rewrite Hs, Hh; reflexivity).
  split; [exact Hu |].
  unfold retrieveAdjacencyLists, retrieveEdgeList, plumed_dbg_assert, plumed_assert.
  rewrite Hu. split; reflexivity.
Qed.

Lemma C8_views_need_undirected_graph_witness :
  retrieveAdjacencyLists example_directed [0; 0; 0; 0] example_adj_list
    = Fail AssertionFailed
  /\ retrieveEdgeList example_directed 0 [(8, 8); (8, 8); (8, 8)] = Fail AssertionFailed.
Proof.
  apply (C8_views_need_undirected_graph example_directed [0; 0; 0; 0] example_adj_list
           0 [(8, 8); (8, 8); (8, 8)] eq_refl eq_refl).
Defined.

(** * The derivative adapter *)

Lemma map_nth_indices (l : list Z) :
  map (fun i => nth i l 0) (seq 0 (length l)) = l.
Proof.
  induction l as [| x l IH]; [reflexivity |].
  cbn [length seq map nth]. f_equal.
  rewrite <- seq_shift, map_map. exact IH.
Qed.

(** The loop over the positions of the active list is a loop over the
    active indices themselves. *)
Lemma retrieveDerivatives_loop_positions (vals : float * float) (pref : float)
      (positions : list nat) :
  forall myvals : MultiValue,
  fold_left (retrieveDerivatives_body vals pref) (map Z.of_nat positions) myvals
  = fold_left (adjust_derivative vals pref)
              (map (fun i => nth i (mv_active myvals) 0) positions) myvals.
Proof.
  induction positions as [| i positions IH]; intros myvals; [reflexivity |].
  cbn [map fold_left].
  assert (E : retrieveDerivatives_body vals pref myvals (Z.of_nat i)
              = adjust_derivative vals pref myvals (nth i (mv_active myvals) 0)).
  { unfold retrieveDerivatives_body, adjust_derivative, getActiveIndex.
    rewrite Nat2Z.id. reflexivity. }
  rewrite E, IH. reflexivity.
Qed.

Lemma retrieveDerivatives_loop (vals : float * float) (pref : float) (myvals : MultiValue) :
  fold_left (retrieveDerivatives_body vals pref) (indices (getNumberActive myvals)) myvals
  = fold_left (adjust_derivative vals pref) (mv_active myvals) myvals.
Proof.
  unfold indices, getNumberActive. rewrite Nat2Z.id.
  rewrite retrieveDerivatives_loop_positions, map_nth_indices. reflexivity.
Qed.

(** What the adjustments of distinct indices add up to. *)
Lemma adjust_derivatives_spec (vals : float * float) (pref : float) (l : list Z) :
  forall myvals : MultiValue,
  List.NoDup l ->
  let r := fold_left (adjust_derivative vals pref) l myvals in
  mv_active r = mv_active myvals
  /\ (forall jder, In jder l ->
        getDerivative r 1 jder
        = (getDerivative myvals 1 jder / fst vals
           - pref * getDerivative myvals 0 jder)%float)
  /\ (forall jder, ~ In jder l -> getDerivative r 1 jder = getDerivative myvals 1 jder)
  /\ (forall c jder, c <> 1 -> getDerivative r c jder = getDerivative myvals c jder).
Proof.
  induction l as [| a l IH]; intros myvals Hnd.
  - simpl. repeat split; intros; try reflexivity. contradiction.
  - apply NoDup_cons_iff in Hnd as [Hna Hnd]. cbn [fold_left].
    destruct (IH (adjust_derivative vals pref myvals a) Hnd) as (Ha & Hin & Hout & Hc).
    cbv zeta.
    assert (Hother : forall c jder, (c, jder) <> (1, a) ->
              getDerivative (adjust_derivative vals pref myvals a) c jder
              = getDerivative myvals c jder).
    { intros c jder Hne. unfold adjust_derivative, getDerivative, setDerivative. simpl.
      destruct (Z.eqb_spec c 1) as [-> | ?], (Z.eqb_spec jder a) as [-> | ?];
        simpl; try reflexivity. exfalso. apply Hne. reflexivity. }
    split; [rewrite Ha; reflexivity |]. split; [| split].
    + intros jder [<- | Hj].
      * rewrite (Hout a Hna).
        unfold adjust_derivative, getDerivative, setDerivative. simpl.
        rewrite Z.eqb_refl. reflexivity.
      * assert (jder <> a) by (intros ->; contradiction).
        rewrite (Hin jder Hj), !Hother by congruence. reflexivity.
    + intros jder Hn. rewrite Hout by (intros Hj; apply Hn; right; exact Hj).
      apply Hother. intros E. apply Hn. left. congruence.
    + intros c jder Hne. rewrite Hc by exact Hne. apply Hother. congruence.
Qed.

(** C9, with the value of the example as computed: the adapter replaces the derivative of the weighted value
    at every active index by dV/W - (V/W^2)*dW, leaves everything else as
    the base class returned it, and returns the stored derivatives
    unchanged when the weight has no derivatives.  For weight 2, weighted
    value 4, dW = 1 and dV = 3 the adjusted derivative is
    3/2 - (4/4)*1 = 0.5; without weight derivatives it is the raw 3. *)
Theorem C9_derivative_adapter :
  (forall (v : AdjacencyMatrixVessel) (myelem : Z) (normed : bool)
          (myvals mv0 : MultiValue) (w val : float),
     base_retrieveDerivatives (base v) myelem normed myvals = mv0 ->
     retrieveValue (base v) myelem normed = (w, val) ->
     (weightHasDerivatives (function v) = false ->
        retrieveDerivatives v myelem normed myvals = mv0)
     /\ (weightHasDerivatives (function v) = true ->
         List.NoDup (mv_active mv0) ->
         (forall jder, In jder (mv_active mv0) ->
            getDerivative (retrieveDerivatives v myelem normed myvals) 1 jder
            = (getDerivative mv0 1 jder / w
               - (val / (w * w)) * getDerivative mv0 0 jder)%float)
         /\ (forall jder, ~ In jder (mv_active mv0) ->
               getDerivative (retrieveDerivatives v myelem normed myvals) 1 jder
               = getDerivative mv0 1 jder)
         /\ (forall c jder, c <> 1 ->
               getDerivative (retrieveDerivatives v myelem normed myvals) c jder
               = getDerivative mv0 c jder)))
  /\ getDerivative (retrieveDerivatives (derivative_vessel true) 0 false empty_MultiValue) 1 7
     = 0.5%float
  /\ (3 / 2 - (4 / (2 * 2)) * 1 = 0.5)%float
  /\ getDerivative (retrieveDerivatives (derivative_vessel false) 0 false empty_MultiValue) 1 7
     = 3%float.
Proof.
  split; [| repeat split; vm_compute; reflexivity].
  intros v myelem normed myvals mv0 w val Hb Hv.
  unfold retrieveDerivatives. rewrite Hb, Hv. split.
  - intros Hw. rewrite Hw. reflexivity.
  - intros Hw Hnd. rewrite Hw. cbn [negb fst snd].
    rewrite retrieveDerivatives_loop.
    destruct (adjust_derivatives_spec (w, val) (val / (w * w))%float (mv_active mv0) mv0 Hnd)
      as (_ & Hin & Hout & Hc).
    split; [exact Hin |]. split; [exact Hout | exact Hc].
Qed.

Lemma C9_derivative_adapter_witness :
  getDerivative (retrieveDerivatives (derivative_vessel true) 0 false empty_MultiValue) 1 7
  = (3 / 2 - (4 / (2 * 2)) * 1)%float.
Proof.
  destruct (proj1 C9_derivative_adapter (derivative_vessel true) 0 false empty_MultiValue
              _ 2%float 4%float eq_refl eq_refl) as [_ Hadj].
  destruct (Hadj eq_refl) as (Hin & _ & _).
  - simpl. constructor; [intros [] | constructor].
  - apply (Hin 7). simpl. left. reflexivity.
Defined.

(** In that example the adapter does not return 1.0. *)
Lemma C9_example_value_is_not_one :
  getDerivative (retrieveDerivatives (derivative_vessel true) 0 false empty_MultiValue) 1 7
  <> 1%float.
Proof.
  intros E.
  assert (Hb : PrimFloat.eqb
                 (getDerivative
                    (retrieveDerivatives (derivative_vessel true) 0 false empty_MultiValue) 1 7)
                 1 = PrimFloat.eqb 1 1) by (rewrite E; reflexivity).
  vm_compute in Hb. discriminate Hb.
Qed.

(** * Further properties of the vessel *)

(** ** The constructor *)

(** The constructor accepts a configuration exactly when the action is an
    adjacency-matrix action, the two flags are not both set, and the matrix
    is square whenever one of them is.  The vessel it returns holds what it
    was given, so a vessel that counts as an undirected graph is square and
    has exactly one of the two flags. *)
Theorem constructor_accepts_iff (da : StoreDataVessel)
        (action : option AdjacencyMatrixBase) (r c : Z) (s h : bool) :
  ((exists v, new_AdjacencyMatrixVessel da action r c s h = Ok v)
   <-> (action <> None /\ s && h = false /\ (s || h = true -> r = c)))
  /\ (forall v, new_AdjacencyMatrixVessel da action r c s h = Ok v ->
        base v = da /\ action = Some (function v)
        /\ nrows v = r /\ ncols v = c /\ symmetric v = s /\ hbonds v = h
        /\ (undirectedGraph v = true ->
            nrows v = ncols v /\ symmetric v = negb (hbonds v))
        /\ (isSymmetric v = true -> undirectedGraph v = true)).
Proof.
  unfold new_AdjacencyMatrixVessel. split.
  - destruct action as [f |]; [| split; [intros [v E]; discriminate | intros [E _]; congruence]].
    destruct s, h, (Z.eqb_spec r c) as [E | E]; simpl; split;
      try (intros [v Hv]; discriminate Hv);
      try (intros _; eexists; reflexivity);
      try (intros _; repeat split; congruence);
      intros (_ & H1 & H2); try discriminate H1; exfalso; apply E, H2; reflexivity.
  - intros v Hv. destruct action as [f |]; [| discriminate].
    destruct s, h, (Z.eqb_spec r c) as [E | E]; simpl in Hv; try discriminate Hv;
      injection Hv as <-; unfold undirectedGraph, isSymmetric; simpl;
      repeat split; auto; discriminate.
Qed.

Lemma constructor_accepts_iff_witness :
  base example_vessel = example_store /\ nrows example_vessel = ncols example_vessel.
Proof.
  destruct (proj2 (constructor_accepts_iff example_store (Some example_function) 4 4 true false)
              example_vessel eq_refl) as (Hb & _ & _ & _ & _ & _ & Hu & _).
  split; [exact Hb | apply Hu; reflexivity].
Defined.

(** ** The symmetric index on the diagonal *)

(** In symmetric mode a diagonal cell (k,k) has the storage index of the
    pair (k+1,0): the triangular store has no slot for the diagonal.  For
    the last of [n] nodes that index is the number of stored values, one
    past the last slot. *)
Theorem symmetric_diagonal_index (v : AdjacencyMatrixVessel) (k : Z) :
  symmetric v = true -> 0 <= k -> triangular (k + 1) < UINT_RANGE ->
  getStoreIndexFromMatrixIndices v k k = Ok (triangular (k + 1))
  /\ getStoreIndexFromMatrixIndices v (k + 1) 0 = Ok (triangular (k + 1))
  /\ (getNumberOfNodes (function v) = k + 1 ->
      getNumberOfStoredValues v = Ok (triangular (k + 1))).
Proof.
  intros Hs Hk Hr. pose proof (triangular_succ k) as Hsucc.
  pose proof (triangular_nonneg k Hk) as Hn.
  split; [| split].
  - rewrite (symmetric_index_value v k k Hs Hk Hk);
      rewrite Z.max_id, Z.min_id; [f_equal; lia | lia].
  - rewrite (symmetric_index_value v (k + 1) 0 Hs) by
        (try lia; rewrite Z.max_l, Z.min_r by lia; lia).
    rewrite Z.max_l, Z.min_r by lia. f_equal. lia.
  - intros En. unfold getNumberOfStoredValues. rewrite Hs, En.
    apply double_to_unsigned_exact.
    + pose proof (half_product_value (k + 1) 0) as E.
      unfold unsigned_to_double in *. rewrite Z.add_0_r in E.
      rewrite <- E.
      * change (inject_Z 0) with 0%Q. ring.
      * split; [lia |]. apply triangular_bound; lia.
    + split; [apply triangular_nonneg; lia | exact Hr].
Qed.

Lemma symmetric_diagonal_index_witness :
  getStoreIndexFromMatrixIndices example_vessel 3 3 = Ok 6
  /\ getStoreIndexFromMatrixIndices example_vessel 4 0 = Ok 6
  /\ getNumberOfStoredValues example_vessel = Ok 6.
Proof.
  destruct (symmetric_diagonal_index example_vessel 3 eq_refl ltac:(lia) eq_refl)
    as (H1 & H2 & H3).
  split; [exact H1 |]. split; [exact H2 | apply H3; reflexivity].
Defined.

(** ** The store of an hbonds matrix *)

(** A vessel the constructor accepts in hbonds mode stores one value per
    cell: every cell has an index below [getNumberOfStoredValues], two
    cells with the same index are the same cell, and every index below
    [getNumberOfStoredValues] is the index of a cell. *)
Theorem hbonds_store_is_the_matrix (da : StoreDataVessel)
        (action : option AdjacencyMatrixBase) (r c : Z) (v : AdjacencyMatrixVessel) :
  new_AdjacencyMatrixVessel da action r c false true = Ok v ->
  0 <= r -> r * c < UINT_RANGE ->
  exists n,
    getNumberOfStoredValues v = Ok n
    /\ (forall i j, 0 <= i < nrows v -> 0 <= j < ncols v ->
          exists idx, getStoreIndexFromMatrixIndices v i j = Ok idx /\ 0 <= idx < n)
    /\ (forall i j i' j',
          0 <= i < nrows v -> 0 <= j < ncols v ->
          0 <= i' < nrows v -> 0 <= j' < ncols v ->
          getStoreIndexFromMatrixIndices v i j = getStoreIndexFromMatrixIndices v i' j' ->
          i = i' /\ j = j')
    /\ (forall idx, 0 <= idx < n ->
          exists i j, 0 <= i < nrows v /\ 0 <= j < ncols v
                      /\ getStoreIndexFromMatrixIndices v i j = Ok idx).
Proof.
  intros Hv H0 Hr.
  destruct (hbonds_vessel_is_square _ _ _ _ _ Hv) as (Hs & _ & Hn & Hc & Hsq).
  destruct (hbonds_index_bijection da action r c v Hv H0 ltac:(lia)) as (Hval & Hinj & Hsur).
  exists (r * c). rewrite Hn, Hc. split; [| split; [| split]].
  - unfold getNumberOfStoredValues, umul. rewrite Hs, Hn, Hc, wrap_small; [reflexivity |].
    split; [apply Z.mul_nonneg_nonneg; lia | exact Hr].
  - intros i j Hi Hj. exists (r * i + j). apply Hval; assumption.
  - exact Hinj.
  - exact Hsur.
Qed.

Lemma hbonds_store_is_the_matrix_witness :
  exists n, getNumberOfStoredValues example_hbonds = Ok n
            /\ exists idx, getStoreIndexFromMatrixIndices example_hbonds 2 3 = Ok idx
                           /\ 0 <= idx < n.
Proof.
  destruct (hbonds_store_is_the_matrix hbonds_store (Some hbonds_function) 4 4 example_hbonds
              eq_refl ltac:(lia) eq_refl) as (n & Hn & Hval & _).
  exists n. split; [exact Hn |]. apply Hval; simpl; lia.
Defined.

(** ** The dense matrix, further *)

(** Two well-formed matrices of the same shape with the same cells are the
    same matrix. *)
Lemma matrix_ext {T : Type} (m m' : Matrix T) :
  mat_wf m -> mat_wf m' -> same_shape m m' ->
  (forall a b, in_matrix m a b = true -> mat_get m' a b = mat_get m a b) ->
  m' = m.
Proof.
  intros (Hr & Hc & Hl) (Hr' & Hc' & Hl') [Er Ec] Hcells.
  destruct m as [r c d], m' as [r' c' d']. simpl in *. subst r' c'. f_equal.
  apply list_eq. intros idx.
  destruct (Nat.lt_ge_cases idx (length d)) as [Hlt | Hge].
  - assert (Hcpos : 0 < c) by nia.
    pose proof (Z.mod_pos_bound (Z.of_nat idx) c Hcpos) as Hm.
    pose proof (Z.div_mod (Z.of_nat idx) c ltac:(lia)) as Hd.
    assert (Hq : 0 <= Z.of_nat idx / c < r).
    { split; [apply Z.div_pos; lia | apply Z.div_lt_upper_bound; nia]. }
    assert (Hin : in_matrix {| rw := r; cl := c; data := d |}
                            (Z.of_nat idx / c) (Z.of_nat idx mod c) = true).
    { apply in_matrix_spec. simpl. lia. }
    specialize (Hcells _ _ Hin). unfold mat_get in Hcells.
    rewrite Hin in Hcells.
    assert (Hin' : in_matrix {| rw := r; cl := c; data := d' |}
                             (Z.of_nat idx / c) (Z.of_nat idx mod c) = true).
    { apply in_matrix_spec. simpl. lia. }
    rewrite Hin' in Hcells. simpl in Hcells.
    replace (Z.of_nat idx mod c + Z.of_nat idx / c * c) with (Z.of_nat idx) in Hcells by lia.
    destruct (lookup_lt_is_Some_2 d idx Hlt) as [x Ex].
    destruct (lookup_lt_is_Some_2 d' idx ltac:(lia)) as [x' Ex'].
    rewrite (vec_get_lookup d (Z.of_nat idx) x) in Hcells
      by first [lia | rewrite Nat2Z.id; exact Ex].
    rewrite (vec_get_lookup d' (Z.of_nat idx) x') in Hcells
      by first [lia | rewrite Nat2Z.id; exact Ex'].
    rewrite Ex, Ex'. congruence.
  - rewrite !lookup_ge_None_2 by lia. reflexivity.
Qed.

(** What a successful run of the dense view returns, cell by cell. *)
Lemma retrieveMatrix_run {DL : Type} `{DynamicListOps DL} (v : AdjacencyMatrixVessel)
      (dl dl' : DL) (m m' : Matrix float) (n : Z) :
  mat_wf m -> getNumberOfStoredValues v = Ok n -> slots_in_matrix v (indices n) m ->
  retrieveMatrix v dl m = Ok (dl', m') ->
  mat_wf m' /\ same_shape m m' /\ slots_in_matrix v (indices n) m'
  /\ forall a b, mat_get m' a b
                 = match last_writer v (indices n) a b with
                   | Some i => Ok (normalized_value v i)
                   | None => mat_get m a b
                   end.
Proof.
  intros Hwf Hn Hin Hrun.
  destruct (retrieveMatrix_loop v (indices n) (deactivateAll dl) m Hwf Hin)
    as (dl1 & m1 & E & Hwf1 & Hs & G).
  unfold retrieveMatrix in Hrun. rewrite Hn in Hrun. cbn [bind] in Hrun.
  rewrite E in Hrun. cbn [bind] in Hrun. injection Hrun as _ <-.
  split; [exact Hwf1 |]. split; [exact Hs |]. split; [| exact G].
  apply (slots_in_matrix_same_shape v (indices n) m m1 Hs Hin).
Qed.




Lemma example_dense_run :
  retrieveMatrix example_vessel ([] : list Z) (zero_matrix 4 4)
  = Ok ([5; 0], example_dense_matrix).
Proof. vm_compute. reflexivity. Qed.








(** Running the view again on the matrix it returned succeeds and returns
    the same matrix. *)
Theorem dense_matrix_idempotent {DL : Type} `{DynamicListOps DL}
        (v : AdjacencyMatrixVessel) (dl dl' : DL) (m m' : Matrix float) (n : Z) :
  mat_wf m -> getNumberOfStoredValues v = Ok n -> slots_in_matrix v (indices n) m ->
  retrieveMatrix v dl m = Ok (dl', m') ->
  exists dl'', retrieveMatrix v dl' m' = Ok (dl'', m').
Proof.
  intros Hwf Hn Hin Hrun.
  destruct (retrieveMatrix_run v dl dl' m m' n Hwf Hn Hin Hrun) as (Hwf' & Hs & Hin' & G).
  destruct (retrieveMatrix_loop v (indices n) (deactivateAll dl') m' Hwf' Hin')
    as (dl2 & m2 & E2 & Hwf2 & Hs2 & G2).
  assert (Em : m2 = m').
  { apply matrix_ext; [exact Hwf' | exact Hwf2 | exact Hs2 |].
    intros a b _. rewrite G2, G. destruct (last_writer v (indices n) a b); reflexivity. }
  exists (updateActiveMembers dl2).
  unfold retrieveMatrix. rewrite Hn. cbn [bind]. rewrite E2. cbn [bind].
  rewrite Em. reflexivity.
Qed.

Lemma dense_matrix_idempotent_witness :
  exists dl'' : list Z,
    retrieveMatrix example_vessel [5; 0] example_dense_matrix = Ok (dl'', example_dense_matrix).
Proof.
  apply (dense_matrix_idempotent example_vessel [] [5; 0] (zero_matrix 4 4)
           example_dense_matrix 6
           (zero_matrix_wf 4 4 ltac:(lia) ltac:(lia)) eq_refl
           example_slots_in_matrix example_dense_run).
Defined.

(** ** A store without active slots *)

Lemma for_each_skip {I St : Type} (body : St -> I -> result St) (l : list I) (st : St) :
  (forall i, In i l -> body st i = Ok st) -> for_each body l st = Ok st.
Proof.
  induction l as [| i l IH]; intros Hskip; [reflexivity |].
  cbn [for_each]. rewrite (Hskip i) by (left; reflexivity). cbn [bind].
  apply IH. intros i' Hi'. apply Hskip. right. exact Hi'.
Qed.

(** When no slot is active the views touch nothing: the dense matrix comes
    back as it was, every neighbour count is zero and the adjacency table
    is as it was, and the edge list is as it was with zero edges.  No
    container has to have any particular size for this. *)
Theorem views_of_an_empty_store {DL : Type} `{DynamicListOps DL}
        (v : AdjacencyMatrixVessel) (n : Z)
        (dl : DL) (m : Matrix float)
        (nneigh : list Z) (adj_list : Matrix Z)
        (nedge : Z) (edge_list : list (Z * Z)) :
  getNumberOfStoredValues v = Ok n -> store_empty v n ->
  retrieveMatrix v dl m = Ok (updateActiveMembers (deactivateAll dl), m)
  /\ (undirectedGraph v = true ->
      retrieveAdjacencyLists v nneigh adj_list
      = Ok (replicate (length nneigh) 0, adj_list)
      /\ retrieveEdgeList v nedge edge_list = Ok (0, edge_list)).
Proof.
  intros Hn Hempty. split; [| intros Hu; split].
  - unfold retrieveMatrix. rewrite Hn. cbn [bind].
    rewrite for_each_skip; [reflexivity |].
    intros i Hi. apply In_indices in Hi. unfold retrieveMatrix_body.
    rewrite (Hempty i Hi). reflexivity.
  - unfold retrieveAdjacencyLists, plumed_dbg_assert, plumed_assert.
    rewrite Hu, Hn. cbn [bind]. rewrite zero_neighbours_replicate.
    apply for_each_skip.
    intros i Hi. apply In_indices in Hi. unfold retrieveAdjacencyLists_body.
    rewrite (Hempty i Hi). reflexivity.
  - unfold retrieveEdgeList, plumed_dbg_assert, plumed_assert.
    rewrite Hu, Hn. cbn [bind]. apply for_each_skip.
    intros i Hi. apply In_indices in Hi. unfold retrieveEdgeList_body.
    rewrite (Hempty i Hi). reflexivity.
Qed.

Lemma views_of_an_empty_store_witness :
  retrieveMatrix silent_vessel ([3] : list Z) (zero_matrix 0 0) = Ok ([], zero_matrix 0 0)
  /\ retrieveAdjacencyLists silent_vessel [7; 7] example_adj_list
     = Ok ([0; 0], example_adj_list)
  /\ retrieveEdgeList silent_vessel 9 [] = Ok (0, []).
Proof.
  assert (He : store_empty silent_vessel 6) by (intros i _; reflexivity).
  destruct (views_of_an_empty_store silent_vessel 6 ([3] : list Z) (zero_matrix 0 0)
              [7; 7] example_adj_list 9 [] eq_refl He) as [Hm Hrest].
  split; [exact Hm | apply Hrest; reflexivity].
Defined.

(** ** The edge list, further *)

Lemma getMatrixIndices_fail (v : AdjacencyMatrixVessel) (i : Z) (e : error) :
  getMatrixIndices v i = Fail e -> e = Undefined.
Proof.
  unfold getMatrixIndices.
  destruct (decodeIndexToAtoms (function v) (getTaskCode (function v) i) !! 0%nat);
    [| congruence].
  destruct (decodeIndexToAtoms (function v) (getTaskCode (function v) i) !! 1%nat);
    congruence.
Qed.

(** The loop of the edge-list view runs out of the edge list as soon as
    there are more active slots than entries left. *)
Lemma retrieveEdgeList_loop_overflow (v : AdjacencyMatrixVessel) (l : list Z) :
  forall (k : nat) (edge_list : list (Z * Z)),
  (length edge_list < k + length (active_slots v l))%nat ->
  (k <= length edge_list)%nat ->
  Z.of_nat (k + length l) < UINT_RANGE ->
  for_each (retrieveEdgeList_body v) l (Z.of_nat k, edge_list) = Fail Undefined.
Proof.
  induction l as [| i l IH]; intros k el Hlen Hk Hr.
  - simpl in Hlen. lia.
  - rewrite active_slots_cons in Hlen. cbn [for_each length] in *.
    unfold retrieveEdgeList_body at 1.
    destruct (storedValueIsActive (base v) i) eqn:Ha; cbn [negb bind].
    + cbn [length] in Hlen.
      destruct (Nat.eq_dec k (length el)) as [-> | Hne].
      * unfold vec_get. destruct (Z.leb_spec 0 (Z.of_nat (length el))); [| reflexivity].
        rewrite Nat2Z.id, lookup_ge_None_2 by lia. reflexivity.
      * destruct (vec_get_ok el (Z.of_nat k) ltac:(lia)) as (old & Eg).
        rewrite Eg. cbn [bind].
        destruct (getMatrixIndices v i) as [p | e] eqn:Hd; cbn [bind].
        -- rewrite vec_set_ok by lia. cbn [bind].
           unfold uadd. rewrite wrap_small by lia.
           replace (Z.of_nat k + 1) with (Z.of_nat (S k)) by lia.
           apply IH; rewrite ?length_insert; lia.
        -- rewrite (getMatrixIndices_fail v i e Hd). reflexivity.
    + apply IH; lia.
Qed.

(** When the edge list has fewer entries than there are active slots the
    view does not truncate: it writes past the end of the list, which is
    undefined behaviour. *)
Theorem edge_list_too_short (v : AdjacencyMatrixVessel)
        (nedge : Z) (edge_list : list (Z * Z)) (n : Z) :
  undirectedGraph v = true ->
  getNumberOfStoredValues v = Ok n ->
  (length edge_list < length (active_slots v (indices n)))%nat ->
  retrieveEdgeList v nedge edge_list = Fail Undefined.
Proof.
  intros Hu Hn Hshort.
  pose proof (getNumberOfStoredValues_range v n Hn) as Hr.
  pose proof (length_indices n ltac:(lia)) as Hli.
  unfold retrieveEdgeList, plumed_dbg_assert, plumed_assert.
  rewrite Hu, Hn. cbn [bind].
  apply (retrieveEdgeList_loop_overflow v (indices n) 0 edge_list); simpl; lia.
Qed.

Lemma edge_list_too_short_witness :
  retrieveEdgeList example_vessel 0 [(8, 8)] = Fail Undefined.
Proof.
  apply (edge_list_too_short example_vessel 0 [(8, 8)] 6 eq_refl eq_refl).
  vm_compute. lia.
Defined.

(** What a successful run of the edge-list view returns. *)
Lemma retrieveEdgeList_run (v : AdjacencyMatrixVessel)
      (nedge nedge' : Z) (edge_list edge_list' : list (Z * Z)) (n : Z) :
  undirectedGraph v = true ->
  getNumberOfStoredValues v = Ok n ->
  slots_decode v (indices n) ->
  retrieveEdgeList v nedge edge_list = Ok (nedge', edge_list') ->
  (length (active_slots v (indices n)) <= length edge_list)%nat
  /\ nedge' = Z.of_nat (length (active_slots v (indices n)))
  /\ edge_list' = active_pairs v (indices n)
                  ++ drop (length (active_slots v (indices n))) edge_list.
Proof.
  intros Hu Hn Hdec Hrun.
  pose proof (getNumberOfStoredValues_range v n Hn) as Hr.
  pose proof (length_active_slots v (indices n)) as Hle.
  pose proof (length_indices n ltac:(lia)) as Hli.
  destruct (Nat.lt_ge_cases (length edge_list) (length (active_slots v (indices n))))
    as [Hshort | Hfit].
  - rewrite (edge_list_too_short v nedge edge_list n Hu Hn Hshort) in Hrun. discriminate.
  - split; [exact Hfit |].
    unfold retrieveEdgeList, plumed_dbg_assert, plumed_assert in Hrun.
    rewrite Hu, Hn in Hrun. cbn [bind] in Hrun.
    assert (E : for_each (retrieveEdgeList_body v) (indices n) (0, edge_list)
                = Ok (Z.of_nat (length (active_slots v (indices n))),
                      active_pairs v (indices n)
                      ++ drop (length (active_slots v (indices n))) edge_list))
      by exact (retrieveEdgeList_loop v (indices n) 0 edge_list Hdec
                  ltac:(simpl; lia) ltac:(simpl; lia)).
    cbv zeta in Hrun. rewrite E in Hrun.
    injection Hrun as <- <-. split; reflexivity.
Qed.

(** Running the edge-list view again on the list it returned returns the
    same count and the same list. *)
Theorem edge_list_idempotent (v : AdjacencyMatrixVessel)
        (nedge nedge' : Z) (edge_list edge_list' : list (Z * Z)) (n : Z) :
  undirectedGraph v = true ->
  getNumberOfStoredValues v = Ok n ->
  slots_decode v (indices n) ->
  retrieveEdgeList v nedge edge_list = Ok (nedge', edge_list') ->
  retrieveEdgeList v nedge' edge_list' = Ok (nedge', edge_list').
Proof.
  intros Hu Hn Hdec Hrun.
  destruct (retrieveEdgeList_run v nedge nedge' edge_list edge_list' n Hu Hn Hdec Hrun)
    as (Hfit & -> & ->).
  pose proof (getNumberOfStoredValues_range v n Hn) as Hr.
  pose proof (length_active_slots v (indices n)) as Hle.
  pose proof (length_indices n ltac:(lia)) as Hli.
  assert (Hlp : length (active_pairs v (indices n)) = length (active_slots v (indices n)))
    by (unfold active_pairs; apply length_map).
  unfold retrieveEdgeList, plumed_dbg_assert, plumed_assert.
  rewrite Hu, Hn. cbn [bind].
  set (el' := active_pairs v (indices n)
              ++ drop (length (active_slots v (indices n))) edge_list).
  assert (Hl' : length el' = length edge_list)
    by (unfold el'; rewrite length_app, length_drop; lia).
  assert (E : for_each (retrieveEdgeList_body v) (indices n) (0, el')
              = Ok (Z.of_nat (length (active_slots v (indices n))),
                    active_pairs v (indices n)
                    ++ drop (length (active_slots v (indices n))) el'))
    by exact (retrieveEdgeList_loop v (indices n) 0 el' Hdec
                ltac:(simpl; lia) ltac:(simpl; lia)).
  cbv zeta. rewrite E. f_equal. f_equal. unfold el' at 2. f_equal.
  unfold el'. rewrite <- Hlp, drop_app_length. reflexivity.
Qed.

Lemma edge_list_idempotent_witness :
  retrieveEdgeList example_vessel 2 [(0, 1); (2, 3); (8, 8)]
  = Ok (2, [(0, 1); (2, 3); (8, 8)]).
Proof.
  apply (edge_list_idempotent example_vessel 17 2 [(8, 8); (8, 8); (8, 8)]
           [(0, 1); (2, 3); (8, 8)] 6 eq_refl eq_refl example_slots_decode).
  vm_compute. reflexivity.
Defined.

(** ** The adjacency lists, further *)

(** What a successful run of the adjacency-list view returns. *)
Lemma retrieveAdjacencyLists_run (v : AdjacencyMatrixVessel) (n : Z)
      (nneigh nneigh' : list Z) (adj_list adj_list' : Matrix Z) :
  undirectedGraph v = true ->
  getNumberOfStoredValues v = Ok n ->
  adjacency_table_fits v n nneigh adj_list ->
  retrieveAdjacencyLists v nneigh adj_list = Ok (nneigh', adj_list') ->
  same_shape adj_list adj_list'
  /\ rows_hold (Z.of_nat (length nneigh))
               (neighbours_of (active_pairs v (indices n))) nneigh' adj_list'.
Proof.
  intros Hu Hn (Hwf & HN & Hcl & Hdec & Hcap) Hrun.
  destruct (retrieveAdjacencyLists_loop v (Z.of_nat (length nneigh)) (indices n) []
              (replicate (length nneigh) 0) adj_list
              (rows_hold_zero nneigh adj_list Hwf) Hdec HN Hcl Hcap)
    as (nn' & adj' & E & Hs & Hrows).
  simpl in E, Hrows.
  unfold retrieveAdjacencyLists, plumed_dbg_assert, plumed_assert in Hrun.
  rewrite Hu, Hn in Hrun. cbn [bind] in Hrun.
  rewrite zero_neighbours_replicate, E in Hrun. injection Hrun as <- <-.
  split; assumption.
Qed.

Lemma example_adjacency_table_fits :
  adjacency_table_fits example_vessel 6 [5; 5; 5; 5] example_adj_list.
Proof.
  split; [exact example_adj_list_wf |]. split; [simpl; lia |].
  split; [vm_compute; reflexivity |]. split; [exact example_slots_below |].
  exact example_rows_fit.
Qed.

Lemma example_adjacency_run :
  retrieveAdjacencyLists example_vessel [5; 5; 5; 5] example_adj_list
  = Ok ([1; 1; 1; 1], example_adj_list_filled).
Proof. vm_compute. reflexivity. Qed.





Lemma sum_map_zero (g : Z -> Z) (l : list Z) :
  (forall x, In x l -> g x = 0) -> fold_right Z.add 0 (map g l) = 0.
Proof.
  induction l as [| x l IH]; intros Hz; simpl; [reflexivity |].
  rewrite (Hz x) by (left; reflexivity). rewrite IH; [reflexivity |].
  intros x' Hx'. apply Hz. right. exact Hx'.
Qed.

Lemma sum_map_app (g : Z -> Z) (l1 l2 : list Z) :
  fold_right Z.add 0 (map g (l1 ++ l2))
  = fold_right Z.add 0 (map g l1) + fold_right Z.add 0 (map g l2).
Proof. induction l1 as [| x l1 IH]; simpl; [reflexivity | rewrite IH; lia]. Qed.

Lemma sum_map_add (f g : Z -> Z) (l : list Z) :
  fold_right Z.add 0 (map (fun x => f x + g x) l)
  = fold_right Z.add 0 (map f l) + fold_right Z.add 0 (map g l).
Proof. induction l as [| x l IH]; simpl; [reflexivity | rewrite IH; lia]. Qed.

(** A node below [N] is counted once among the indices below [N]. *)
Lemma sum_indicator (N k : Z) :
  0 <= k < N ->
  fold_right Z.add 0 (map (fun x => if k =? x then 1 else 0) (indices N)) = 1.
Proof.
  intros Hk. destruct (indices_split N k Hk) as (later & -> & Hl).
  rewrite sum_map_app. cbn [map fold_right]. rewrite Z.eqb_refl.
  rewrite !sum_map_zero; [reflexivity | |].
  - intros x Hx. apply Hl in Hx. destruct (Z.eqb_spec k x); [lia | reflexivity].
  - intros x Hx. apply In_indices in Hx. destruct (Z.eqb_spec k x); [lia | reflexivity].
Qed.

(** Every pair adds one neighbour to each of its two nodes. *)
Lemma neighbours_total (N : Z) (prs : list (Z * Z)) :
  (forall k j, In (k, j) prs -> 0 <= k < N /\ 0 <= j < N) ->
  fold_right Z.add 0
    (map (fun x => Z.of_nat (length (neighbours_of prs x))) (indices N))
  = 2 * Z.of_nat (length prs).
Proof.
  induction prs as [| [k j] prs IH]; intros Hin.
  - simpl. apply sum_map_zero. reflexivity.
  - destruct (Hin k j ltac:(left; reflexivity)) as [Hk Hj].
    assert (E : forall x, Z.of_nat (length (neighbours_of ((k, j) :: prs) x))
                = (if k =? x then 1 else 0)
                  + ((if j =? x then 1 else 0)
                     + Z.of_nat (length (neighbours_of prs x)))).
    { intros x. simpl. rewrite !length_app.
      destruct (k =? x), (j =? x); simpl; lia. }
    rewrite (map_ext _ _ E), !sum_map_add, !sum_indicator by assumption.
    rewrite IH by (intros k' j' H'; apply Hin; right; exact H').
    cbn [length]. lia.
Qed.

Lemma total_degree_of_rows (g : Z -> Z) (l : list Z) :
  forall a : nat,
  (forall idx : nat, (idx < length l)%nat -> l !! idx = Some (g (Z.of_nat (a + idx)))) ->
  total_degree l = fold_right Z.add 0 (map g (map Z.of_nat (seq a (length l)))).
Proof.
  unfold total_degree. induction l as [| x l IH]; intros a Hl; [reflexivity |].
  cbn [length seq map fold_right].
  pose proof (Hl 0%nat ltac:(simpl; lia)) as H0. simpl in H0.
  rewrite Nat.add_0_r in H0. injection H0 as ->. f_equal.
  apply IH. intros idx Hidx.
  pose proof (Hl (S idx) ltac:(simpl; lia)) as HS. simpl in HS.
  rewrite HS. do 3 f_equal. lia.
Qed.

(** The neighbour counts add up to twice the number of edges the
    edge-list view returns for the same store: each edge is counted once
    at each of its ends. *)
Theorem degrees_sum_to_twice_the_edges (v : AdjacencyMatrixVessel) (n : Z)
        (nneigh nneigh' : list Z) (adj_list adj_list' : Matrix Z)
        (nedge nedge' : Z) (edge_list edge_list' : list (Z * Z)) :
  undirectedGraph v = true ->
  getNumberOfStoredValues v = Ok n ->
  adjacency_table_fits v n nneigh adj_list ->
  retrieveAdjacencyLists v nneigh adj_list = Ok (nneigh', adj_list') ->
  retrieveEdgeList v nedge edge_list = Ok (nedge', edge_list') ->
  total_degree nneigh' = 2 * nedge'.
Proof.
  intros Hu Hn Hfit Hadj Hedge.
  destruct (retrieveAdjacencyLists_run v n nneigh nneigh' adj_list adj_list' Hu Hn Hfit Hadj)
    as [_ (Hlen & _ & Hrows)].
  destruct Hfit as (_ & _ & _ & Hbelow & _).
  assert (Hdec : slots_decode v (indices n)).
  { intros i Hi Ha. destruct (Hbelow i Hi Ha) as (k & j & E & _). eauto. }
  destruct (retrieveEdgeList_run v nedge nedge' edge_list edge_list' n Hu Hn Hdec Hedge)
    as (_ & -> & _).
  rewrite (total_degree_of_rows
             (fun x => Z.of_nat (length (neighbours_of (active_pairs v (indices n)) x)))
             nneigh' 0).
  - replace (length nneigh') with (Z.to_nat (Z.of_nat (length nneigh))) by lia.
    fold (indices (Z.of_nat (length nneigh))).
    rewrite neighbours_total.
    + unfold active_pairs. rewrite length_map. reflexivity.
    + intros k j Hin. unfold active_pairs, active_slots in Hin.
      apply in_map_iff in Hin as (i & Ed & Hi).
      apply List.filter_In in Hi as [Hi Ha].
      destruct (Hbelow i Hi Ha) as (k' & j' & E & Hk & Hj).
      unfold decoded in Ed. rewrite E in Ed. injection Ed as -> ->. auto.
  - intros idx Hidx. simpl.
    destruct (Hrows (Z.of_nat idx) ltac:(lia)) as [Hc _].
    apply vec_get_inv in Hc as [_ Hc]. rewrite Nat2Z.id in Hc. exact Hc.
Qed.

Lemma degrees_sum_to_twice_the_edges_witness :
  total_degree [1; 1; 1; 1] = 2 * 2.
Proof.
  apply (degrees_sum_to_twice_the_edges example_vessel 6 [5; 5; 5; 5] [1; 1; 1; 1]
           example_adj_list example_adj_list_filled
           17 2 [(8, 8); (8, 8); (8, 8)] [(0, 1); (2, 3); (8, 8)]
           eq_refl eq_refl example_adjacency_table_fits example_adjacency_run).
  vm_compute. reflexivity.
Defined.

Lemma mat_set_frame {T : Type} (m m' : Matrix T) (i j : Z) (x : T) :
  in_matrix m i j = true ->
  mat_set m i j x = Ok m' ->
  forall a b, (a, b) <> (i, j) -> mat_get m' a b = mat_get m a b.
Proof.
  intros Hin. unfold mat_set.
  destruct (vec_set (data m) (j + i * cl m) x) as [d |] eqn:Ev; [| discriminate].
  cbn [bind]. intros E a b Hne. injection E as <-.
  apply vec_set_inv in Ev as [Hb ->].
  apply in_matrix_spec in Hin as [Hi Hj].
  unfold mat_get, in_matrix. cbn [rw cl data]. fold (in_matrix m a b).
  destruct (in_matrix m a b) eqn:Hab; [| reflexivity].
  apply in_matrix_spec in Hab as [Ha Hb'].
  apply vec_get_insert_ne; [lia |].
  intros E. apply cell_offset_inj in E as [-> ->]; [| lia | lia].
  apply Hne. reflexivity.
Qed.

Lemma push_neighbour_frame (nn nn' : list Z) (adj adj' : Matrix Z) (a b c : Z) :
  push_neighbour (nn, adj) a b = Ok (nn', adj') ->
  vec_get nn a = Ok c ->
  in_matrix adj a c = true ->
  forall x p, (x, p) <> (a, c) -> mat_get adj' x p = mat_get adj x p.
Proof.
  unfold push_neighbour. intros E Hc Hin x p Hne. rewrite Hc in E. cbn [bind] in E.
  destruct (mat_set adj a c b) as [adj1 |] eqn:Es; [| discriminate]. cbn [bind] in E.
  destruct (vec_set nn a (uadd c 1)) as [nn1 |]; [| discriminate]. cbn [bind] in E.
  injection E as _ <-. apply (mat_set_frame adj adj1 a c b Hin Es). exact Hne.
Qed.

(** One iteration leaves alone every cell beyond the neighbours recorded
    after it. *)
Lemma retrieveAdjacencyLists_body_frame (v : AdjacencyMatrixVessel) (N : Z)
      (prs : list (Z * Z)) (nn nn' : list Z) (adj adj' : Matrix Z) (i k j : Z) :
  storedValueIsActive (base v) i = true ->
  getMatrixIndices v i = Ok (k, j) ->
  rows_hold N (neighbours_of prs) nn adj ->
  0 <= k < N -> 0 <= j < N -> N <= rw adj -> cl adj < UINT_RANGE ->
  (forall x, 0 <= x < N ->
     Z.of_nat (length (neighbours_of (prs ++ [(k, j)]) x)) <= cl adj) ->
  retrieveAdjacencyLists_body v (nn, adj) i = Ok (nn', adj') ->
  forall x p,
    (0 <= x < N -> Z.of_nat (length (neighbours_of (prs ++ [(k, j)]) x)) <= p) ->
    mat_get adj' x p = mat_get adj x p.
Proof.
  intros Ha Hd Hrows Hk Hj HN Hcl Hcap Hrun x p Hp.
  rewrite (retrieveAdjacencyLists_body_pushes v nn adj i k j Ha Hd) in Hrun.
  pose proof (Hcap k Hk) as Hck. pose proof (Hcap j Hj) as Hcj.
  rewrite neighbours_of_snoc in Hck, Hcj. rewrite Z.eqb_refl in Hck, Hcj.
  destruct (push_neighbour_ok N _ nn adj k j Hrows Hk HN) as (nn1 & adj1 & E1 & Hs1 & Hr1);
    [| exact Hcl |].
  { destruct (k =? j); rewrite !length_app in Hck; simpl in Hck; lia. }
  rewrite E1 in Hrun. cbn [bind] in Hrun.
  destruct Hrows as (_ & _ & Hrows). destruct (Hrows k Hk) as [Hck1 _].
  destruct Hr1 as (_ & _ & Hr1). destruct (Hr1 j Hj) as [Hcj1 _]. cbn beta in Hcj1.
  assert (Hin1 : in_matrix adj k (Z.of_nat (length (neighbours_of prs k))) = true).
  { apply in_matrix_spec.
    destruct (k =? j); rewrite !length_app in Hck; simpl in Hck; lia. }
  assert (Hin2 : in_matrix adj1 j
                   (Z.of_nat (length (if j =? k then neighbours_of prs j ++ [j]
                                      else neighbours_of prs j))) = true).
  { apply in_matrix_spec. destruct Hs1 as [-> ->].
    rewrite length_app in Hcj. simpl in Hcj. lia. }
  rewrite (push_neighbour_frame nn1 nn' adj1 adj' j k _ Hrun Hcj1 Hin2).
  - apply (push_neighbour_frame nn nn1 adj adj1 k j _ E1 Hck1 Hin1).
    intros E. injection E as -> ->. specialize (Hp Hk).
    rewrite neighbours_of_snoc, Z.eqb_refl in Hp.
    destruct (k =? j); rewrite !length_app in Hp; simpl in Hp; lia.
  - intros E. injection E as -> ->. specialize (Hp Hj).
    rewrite neighbours_of_snoc, Z.eqb_refl in Hp.
    rewrite length_app in Hp. simpl in Hp. lia.
Qed.

(** The loop leaves alone every cell beyond the neighbours recorded at its
    end. *)
Lemma retrieveAdjacencyLists_loop_frame (v : AdjacencyMatrixVessel) (N : Z) (l : list Z) :
  forall (prs : list (Z * Z)) (nn nn' : list Z) (adj adj' : Matrix Z),
  rows_hold N (neighbours_of prs) nn adj ->
  slots_below v l N -> N <= rw adj -> cl adj < UINT_RANGE ->
  (forall x, 0 <= x < N ->
     Z.of_nat (length (neighbours_of (prs ++ active_pairs v l) x)) <= cl adj) ->
  for_each (retrieveAdjacencyLists_body v) l (nn, adj) = Ok (nn', adj') ->
  forall x p,
    (0 <= x < N -> Z.of_nat (length (neighbours_of (prs ++ active_pairs v l) x)) <= p) ->
    mat_get adj' x p = mat_get adj x p.
Proof.
  induction l as [| i l IH]; intros prs nn nn' adj adj' Hrows Hdec HN Hcl Hcap Hrun x p Hp.
  - simpl in Hrun. injection Hrun as _ <-. reflexivity.
  - assert (Hdec' : slots_below v l N).
    { intros i' Hi'. apply Hdec. right. exact Hi'. }
    rewrite active_pairs_cons in *. cbn [for_each] in Hrun.
    destruct (storedValueIsActive (base v) i) eqn:Ha.
    + destruct (Hdec i ltac:(left; reflexivity) Ha) as (k & j & Hd & Hk & Hj).
      assert (Ed : decoded v i = (k, j)) by (unfold decoded; rewrite Hd; reflexivity).
      rewrite Ed in *.
      assert (Eapp : prs ++ (k, j) :: active_pairs v l
                     = (prs ++ [(k, j)]) ++ active_pairs v l)
        by (rewrite <- app_assoc; reflexivity).
      rewrite Eapp in *.
      assert (Hcap1 : forall x, 0 <= x < N ->
                Z.of_nat (length (neighbours_of (prs ++ [(k, j)]) x)) <= cl adj).
      { intros x' Hx'. pose proof (Hcap x' Hx').
        pose proof (neighbours_of_length_app (prs ++ [(k, j)]) (active_pairs v l) x'). lia. }
      destruct (retrieveAdjacencyLists_body_ok v N prs nn adj i k j Ha Hd Hrows Hk Hj HN Hcl Hcap1)
        as (nn1 & adj1 & E1 & [Hrw1 Hcl1] & Hr1).
      rewrite E1 in Hrun. cbn [bind] in Hrun.
      rewrite (IH (prs ++ [(k, j)]) nn1 nn' adj1 adj' Hr1 Hdec' ltac:(lia) ltac:(lia));
        [| intros x' Hx'; rewrite Hcl1; apply Hcap, Hx' | exact Hrun | exact Hp].
      apply (retrieveAdjacencyLists_body_frame v N prs nn nn1 adj adj1 i k j
               Ha Hd Hrows Hk Hj HN Hcl Hcap1 E1).
      intros Hx. specialize (Hp Hx).
      pose proof (neighbours_of_length_app (prs ++ [(k, j)]) (active_pairs v l) x). lia.
    + assert (Eb : retrieveAdjacencyLists_body v (nn, adj) i = Ok (nn, adj)).
      { unfold retrieveAdjacencyLists_body. rewrite Ha. reflexivity. }
      rewrite Eb in Hrun. cbn [bind] in Hrun.
      apply (IH prs nn nn' adj adj' Hrows Hdec' HN Hcl Hcap Hrun x p Hp).
Qed.

Lemma rows_determine_counts (N : Z) (f : Z -> list Z) (nn1 nn2 : list Z)
      (adj1 adj2 : Matrix Z) :
  rows_hold N f nn1 adj1 -> rows_hold N f nn2 adj2 -> nn1 = nn2.
Proof.
  intros (Hl1 & _ & Hr1) (Hl2 & _ & Hr2). apply list_eq. intros idx.
  destruct (Nat.lt_ge_cases idx (length nn1)) as [Hlt | Hge].
  - destruct (Hr1 (Z.of_nat idx) ltac:(lia)) as [H1 _].
    destruct (Hr2 (Z.of_nat idx) ltac:(lia)) as [H2 _].
    apply vec_get_inv in H1 as [_ H1]. apply vec_get_inv in H2 as [_ H2].
    rewrite Nat2Z.id in H1, H2. congruence.
  - rewrite !lookup_ge_None_2 by lia. reflexivity.
Qed.

(** Running the adjacency-list view again on the counts and the table it
    returned returns the same counts and the same table. *)
Theorem adjacency_lists_idempotent (v : AdjacencyMatrixVessel) (n : Z)
        (nneigh nneigh' : list Z) (adj_list adj_list' : Matrix Z) :
  undirectedGraph v = true ->
  getNumberOfStoredValues v = Ok n ->
  adjacency_table_fits v n nneigh adj_list ->
  retrieveAdjacencyLists v nneigh adj_list = Ok (nneigh', adj_list') ->
  retrieveAdjacencyLists v nneigh' adj_list' = Ok (nneigh', adj_list').
Proof.
  intros Hu Hn Hfit Hrun.
  destruct (retrieveAdjacencyLists_run v n nneigh nneigh' adj_list adj_list' Hu Hn Hfit Hrun)
    as [[Hrw Hcl] Hrows].
  pose proof Hrows as (Hlen & Hwf' & Hcells).
  destruct Hfit as (Hwf & HN & Hc & Hdec & Hcap).
  set (N := Z.of_nat (length nneigh)) in *.
  set (f := neighbours_of (active_pairs v (indices n))) in *.
  assert (Hlen' : length nneigh' = length nneigh) by lia.
  assert (Hstart : rows_hold N (neighbours_of []) (replicate (length nneigh') 0) adj_list').
  { unfold N. rewrite <- Hlen'. apply rows_hold_zero, Hwf'. }
  assert (Hcap' : forall x, 0 <= x < N ->
            Z.of_nat (length (neighbours_of ([] ++ active_pairs v (indices n)) x))
            <= cl adj_list').
  { intros x Hx. rewrite Hcl. apply Hcap, Hx. }
  destruct (retrieveAdjacencyLists_loop v N (indices n) []
              (replicate (length nneigh') 0) adj_list' Hstart Hdec ltac:(lia) ltac:(lia) Hcap')
    as (nn2 & adj2 & E2 & Hs2 & Hrows2).
  pose proof (retrieveAdjacencyLists_loop_frame v N (indices n) [] _ nn2 adj_list' adj2
                Hstart Hdec ltac:(lia) ltac:(lia) Hcap' E2) as Hframe.
  simpl in Hrows2, Hframe. fold f in Hrows2, Hframe.
  assert (Enn : nn2 = nneigh') by (apply (rows_determine_counts N f _ _ adj2 adj_list'); assumption).
  assert (Eadj : adj2 = adj_list').
  { destruct Hrows2 as (_ & Hwf2 & Hcells2).
    apply matrix_ext; [exact Hwf' | exact Hwf2 | exact Hs2 |].
    intros a b Hin. apply in_matrix_spec in Hin as [Ha Hb].
    destruct (Z_lt_ge_dec a N) as [HaN | HaN].
    - destruct (Z_lt_ge_dec b (Z.of_nat (length (f a)))) as [Hlt | Hge].
      + destruct (lookup_lt_is_Some_2 (f a) (Z.to_nat b) ltac:(lia)) as [y Ey].
        destruct (Hcells a ltac:(lia)) as [_ H1]. destruct (Hcells2 a ltac:(lia)) as [_ H2].
        pose proof (H1 _ _ Ey) as G1. pose proof (H2 _ _ Ey) as G2.
        rewrite Z2Nat.id in G1, G2 by lia. congruence.
      + apply Hframe. intros _. lia.
    - apply Hframe. intros Hx. lia. }
  unfold retrieveAdjacencyLists, plumed_dbg_assert, plumed_assert.
  rewrite Hu, Hn. cbn [bind]. rewrite zero_neighbours_replicate, E2, Enn, Eadj.
  reflexivity.
Qed.

Lemma adjacency_lists_idempotent_witness :
  retrieveAdjacencyLists example_vessel [1; 1; 1; 1] example_adj_list_filled
  = Ok ([1; 1; 1; 1], example_adj_list_filled).
Proof.
  apply (adjacency_lists_idempotent example_vessel 6 [5; 5; 5; 5] [1; 1; 1; 1]
           example_adj_list example_adj_list_filled
           eq_refl eq_refl example_adjacency_table_fits example_adjacency_run).
Defined.

(** ** A table that is too narrow

    The rows of the adjacency table lie one after the other in its store,
    and the neighbours of node [x] are written from the place [x * cl]
    on.  What follows keeps track of the counts only: they do not depend
    on what the table holds. *)

Lemma counts_hold_zero (nneigh : list Z) :
  counts_hold (Z.of_nat (length nneigh)) (neighbours_of []) (replicate (length nneigh) 0).
Proof.
  split; [rewrite length_replicate; reflexivity |].
  intros x Hx. apply vec_get_lookup; [lia |]. apply lookup_replicate_2. lia.
Qed.

(** Appending [b] to the neighbours of [a] succeeds exactly when the place
    after the neighbours recorded so far is inside the store. *)
Lemma push_neighbour_place (N : Z) (f : Z -> list Z) (nn : list Z) (adj : Matrix Z)
      (a b : Z) :
  counts_hold N f nn -> 0 <= a < N -> 0 <= cl adj ->
  Z.of_nat (length (data adj)) < UINT_RANGE ->
  (Z.of_nat (length (f a)) + a * cl adj < Z.of_nat (length (data adj)) ->
   exists nn' adj',
     push_neighbour (nn, adj) a b = Ok (nn', adj')
     /\ same_shape adj adj' /\ length (data adj') = length (data adj)
     /\ counts_hold N (fun x => if x =? a then f x ++ [b] else f x) nn')
  /\ (Z.of_nat (length (data adj)) <= Z.of_nat (length (f a)) + a * cl adj ->
      push_neighbour (nn, adj) a b = Fail Undefined).
Proof.
  intros [Hl Hc] Ha Hcl Hdata.
  assert (H0 : 0 <= a * cl adj) by (apply Z.mul_nonneg_nonneg; lia).
  unfold push_neighbour. rewrite (Hc a Ha). cbn [bind]. unfold mat_set. split.
  - intros Hin. rewrite vec_set_ok by lia. cbn [bind].
    rewrite vec_set_ok by lia. cbn [bind].
    assert (Eu : uadd (Z.of_nat (length (f a))) 1 = Z.of_nat (length (f a)) + 1)
      by (unfold uadd; apply wrap_small; lia).
    rewrite Eu. eexists _, _. split; [reflexivity |].
    split; [split; reflexivity |]. split; [cbn [data]; apply length_insert |].
    split; [rewrite length_insert; exact Hl |].
    intros x Hx. destruct (Z.eqb_spec x a) as [-> | Hne].
    + rewrite vec_get_insert_eq by lia. f_equal. rewrite length_app. simpl. lia.
    + rewrite vec_get_insert_ne by lia. apply Hc, Hx.
  - intros Hout. unfold vec_set at 1.
    destruct (Z.ltb_spec (Z.of_nat (length (f a)) + a * cl adj) (Z.of_nat (length (data adj))));
      [lia |].
    rewrite andb_false_r. reflexivity.
Qed.

(** The loop of the view: it comes to its end exactly when the neighbours
    of every node, written from the place [x * cl] on, stay inside the
    store, and then the counts are the numbers of neighbours. *)
Lemma retrieveAdjacencyLists_places (v : AdjacencyMatrixVessel) (N : Z) (l : list Z) :
  forall (prs : list (Z * Z)) (nn : list Z) (adj : Matrix Z),
  counts_hold N (neighbours_of prs) nn ->
  slots_below v l N -> 0 <= cl adj ->
  Z.of_nat (length (data adj)) < UINT_RANGE ->
  (forall x, 0 <= x < N ->
     Z.of_nat (length (neighbours_of prs x)) + x * cl adj <= Z.of_nat (length (data adj))) ->
  ((forall x, 0 <= x < N ->
      Z.of_nat (length (neighbours_of (prs ++ active_pairs v l) x)) + x * cl adj
      <= Z.of_nat (length (data adj))) ->
   exists nn' adj',
     for_each (retrieveAdjacencyLists_body v) l (nn, adj) = Ok (nn', adj')
     /\ same_shape adj adj' /\ length (data adj') = length (data adj)
     /\ counts_hold N (neighbours_of (prs ++ active_pairs v l)) nn')
  /\ ((exists x, 0 <= x < N
                 /\ Z.of_nat (length (data adj))
                    < Z.of_nat (length (neighbours_of (prs ++ active_pairs v l) x))
                      + x * cl adj) ->
      for_each (retrieveAdjacencyLists_body v) l (nn, adj) = Fail Undefined).
Proof.
  induction l as [| i l IH]; intros prs nn adj Hcount Hdec Hcl Hdata Hsofar.
  - unfold active_pairs, active_slots. simpl. rewrite app_nil_r. split.
    + intros _. exists nn, adj. repeat split. apply Hcount. apply Hcount.
    + intros (x & Hx & Hover). specialize (Hsofar x Hx). lia.
  - assert (Hdec' : slots_below v l N).
    { intros i' Hi'. apply Hdec. right. exact Hi'. }
    rewrite active_pairs_cons. cbn [for_each].
    destruct (storedValueIsActive (base v) i) eqn:Ha.
    + destruct (Hdec i ltac:(left; reflexivity) Ha) as (k & j & Hd & Hk & Hj).
      assert (Ed : decoded v i = (k, j)) by (unfold decoded; rewrite Hd; reflexivity).
      rewrite Ed.
      replace (prs ++ (k, j) :: active_pairs v l)
        with ((prs ++ [(k, j)]) ++ active_pairs v l)
        by (rewrite <- app_assoc; reflexivity).
      rewrite (retrieveAdjacencyLists_body_pushes v nn adj i k j Ha Hd).
      assert (Hgrow : forall x,
                (length (neighbours_of (prs ++ [(k, j)]) x)
                 <= length (neighbours_of ((prs ++ [(k, j)]) ++ active_pairs v l) x))%nat)
        by (intros x; apply neighbours_of_length_app).
      assert (Lk : (length (neighbours_of prs k) + 1
                    <= length (neighbours_of (prs ++ [(k, j)]) k))%nat).
      { rewrite neighbours_of_snoc, Z.eqb_refl.
        destruct (k =? j); rewrite !length_app; simpl; lia. }
      assert (Lj : length (neighbours_of (prs ++ [(k, j)]) j)
                   = S (length (if j =? k then neighbours_of prs j ++ [j]
                                else neighbours_of prs j))).
      { rewrite neighbours_of_snoc, Z.eqb_refl, length_app. simpl. lia. }
      destruct (push_neighbour_place N _ nn adj k j Hcount Hk Hcl Hdata) as [Hok1 Hout1].
      destruct (Z_lt_ge_dec (Z.of_nat (length (neighbours_of prs k)) + k * cl adj)
                            (Z.of_nat (length (data adj)))) as [Hin1 | Hover1].
      * destruct (Hok1 Hin1) as (nn1 & adj1 & E1 & [Hrw1 Hcl1] & Hlen1 & Hcount1).
        rewrite E1. cbn [bind].
        destruct (push_neighbour_place N _ nn1 adj1 j k Hcount1 Hj ltac:(lia) ltac:(lia))
          as [Hok2 Hout2].
        cbn beta in Hok2, Hout2. rewrite Hcl1, Hlen1 in Hok2, Hout2.
        destruct (Z_lt_ge_dec
                    (Z.of_nat (length (if j =? k then neighbours_of prs j ++ [j]
                                       else neighbours_of prs j)) + j * cl adj)
                    (Z.of_nat (length (data adj)))) as [Hin2 | Hover2].
        -- destruct (Hok2 Hin2) as (nn2 & adj2 & E2 & [Hrw2 Hcl2] & Hlen2 & Hcount2).
           rewrite E2.
           assert (Hcount' : counts_hold N (neighbours_of (prs ++ [(k, j)])) nn2).
           { destruct Hcount2 as [Hl2 Hc2]. split; [exact Hl2 |].
             intros x Hx. rewrite (Hc2 x Hx), neighbours_of_snoc. reflexivity. }
           assert (Hsofar' : forall x, 0 <= x < N ->
                     Z.of_nat (length (neighbours_of (prs ++ [(k, j)]) x)) + x * cl adj2
                     <= Z.of_nat (length (data adj2))).
           { intros x Hx. rewrite ?Hcl2, ?Hcl1, ?Hlen2, ?Hlen1.
             destruct (Z.eq_dec x j) as [-> | Hnj]; [rewrite Lj; lia |].
             destruct (Z.eq_dec x k) as [-> | Hnk].
             - rewrite neighbours_of_snoc.
               destruct (Z.eqb_spec k j) as [-> | _]; [contradiction |].
               rewrite Z.eqb_refl, length_app. simpl. lia.
             - rewrite neighbours_of_snoc.
               destruct (Z.eqb_spec x j); [contradiction |].
               destruct (Z.eqb_spec x k); [contradiction |].
               apply Hsofar, Hx. }
           destruct (IH (prs ++ [(k, j)]) nn2 adj2 Hcount' Hdec' ltac:(lia) ltac:(lia) Hsofar')
             as [IHok IHout].
           rewrite ?Hcl2, ?Hcl1, ?Hlen2, ?Hlen1 in IHok, IHout.
           split.
           ++ intros Hall. destruct (IHok Hall) as (nn' & adj' & E & [Hrw Hcl'] & Hlen & Hc').
              exists nn', adj'. split; [exact E |].
              split; [split; congruence |]. split; [congruence | exact Hc'].
           ++ exact IHout.
        -- rewrite (Hout2 ltac:(lia)). split; [| reflexivity].
           intros Hall. specialize (Hall j Hj). specialize (Hgrow j). lia.
      * rewrite (Hout1 ltac:(lia)). split; [| reflexivity].
        intros Hall. specialize (Hall k Hk). specialize (Hgrow k). lia.
    + assert (Eb : retrieveAdjacencyLists_body v (nn, adj) i = Ok (nn, adj)).
      { unfold retrieveAdjacencyLists_body. rewrite Ha. reflexivity. }
      rewrite Eb. cbn [bind].
      apply (IH prs nn adj Hcount Hdec' Hcl Hdata Hsofar).
Qed.

(** The view checks no width.  The neighbours of node [x] are written
    from the place [x * cl] of the store on: when they are more than the
    table is wide they go on into the rows of the following nodes, and
    the view comes to its end as if nothing had happened, with the right
    counts; it is undefined behaviour when they run past the end of the
    store, as those of the last node do as soon as they are more than the
    width.  (The table has no more than 2^31 cells, so that no place
    computed on the way overflows an [unsigned].)  In the store of four
    nodes whose node 0 has the three others as neighbours, a table of
    width one ends up with the neighbours of node 0 in the rows of the
    nodes 1 and 2. *)
Theorem adjacency_row_too_narrow (v : AdjacencyMatrixVessel) (n : Z)
        (nneigh : list Z) (adj_list : Matrix Z) :
  undirectedGraph v = true ->
  getNumberOfStoredValues v = Ok n ->
  mat_wf adj_list ->
  Z.of_nat (length nneigh) <= rw adj_list ->
  2 * (rw adj_list * cl adj_list) <= UINT_RANGE ->
  slots_below v (indices n) (Z.of_nat (length nneigh)) ->
  ((exists x, 0 <= x < Z.of_nat (length nneigh)
              /\ rw adj_list * cl adj_list
                 < Z.of_nat (length (neighbours_of (active_pairs v (indices n)) x))
                   + x * cl adj_list) ->
   retrieveAdjacencyLists v nneigh adj_list = Fail Undefined)
  /\ ((forall x, 0 <= x < Z.of_nat (length nneigh) ->
         Z.of_nat (length (neighbours_of (active_pairs v (indices n)) x)) + x * cl adj_list
         <= rw adj_list * cl adj_list) ->
      exists nneigh' adj_list',
        retrieveAdjacencyLists v nneigh adj_list = Ok (nneigh', adj_list')
        /\ same_shape adj_list adj_list'
        /\ forall x, 0 <= x < Z.of_nat (length nneigh) ->
             vec_get nneigh' x
             = Ok (Z.of_nat (length (neighbours_of (active_pairs v (indices n)) x))))
  /\ retrieveAdjacencyLists hub0_vessel [0; 0; 0; 0] one_column_adj_list
     = Ok ([3; 1; 1; 1], {| rw := 4; cl := 1; data := [1; 2; 3; 0] |}).
Proof.
  intros Hu Hn (Hrw & Hcl & Hlen) HN Hsize Hdec.
  assert (Hsofar : forall x, 0 <= x < Z.of_nat (length nneigh) ->
            Z.of_nat (length (neighbours_of [] x)) + x * cl adj_list
            <= Z.of_nat (length (data adj_list))).
  { intros x Hx. simpl. rewrite Hlen. apply Z.mul_le_mono_nonneg_r; lia. }
  assert (Hdata : Z.of_nat (length (data adj_list)) < UINT_RANGE).
  { assert (0 <= rw adj_list * cl adj_list) by (apply Z.mul_nonneg_nonneg; lia).
    unfold UINT_RANGE in *. lia. }
  destruct (retrieveAdjacencyLists_places v (Z.of_nat (length nneigh)) (indices n) []
              (replicate (length nneigh) 0) adj_list
              (counts_hold_zero nneigh) Hdec Hcl Hdata Hsofar) as [Hok Hout].
  cbn [app] in Hok, Hout. rewrite Hlen in Hok, Hout.
  assert (Erun : retrieveAdjacencyLists v nneigh adj_list
                 = for_each (retrieveAdjacencyLists_body v) (indices n)
                            (replicate (length nneigh) 0, adj_list)).
  { unfold retrieveAdjacencyLists, plumed_dbg_assert, plumed_assert.
    rewrite Hu, Hn. cbn [bind]. rewrite zero_neighbours_replicate. reflexivity. }
  rewrite Erun. split; [exact Hout |]. split.
  - intros Hall. destruct (Hok Hall) as (nn' & adj' & E & Hs & _ & [_ Hc]).
    exists nn', adj'. split; [exact E |]. split; [exact Hs | exact Hc].
  - vm_compute. reflexivity.
Qed.

Lemma hub3_slots_below : slots_below hub3_vessel (indices 6) 4.
Proof.
  intros i Hi Ha. apply In_indices in Hi.
  assert (Hc : i = 0 \/ i = 1 \/ i = 2 \/ i = 3 \/ i = 4 \/ i = 5) by lia.
  destruct Hc as [-> | [-> | [-> | [-> | [-> | ->]]]]]; try discriminate Ha.
  - exists 0, 3. repeat split; lia.
  - exists 1, 3. repeat split; lia.
  - exists 2, 3. repeat split; lia.
Qed.

(** In the store of four nodes whose node 3 has the three others as
    neighbours, a table of width two has no place for the third. *)
Lemma adjacency_row_too_narrow_witness :
  retrieveAdjacencyLists hub3_vessel [0; 0; 0; 0] two_column_adj_list = Fail Undefined.
Proof.
  apply (proj1 (adjacency_row_too_narrow hub3_vessel 6 [0; 0; 0; 0] two_column_adj_list
                  eq_refl eq_refl
                  ltac:(unfold mat_wf; simpl; lia) ltac:(simpl; lia)
                  ltac:(vm_compute; discriminate) hub3_slots_below)).
  exists 3. split; [simpl; lia |]. vm_compute. reflexivity.
Defined.

(** * GYRATION *)

Lemma SFcompare_Lt_swap (x y : spec_float) :
  SFcompare x y = Some Lt -> SFcompare y x = Some Gt.
Proof.
  destruct x as [sx | sx | | sx mx ex], y as [sy | sy | | sy my ey]; simpl;
    try discriminate; try (destruct sx; discriminate);
    try (destruct sy; discriminate);
    try (destruct sx, sy; (discriminate || reflexivity)).
  assert (E : PosDef.Pos.compare_cont Eq my mx = CompOpp (PosDef.Pos.compare_cont Eq mx my)).
  { symmetry. apply (Pos.compare_cont_antisym mx my Eq). }
  rewrite (Z.compare_antisym ex ey), E.
  destruct sx, sy; try discriminate; try reflexivity;
    destruct (ex ?= ey)%Z; simpl; try discriminate; try reflexivity;
    destruct (PosDef.Pos.compare_cont Eq mx my); simpl; discriminate || reflexivity.
Qed.

(** [<] on doubles is asymmetric, also when one side is not a number. *)
Lemma double_ltb_asym (x y : float) : (x <? y)%float = true -> (y <? x)%float = false.
Proof.
  rewrite !FloatAxioms.ltb_spec. unfold SFltb. intros H.
  destruct (SFcompare (Prim2SF x) (Prim2SF y)) as [[| |] |] eqn:E; try discriminate.
  rewrite (SFcompare_Lt_swap _ _ E). reflexivity.
Qed.

Lemma three_indices_permuted (a b c : Z) :
  Permutation [c; b; a] [a; b; c] /\ Permutation [b; c; a] [a; b; c]
  /\ Permutation [c; a; b] [a; b; c] /\ Permutation [b; a; c] [a; b; c]
  /\ Permutation [a; c; b] [a; b; c].
Proof.
  assert (Hs : forall x y z : Z, Permutation [x; z; y] [x; y; z])
    by (intros; apply perm_skip, perm_swap).
  assert (Hw : forall x y z : Z, Permutation [y; x; z] [x; y; z])
    by (intros; apply perm_swap).
  repeat split; auto.
  - apply perm_trans with [b; c; a]; [apply Hw |].
    apply perm_trans with [b; a; c]; [apply Hs | apply Hw].
  - apply perm_trans with [b; a; c]; [apply Hs | apply Hw].
  - apply perm_trans with [a; c; b]; [apply Hw | apply Hs].
Qed.

(** After the three compare-and-swap steps no principal component is
    smaller than the next one, the three components are the given ones in
    another order, and the columns of the transformation matrix have been
    reordered in the same way: each eigenvalue keeps its eigenvector. *)
Theorem Gyration_principal_components_sorted
        (princ_comp : Gyration.vector3) (transf : Gyration.matrix3) :
  exists sigma : Z -> Z,
    Permutation [sigma 0; sigma 1; sigma 2] [0; 1; 2]
    /\ (forall c, In c [0; 1; 2] ->
          fst (Gyration.sort_principal_components (princ_comp, transf)) c
          = princ_comp (sigma c)
          /\ forall i, In i [0; 1; 2] ->
               snd (Gyration.sort_principal_components (princ_comp, transf)) i c
               = transf i (sigma c))
    /\ PrimFloat.ltb (fst (Gyration.sort_principal_components (princ_comp, transf)) 0)
                     (fst (Gyration.sort_principal_components (princ_comp, transf)) 1)
       = false
    /\ PrimFloat.ltb (fst (Gyration.sort_principal_components (princ_comp, transf)) 1)
                     (fst (Gyration.sort_principal_components (princ_comp, transf)) 2)
       = false.
Proof.
  assert (P := three_indices_permuted 0 1 2).
  destruct P as (P1 & P2 & P3 & P4 & P5).
  unfold Gyration.sort_principal_components, Gyration.compare_swap.
  destruct (PrimFloat.ltb (princ_comp 0) (princ_comp 1)) eqn:H01; cbn.
  - (* components 0 and 1 exchanged *)
    destruct (PrimFloat.ltb (princ_comp 0) (princ_comp 2)) eqn:H02; cbn.
    + destruct (PrimFloat.ltb (princ_comp 1) (princ_comp 2)) eqn:H12; cbn.
      * exists (fun c => if c =? 0 then 2 else if c =? 1 then 1 else 0).
        split; [exact P1 |].
        split; [intros c [<- | [<- | [<- | []]]]; (split; [reflexivity |]);
                intros i [<- | [<- | [<- | []]]]; reflexivity |].
        split; apply double_ltb_asym; assumption.
      * exists (fun c => if c =? 0 then 1 else if c =? 1 then 2 else 0).
        split; [exact P2 |].
        split; [intros c [<- | [<- | [<- | []]]]; (split; [reflexivity |]);
                intros i [<- | [<- | [<- | []]]]; reflexivity |].
        split; [exact H12 | apply double_ltb_asym; assumption].
    + rewrite (double_ltb_asym _ _ H01); cbn.
      exists (fun c => if c =? 0 then 1 else if c =? 1 then 0 else 2).
      split; [exact P4 |].
      split; [intros c [<- | [<- | [<- | []]]]; (split; [reflexivity |]);
              intros i [<- | [<- | [<- | []]]]; reflexivity |].
      split; [apply double_ltb_asym; assumption | exact H02].
  - destruct (PrimFloat.ltb (princ_comp 1) (princ_comp 2)) eqn:H12; cbn.
    + destruct (PrimFloat.ltb (princ_comp 0) (princ_comp 2)) eqn:H02; cbn.
      * exists (fun c => if c =? 0 then 2 else if c =? 1 then 0 else 1).
        split; [exact P3 |].
        split; [intros c [<- | [<- | [<- | []]]]; (split; [reflexivity |]);
                intros i [<- | [<- | [<- | []]]]; reflexivity |].
        split; [apply double_ltb_asym; assumption | exact H01].
      * exists (fun c => if c =? 0 then 0 else if c =? 1 then 2 else 1).
        split; [exact P5 |].
        split; [intros c [<- | [<- | [<- | []]]]; (split; [reflexivity |]);
                intros i [<- | [<- | [<- | []]]]; reflexivity |].
        split; [exact H02 | apply double_ltb_asym; assumption].
    + rewrite H01; cbn.
      exists (fun c => c).
      split; [reflexivity |].
      split; [intros c [<- | [<- | [<- | []]]]; (split; [reflexivity |]);
              intros i [<- | [<- | [<- | []]]]; reflexivity |].
      split; assumption.
Qed.
(** * NOE *)

Lemma for_each_app {I St : Type} (body : St -> I -> result St) (l1 l2 : list I) (st : St) :
  for_each body (l1 ++ l2) st = do st' <- for_each body l1 st; for_each body l2 st'.
Proof.
  revert st. induction l1 as [| i l1 IH]; intros st; [reflexivity |].
  cbn [app for_each]. destruct (body st i) as [st' | e]; cbn [bind]; [apply IH | reflexivity].
Qed.

Lemma for_each_ext {I St : Type} (f g : St -> I -> result St) (l : list I) (st : St) :
  (forall s i, In i l -> f s i = g s i) -> for_each f l st = for_each g l st.
Proof.
  revert st. induction l as [| i l IH]; intros st H; [reflexivity |].
  cbn [for_each]. rewrite (H st i) by (left; reflexivity).
  destruct (g st i) as [st' | e]; cbn [bind]; [| reflexivity].
  apply IH. intros s i' Hi'. apply H. right. exact Hi'.
Qed.

Lemma for_each_total {I St : Type} (f : St -> I -> result St) (l : list I) (st : St) :
  (forall s i, exists s', f s i = Ok s') -> exists st', for_each f l st = Ok st'.
Proof.
  intros H. revert st. induction l as [| i l IH]; intros st; [exists st; reflexivity |].
  cbn [for_each]. destruct (H st i) as [s' ->]. cbn [bind]. apply IH.
Qed.

Lemma indices_succ (n : Z) : 0 <= n -> indices (n + 1) = indices n ++ [n].
Proof.
  intros Hn. unfold indices.
  replace (Z.to_nat (n + 1)) with (S (Z.to_nat n)) by lia.
  rewrite seq_S, map_app. simpl. rewrite Z2Nat.id by lia. reflexivity.
Qed.

Lemma indices_range (n : Z) : indices n = NOE.range 0 n.
Proof.
  unfold indices, NOE.range. rewrite Z.sub_0_r. apply map_ext. intros k. lia.
Qed.

Lemma range_cons (lo hi : Z) : lo < hi -> NOE.range lo hi = lo :: NOE.range (lo + 1) hi.
Proof.
  intros H. unfold NOE.range.
  replace (Z.to_nat (hi - lo)) with (S (Z.to_nat (hi - (lo + 1)))) by lia.
  cbn [seq map]. f_equal; [lia |].
  rewrite <- seq_shift, map_map. apply map_ext. intros k. lia.
Qed.

Lemma range_nil (lo hi : Z) : hi <= lo -> NOE.range lo hi = [].
Proof.
  intros H. unfold NOE.range. replace (Z.to_nat (hi - lo)) with 0%nat by lia. reflexivity.
Qed.

(** ** The offsets *)

Lemma offset_0 (nga : list Z) : NOE.offset nga 0 = 0.
Proof. reflexivity. Qed.

Lemma offset_succ (nga : list Z) (i n : Z) :
  0 <= i -> nga !! Z.to_nat i = Some n -> NOE.offset nga (i + 1) = NOE.offset nga i + n.
Proof.
  intros Hi E. unfold NOE.offset.
  replace (Z.to_nat (i + 1)) with (S (Z.to_nat i)) by lia.
  rewrite (take_S_r _ _ _ E).
  generalize (take (Z.to_nat i) nga) as l.
  induction l as [| x l IH]; simpl; [lia | rewrite IH; lia].
Qed.

Lemma sum_take_nonneg (nga : list Z) (b : nat) :
  (forall n, In n nga -> 0 <= n) -> 0 <= fold_right Z.add 0 (take b nga).
Proof.
  revert b. induction nga as [| x l IH]; intros b Hpos; destruct b; simpl; try lia.
  assert (0 <= x) by (apply Hpos; left; reflexivity).
  assert (0 <= fold_right Z.add 0 (take b l)); [| lia].
  apply IH. intros n Hn. apply Hpos. right. exact Hn.
Qed.

Lemma offset_mono (nga : list Z) (i j : Z) :
  (forall n, In n nga -> 0 <= n) -> 0 <= i <= j -> NOE.offset nga i <= NOE.offset nga j.
Proof.
  intros Hpos [Hi Hij]. unfold NOE.offset.
  assert (Hle : (Z.to_nat i <= Z.to_nat j)%nat) by lia.
  revert Hle. generalize (Z.to_nat i) as a. generalize (Z.to_nat j) as b.
  clear i j Hi Hij. induction nga as [| x l IH]; intros b a Hle.
  - destruct a, b; simpl; lia.
  - destruct a as [| a]; [apply (sum_take_nonneg (x :: l) b Hpos) |].
    destruct b as [| b]; [lia |]. simpl.
    assert (fold_right Z.add 0 (take a l) <= fold_right Z.add 0 (take b l)); [| lia].
    apply IH; [| lia]. intros n Hn. apply Hpos. right. exact Hn.
Qed.

Lemma offset_nonneg (nga : list Z) (i : Z) :
  (forall n, In n nga -> 0 <= n) -> 0 <= NOE.offset nga i.
Proof. intros Hpos. apply sum_take_nonneg. exact Hpos. Qed.

Lemma offset_past_the_end (nga : list Z) (i : Z) :
  Z.of_nat (length nga) <= i -> NOE.offset nga i = fold_right Z.add 0 nga.
Proof. intros H. unfold NOE.offset. rewrite take_ge by lia. reflexivity. Qed.

(** ** The inner loop: the running [index] in closed form *)

Lemma couples_inner {St : Type} (visit : Z -> Z -> Z -> St -> result St) (i : Z)
      (k a : nat) (index : Z) (s : St) :
  0 <= index -> index + Z.of_nat k < UINT_RANGE ->
  for_each (fun '(index, s) j => do s' <- visit i j index s; Ok (uadd index 1, s'))
           (map Z.of_nat (seq a k)) (index, s)
  = do s' <- for_each (fun s j => visit i j (index + (j - Z.of_nat a)) s)
                      (map Z.of_nat (seq a k)) s;
    Ok (index + Z.of_nat k, s').
Proof.
  revert a index s. induction k as [| k IH]; intros a index s H0 Hk.
  - cbn. rewrite Z.add_0_r. reflexivity.
  - cbn [seq map for_each]. rewrite Z.sub_diag, Z.add_0_r.
    destruct (visit i (Z.of_nat a) index s) as [s' | e]; cbn [bind]; [| reflexivity].
    assert (E : uadd index 1 = index + 1) by (unfold uadd; apply wrap_small; lia).
    rewrite E, (IH (S a) (index + 1) s') by lia.
    rewrite (for_each_ext (fun s j => visit i j (index + 1 + (j - Z.of_nat (S a))) s)
                          (fun s j => visit i j (index + (j - Z.of_nat a)) s)).
    + destruct (for_each _ _ s'); cbn [bind]; [f_equal; f_equal; lia | reflexivity].
    + intros s0 j _. f_equal. lia.
Qed.

Lemma couples_closed {St : Type} (visit : Z -> Z -> Z -> St -> result St)
      (nga : list Z) (i n index : Z) (s : St) :
  0 <= i -> nga !! Z.to_nat i = Some n -> 0 <= n ->
  index = NOE.offset nga i -> (forall n, In n nga -> 0 <= n) ->
  NOE.offset nga (i + 1) < UINT_RANGE ->
  NOE.couples visit nga i (index, s)
  = do s' <- NOE.couples_of visit nga s i; Ok (NOE.offset nga (i + 1), s').
Proof.
  intros Hi E Hn -> Hpos Hlt. unfold NOE.couples, NOE.couples_of.
  rewrite (vec_get_lookup _ _ _ Hi E). cbn [bind].
  rewrite (offset_succ _ _ _ Hi E) in *.
  pose proof (offset_nonneg nga i Hpos) as H0.
  rewrite (nth_lookup_Some _ _ 0 _ E).
  unfold indices. rewrite couples_inner by lia.
  rewrite (for_each_ext (fun s j => visit i j (NOE.offset nga i + (j - Z.of_nat 0)) s)
                        (fun s j => visit i j (NOE.offset nga i + j) s)).
  - rewrite Z2Nat.id by lia. reflexivity.
  - intros s0 j _. f_equal. simpl. lia.
Qed.

(** ** The loop nest over all the couples *)

Lemma all_couples_prefix {St : Type} (first : Z -> St -> result St)
      (visit : Z -> Z -> Z -> St -> result St) (nga : list Z) (s : St) (n : nat) :
  (forall n, In n nga -> 0 <= n) ->
  fold_right Z.add 0 nga < UINT_RANGE ->
  (n <= length nga)%nat ->
  for_each (fun '(index, s) i => do s' <- first i s; NOE.couples visit nga i (index, s'))
           (indices (Z.of_nat n)) (0, s)
  = do s' <- for_each (fun s i => do s' <- first i s; NOE.couples_of visit nga s' i)
                      (indices (Z.of_nat n)) s;
    Ok (NOE.offset nga (Z.of_nat n), s').
Proof.
  intros Hpos Htot. induction n as [| n IH]; intros Hn; [reflexivity |].
  replace (Z.of_nat (S n)) with (Z.of_nat n + 1) by lia.
  rewrite indices_succ by lia. rewrite !for_each_app, IH by lia.
  destruct (for_each _ (indices (Z.of_nat n)) s) as [s1 | e]; cbn [bind]; [| reflexivity].
  cbn [for_each]. destruct (first (Z.of_nat n) s1) as [s2 | e]; cbn [bind]; [| reflexivity].
  destruct (lookup_lt_is_Some_2 nga n) as [x E]; [lia |].
  assert (E' : nga !! Z.to_nat (Z.of_nat n) = Some x) by (rewrite Nat2Z.id; exact E).
  assert (Hx : 0 <= x).
  { apply Hpos. apply list_elem_of_In. apply (list_elem_of_lookup_2 _ _ _ E). }
  assert (Hlt : NOE.offset nga (Z.of_nat n + 1) < UINT_RANGE).
  { rewrite <- (offset_past_the_end nga (Z.of_nat (length nga))) in Htot by lia.
    pose proof (offset_mono nga (Z.of_nat n + 1) (Z.of_nat (length nga)) Hpos). lia. }
  rewrite (couples_closed visit nga (Z.of_nat n) x (NOE.offset nga (Z.of_nat n)) s2
             ltac:(lia) E' Hx eq_refl Hpos Hlt).
  destruct (NOE.couples_of visit nga s2 (Z.of_nat n)); reflexivity.
Qed.

Lemma all_couples_closed {St : Type} (first : Z -> St -> result St)
      (visit : Z -> Z -> Z -> St -> result St) (nga : list Z) (s : St) :
  (forall n, In n nga -> 0 <= n) ->
  fold_right Z.add 0 nga < UINT_RANGE ->
  NOE.all_couples first visit nga (Z.of_nat (length nga)) s
  = for_each (fun s i => do s' <- first i s; NOE.couples_of visit nga s' i)
             (indices (Z.of_nat (length nga))) s.
Proof.
  intros Hpos Htot. unfold NOE.all_couples.
  rewrite (all_couples_prefix first visit nga s (length nga) Hpos Htot) by lia.
  destruct (for_each _ _ s); reflexivity.
Qed.

(** ** Skipping the couples of other NOEs *)

Lemma range_app (lo mid hi : Z) :
  lo <= mid <= hi -> NOE.range lo hi = NOE.range lo mid ++ NOE.range mid hi.
Proof.
  intros H. remember (Z.to_nat (mid - lo)) as k eqn:Ek.
  revert lo H Ek. induction k as [| k IH]; intros lo H Ek.
  - assert (lo = mid) by lia. subst lo. rewrite (range_nil mid mid) by lia. reflexivity.
  - rewrite (range_cons lo hi), (range_cons lo mid) by lia.
    rewrite (IH (lo + 1)) by lia. reflexivity.
Qed.

Lemma skip_couples_ok (nga : list Z) (lo hi index : Z) :
  (forall n, In n nga -> 0 <= n) ->
  0 <= lo <= hi -> hi <= Z.of_nat (length nga) ->
  0 <= index -> index + (NOE.offset nga hi - NOE.offset nga lo) < UINT_RANGE ->
  NOE.skip_couples nga (NOE.range lo hi) index
  = Ok (index + (NOE.offset nga hi - NOE.offset nga lo)).
Proof.
  intros Hpos H. remember (Z.to_nat (hi - lo)) as k eqn:Ek.
  revert lo index H Ek. induction k as [| k IH]; intros lo index H Ek Hhi H0 Hlt.
  - assert (lo = hi) by lia. subst lo. rewrite range_nil by lia.
    cbn. f_equal. lia.
  - rewrite range_cons by lia. unfold NOE.skip_couples. cbn [for_each].
    destruct (lookup_lt_is_Some_2 nga (Z.to_nat lo)) as [x E]; [lia |].
    rewrite (vec_get_lookup _ _ _ (proj1 H) E). cbn [bind].
    assert (Hx : 0 <= x).
    { apply Hpos. apply list_elem_of_In. apply (list_elem_of_lookup_2 _ _ _ E). }
    pose proof (offset_succ nga lo x (proj1 H) E) as Es.
    pose proof (offset_mono nga (lo + 1) hi Hpos) as Hm.
    assert (Eu : uadd index x = index + x) by (unfold uadd; apply wrap_small; lia).
    rewrite Eu. fold (NOE.skip_couples nga (NOE.range (lo + 1) hi) (index + x)).
    rewrite (IH (lo + 1) (index + x)) by lia. f_equal. lia.
Qed.

Lemma skip_couples_past (nga : list Z) (lo hi index : Z) :
  (forall n, In n nga -> 0 <= n) ->
  0 <= lo <= Z.of_nat (length nga) -> Z.of_nat (length nga) < hi ->
  0 <= index ->
  index + (NOE.offset nga (Z.of_nat (length nga)) - NOE.offset nga lo) < UINT_RANGE ->
  NOE.skip_couples nga (NOE.range lo hi) index = Fail Undefined.
Proof.
  intros Hpos Hlo Hhi H0 Hlt.
  rewrite (range_app lo (Z.of_nat (length nga)) hi) by lia.
  unfold NOE.skip_couples. rewrite for_each_app.
  fold (NOE.skip_couples nga (NOE.range lo (Z.of_nat (length nga))) index).
  rewrite skip_couples_ok by (auto; lia). cbn [bind].
  rewrite range_cons by lia. cbn [for_each].
  unfold vec_get. destruct (Z.leb_spec 0 (Z.of_nat (length nga))); [| lia].
  rewrite lookup_ge_None_2 by lia. reflexivity.
Qed.

(** ** The NOEs of a rank *)

Lemma filter_none {A : Type} (f : A -> bool) (l : list A) :
  (forall x, In x l -> f x = false) -> List.filter f l = [].
Proof.
  induction l as [| x l IH]; intros H; [reflexivity |].
  simpl. rewrite (H x) by (left; reflexivity). apply IH.
  intros y Hy. apply H. right. exact Hy.
Qed.

Lemma noes_of_rank_end (sga stride rank : Z) :
  sga <= rank -> NOE.noes_of_rank sga stride rank = [].
Proof.
  intros H. unfold NOE.noes_of_rank. apply filter_none.
  intros i Hi. apply In_indices in Hi.
  destruct (Z.leb_spec rank i); [lia | reflexivity].
Qed.

Lemma noes_of_rank_step (sga stride i : Z) :
  0 < stride -> 0 <= i < sga ->
  NOE.noes_of_rank sga stride i = i :: NOE.noes_of_rank sga stride (i + stride).
Proof.
  intros Hs Hi. unfold NOE.noes_of_rank.
  destruct (indices_split sga i Hi) as (later & -> & Hlater).
  rewrite !List.filter_app. cbn [List.filter].
  rewrite !(filter_none _ (indices i)).
  - rewrite Z.leb_refl, Z.sub_diag, Z.mod_0_l by lia. cbn [andb Z.eqb app].
    destruct (Z.leb_spec (i + stride) i); [lia |]. cbn [andb].
    f_equal. apply List.filter_ext_in. intros i' Hi'. apply Hlater in Hi'.
    replace (i' - (i + stride)) with (i' - i + (-1) * stride) by lia.
    rewrite Z.mod_add by lia.
    destruct (Z.eqb_spec ((i' - i) mod stride) 0) as [E | E].
    + rewrite !andb_true_r.
      destruct (Z.leb_spec i i'); [| lia].
      destruct (Z.leb_spec (i + stride) i'); [reflexivity |].
      exfalso. pose proof (Z.div_mod (i' - i) stride ltac:(lia)) as D.
      rewrite E in D. remember ((i' - i) / stride) as q.
      assert (Hq : q <= 0 \/ 1 <= q) by lia. destruct Hq; nia.
    + rewrite !andb_false_r. reflexivity.
  - intros x Hx. apply In_indices in Hx.
    destruct (Z.leb_spec (i + stride) x); [lia | reflexivity].
  - intros x Hx. apply In_indices in Hx.
    destruct (Z.leb_spec i x); [lia | reflexivity].
Qed.

Lemma In_noes_of_rank (sga stride rank i : Z) :
  In i (NOE.noes_of_rank sga stride rank)
  <-> rank <= i /\ 0 <= i < sga /\ (i - rank) mod stride = 0.
Proof.
  unfold NOE.noes_of_rank. rewrite List.filter_In, In_indices, andb_true_iff.
  rewrite Z.leb_le, Z.eqb_eq. tauto.
Qed.

(** ** The loop of a rank *)

Lemma stride_fits (sga stride i : Z) :
  0 < stride -> 0 <= i < sga -> (sga - i) mod stride = 0 -> i + stride <= sga.
Proof.
  intros Hs Hi E. pose proof (Z.div_mod (sga - i) stride ltac:(lia)) as D.
  rewrite E in D. remember ((sga - i) / stride) as q.
  assert (Hq : q <= 0 \/ 1 <= q) by lia. destruct Hq; nia.
Qed.

Lemma stride_mod (sga stride i : Z) :
  0 < stride -> (sga - (i + stride)) mod stride = (sga - i) mod stride.
Proof.
  intros Hs. replace (sga - (i + stride)) with (sga - i + (-1) * stride) by lia.
  apply Z.mod_add. lia.
Qed.

Section FirstLoop.
Context {St : Type}.
Variable accumulate : Z -> Z -> Z -> St -> result St.
Variable nga : list Z.
Variable sga stride : Z.
Hypothesis Hsga : sga = Z.of_nat (length nga).
Hypothesis Hstride : 0 < stride.
Hypothesis Hwrap : sga + stride <= UINT_RANGE.
Hypothesis Hpos : forall n, In n nga -> 0 <= n.
Hypothesis Htot : fold_right Z.add 0 nga < UINT_RANGE.

Lemma offset_below (i : Z) : 0 <= i -> 0 <= NOE.offset nga i < UINT_RANGE.
Proof.
  intros Hi. split; [apply offset_nonneg; exact Hpos |].
  destruct (Z.le_gt_cases i sga) as [H | H].
  - rewrite <- (offset_past_the_end nga sga) in Htot by lia.
    pose proof (offset_mono nga i sga Hpos). lia.
  - rewrite offset_past_the_end by lia. exact Htot.
Qed.

(** One turn of the loop of a rank that stays inside [nga]. *)
Lemma first_loop_turn (i : Z) (s : St) :
  0 <= i < sga -> i + stride <= sga ->
  (do '(index', s') <- NOE.couples accumulate nga i (NOE.offset nga i, s);
   do index'' <- NOE.skip_couples nga (NOE.range (uadd i 1) (uadd i stride)) index';
   Ok (index'', s'))
  = do s' <- NOE.couples_of accumulate nga s i; Ok (NOE.offset nga (i + stride), s').
Proof.
  intros Hi Hfit.
  destruct (lookup_lt_is_Some_2 nga (Z.to_nat i)) as [x E]; [lia |].
  assert (Hx : 0 <= x).
  { apply Hpos. apply list_elem_of_In. apply (list_elem_of_lookup_2 _ _ _ E). }
  rewrite (couples_closed accumulate nga i x (NOE.offset nga i) s
             ltac:(lia) E Hx eq_refl Hpos (proj2 (offset_below (i + 1) ltac:(lia)))).
  destruct (NOE.couples_of accumulate nga s i) as [s' | e]; cbn [bind]; [| reflexivity].
  assert (E1 : uadd i 1 = i + 1) by (unfold uadd; apply wrap_small; unfold UINT_RANGE in *; lia).
  assert (E2 : uadd i stride = i + stride)
    by (unfold uadd; apply wrap_small; unfold UINT_RANGE in *; lia).
  rewrite E1, E2.
  pose proof (offset_below (i + 1) ltac:(lia)).
  pose proof (offset_below (i + stride) ltac:(lia)).
  rewrite skip_couples_ok by (auto; lia). cbn [bind]. f_equal. f_equal. lia.
Qed.

(** The last turn of a rank whose stride overshoots the end of [nga]. *)
Lemma first_loop_overshoot (i : Z) (s : St) :
  (forall i j index s, exists s', accumulate i j index s = Ok s') ->
  0 <= i < sga -> sga < i + stride ->
  (do '(index', s') <- NOE.couples accumulate nga i (NOE.offset nga i, s);
   do index'' <- NOE.skip_couples nga (NOE.range (uadd i 1) (uadd i stride)) index';
   Ok (index'', s'))
  = Fail Undefined.
Proof.
  intros Hacc Hi Hover.
  destruct (lookup_lt_is_Some_2 nga (Z.to_nat i)) as [x E]; [lia |].
  assert (Hx : 0 <= x).
  { apply Hpos. apply list_elem_of_In. apply (list_elem_of_lookup_2 _ _ _ E). }
  rewrite (couples_closed accumulate nga i x (NOE.offset nga i) s
             ltac:(lia) E Hx eq_refl Hpos (proj2 (offset_below (i + 1) ltac:(lia)))).
  destruct (for_each_total (fun s j => accumulate i j (NOE.offset nga i + j) s)
              (indices (nth (Z.to_nat i) nga 0)) s) as [s' Es'].
  { intros s0 j. apply Hacc. }
  unfold NOE.couples_of. rewrite Es'. cbn [bind].
  assert (E1 : uadd i 1 = i + 1) by (unfold uadd; apply wrap_small; unfold UINT_RANGE in *; lia).
  assert (E2 : uadd i stride = i + stride)
    by (unfold uadd; apply wrap_small; unfold UINT_RANGE in *; lia).
  rewrite E1, E2.
  pose proof (offset_below (i + 1) ltac:(lia)).
  pose proof (offset_below sga ltac:(lia)).
  rewrite skip_couples_past; [reflexivity | exact Hpos | lia | lia | lia |].
  rewrite <- Hsga. lia.
Qed.

Lemma first_loop_ok (fuel : nat) (i : Z) (s : St) :
  0 <= i <= sga -> (sga - i) mod stride = 0 -> sga - i <= Z.of_nat fuel ->
  NOE.first_loop accumulate fuel nga sga stride i (NOE.offset nga i) s
  = Some (do s' <- for_each (NOE.couples_of accumulate nga)
                            (NOE.noes_of_rank sga stride i) s;
          Ok (NOE.offset nga sga, s')).
Proof.
  revert i s. induction fuel as [| fuel IH]; intros i s Hi Hmod Hfuel.
  - assert (i = sga) by lia. subst i. cbn [NOE.first_loop].
    rewrite Z.ltb_irrefl, noes_of_rank_end by lia. reflexivity.
  - cbn [NOE.first_loop]. destruct (Z.ltb_spec i sga) as [Hlt | Hge].
    + pose proof (stride_fits sga stride i Hstride ltac:(lia) Hmod) as Hfit.
      rewrite first_loop_turn by lia.
      rewrite noes_of_rank_step by lia. cbn [for_each].
      destruct (NOE.couples_of accumulate nga s i) as [s' | e]; cbn [bind]; [| reflexivity].
      assert (E2 : uadd i stride = i + stride)
        by (unfold uadd; apply wrap_small; unfold UINT_RANGE in *; lia).
      rewrite E2. apply IH; [lia | | lia].
      rewrite stride_mod by lia. exact Hmod.
    + assert (i = sga) by lia. subst i.
      rewrite noes_of_rank_end by lia. reflexivity.
Qed.

Lemma first_loop_past (fuel : nat) (i : Z) (s : St) :
  (forall i j index s, exists s', accumulate i j index s = Ok s') ->
  0 <= i < sga -> (sga - i) mod stride <> 0 -> sga - i <= Z.of_nat fuel ->
  NOE.first_loop accumulate fuel nga sga stride i (NOE.offset nga i) s
  = Some (Fail Undefined).
Proof.
  intros Hacc. revert i s. induction fuel as [| fuel IH]; intros i s Hi Hmod Hfuel; [lia |].
  cbn [NOE.first_loop]. destruct (Z.ltb_spec i sga) as [Hlt | Hge]; [| lia].
  destruct (Z.lt_trichotomy (i + stride) sga) as [H | [H | H]].
  - rewrite first_loop_turn by lia.
    destruct (for_each_total (fun s j => accumulate i j (NOE.offset nga i + j) s)
                (indices (nth (Z.to_nat i) nga 0)) s) as [s' Es'].
    { intros s0 j. apply Hacc. }
    unfold NOE.couples_of at 1. rewrite Es'. cbn [bind].
    assert (E2 : uadd i stride = i + stride)
      by (unfold uadd; apply wrap_small; unfold UINT_RANGE in *; lia).
    rewrite E2. apply IH; [lia | | lia].
    rewrite stride_mod by lia. exact Hmod.
  - exfalso. apply Hmod. replace (sga - i) with (1 * stride) by lia.
    apply Z.mod_mul. lia.
  - rewrite first_loop_overshoot by (auto; lia). reflexivity.
Qed.

End FirstLoop.

Lemma offset_inside (nga : list Z) (i j : Z) :
  (forall n, In n nga -> 0 <= n) ->
  0 <= i < Z.of_nat (length nga) -> 0 <= j < nth (Z.to_nat i) nga 0 ->
  NOE.offset nga i <= NOE.offset nga i + j < NOE.offset nga (i + 1).
Proof.
  intros Hpos Hi Hj.
  destruct (lookup_lt_is_Some_2 nga (Z.to_nat i)) as [x E]; [lia |].
  rewrite (nth_lookup_Some _ _ 0 _ E) in Hj.
  rewrite (offset_succ nga i x (proj1 Hi) E). lia.
Qed.

Lemma calculate_closed {St : Type}
      (accumulate : Z -> Z -> Z -> St -> result St) (getNumberOfAtoms : Z)
      (sum_over_ranks : St -> result St)
      (set_component : Z -> St -> result St)
      (set_derivatives : Z -> Z -> Z -> St -> result St)
      (noe : NOE.NOE) (comm_size comm_rank stride rank sga : Z) (fuel : nat) (s : St) :
  sga = Z.of_nat (length (NOE.nga noe)) ->
  stride = (if NOE.serial noe then 1 else comm_size) ->
  rank = (if NOE.serial noe then 0 else comm_rank) ->
  (forall n, In n (NOE.nga noe) -> 0 <= n) ->
  fold_right Z.add 0 (NOE.nga noe) < UINT_RANGE ->
  0 < stride -> sga + stride <= UINT_RANGE ->
  0 <= rank <= sga -> (sga - rank) mod stride = 0 ->
  (length (NOE.nga noe) <= fuel)%nat ->
  NOE.calculate accumulate getNumberOfAtoms sum_over_ranks set_component set_derivatives
                fuel noe comm_size comm_rank s
  = Some (do s1 <- for_each (NOE.couples_of accumulate (NOE.nga noe))
                            (NOE.noes_of_rank sga stride rank) s;
          do s2 <- (if NOE.serial noe then Ok s1
                    else if (sga =? 0) || (getNumberOfAtoms =? 0) then Fail Undefined
                         else sum_over_ranks s1);
          for_each (fun s i => do s' <- set_component i s;
                               NOE.couples_of set_derivatives (NOE.nga noe) s' i)
                   (indices sga) s2).
Proof.
  intros Hsga Hstride Hrank Hpos Htot Hs Hwrap Hr Hmod Hfuel.
  unfold NOE.calculate. rewrite <- Hstride, <- Hrank.
  assert (Esz : NOE.size (NOE.nga noe) = sga).
  { unfold NOE.size. rewrite <- Hsga. apply wrap_small. lia. }
  rewrite Esz, indices_range.
  pose proof (offset_below (NOE.nga noe) sga Hsga Hpos Htot rank ltac:(lia)) as Hb.
  rewrite skip_couples_ok; [| exact Hpos | lia | lia | lia | rewrite offset_0; lia].
  rewrite offset_0, Z.sub_0_r, Z.add_0_l.
  rewrite (first_loop_ok accumulate (NOE.nga noe) sga stride Hsga Hs Hwrap Hpos Htot)
    by lia.
  destruct (for_each _ (NOE.noes_of_rank sga stride rank) s) as [s1 | e];
    cbn [bind]; [| reflexivity].
  f_equal.
  destruct (if NOE.serial noe then Ok s1
            else if (sga =? 0) || (getNumberOfAtoms =? 0) then Fail Undefined
                 else sum_over_ranks s1) as [s2 | e]; cbn [bind]; [| reflexivity].
  rewrite Hsga. rewrite all_couples_closed by assumption. reflexivity.
Qed.

Lemma couples_of_total {St : Type} (accumulate : Z -> Z -> Z -> St -> result St)
      (nga l : list Z) (s : St) :
  (forall i j index s, exists s', accumulate i j index s = Ok s') ->
  exists s', for_each (NOE.couples_of accumulate nga) l s = Ok s'.
Proof.
  intros Hacc. apply for_each_total. intros s0 i. unfold NOE.couples_of.
  apply for_each_total. intros s1 j. apply Hacc.
Qed.

(** On a rank whose stride lands on the end of [nga] (always, in a serial
    run) the running [index] is what the offsets say: the rank deals with
    the NOEs [rank], [rank+stride], ..., the [j]-th couple of the [i]-th
    NOE is the pair number [nga[0]+...+nga[i-1]+j] of the neighbour list
    in the first loop as in the second, every such number is below the
    number of couples, and two NOEs never share a pair.  A serial run
    completes, and so does a parallel run with one NOE and one atom at
    least; with no NOE or no atom a parallel run hands to [comm.Sum] the
    first element of an empty vector, which is undefined. *)
Theorem NOE_calculate_couples {St : Type}
        (accumulate : Z -> Z -> Z -> St -> result St) (getNumberOfAtoms : Z)
        (sum_over_ranks : St -> result St)
        (set_component : Z -> St -> result St)
        (set_derivatives : Z -> Z -> Z -> St -> result St)
        (noe : NOE.NOE) (comm_size comm_rank stride rank sga : Z) (fuel : nat) (s : St) :
  sga = Z.of_nat (length (NOE.nga noe)) ->
  stride = (if NOE.serial noe then 1 else comm_size) ->
  rank = (if NOE.serial noe then 0 else comm_rank) ->
  (forall n, In n (NOE.nga noe) -> 0 <= n) ->
  fold_right Z.add 0 (NOE.nga noe) < UINT_RANGE ->
  0 < stride -> sga + stride <= UINT_RANGE ->
  0 <= rank <= sga -> (sga - rank) mod stride = 0 ->
  (length (NOE.nga noe) <= fuel)%nat ->
  ((NOE.serial noe = false -> sga <> 0 /\ getNumberOfAtoms <> 0) ->
   NOE.calculate accumulate getNumberOfAtoms sum_over_ranks set_component set_derivatives
                 fuel noe comm_size comm_rank s
   = Some (do s1 <- for_each (NOE.couples_of accumulate (NOE.nga noe))
                             (NOE.noes_of_rank sga stride rank) s;
           do s2 <- (if NOE.serial noe then Ok s1 else sum_over_ranks s1);
           for_each (fun s i => do s' <- set_component i s;
                                NOE.couples_of set_derivatives (NOE.nga noe) s' i)
                    (indices sga) s2))
  /\ (NOE.serial noe = false -> sga = 0 \/ getNumberOfAtoms = 0 ->
      (forall i j index s, exists s', accumulate i j index s = Ok s') ->
      NOE.calculate accumulate getNumberOfAtoms sum_over_ranks set_component set_derivatives
                    fuel noe comm_size comm_rank s
      = Some (Fail Undefined))
  /\ (forall i j, 0 <= i < sga -> 0 <= j < nth (Z.to_nat i) (NOE.nga noe) 0 ->
        0 <= NOE.offset (NOE.nga noe) i + j < fold_right Z.add 0 (NOE.nga noe))
  /\ (forall i i' j j', 0 <= i < i' -> i' < sga ->
        0 <= j < nth (Z.to_nat i) (NOE.nga noe) 0 -> 0 <= j' ->
        NOE.offset (NOE.nga noe) i + j < NOE.offset (NOE.nga noe) i' + j').
Proof.
  intros Hsga Hstride Hrank Hpos Htot Hs Hwrap Hr Hmod Hfuel.
  pose proof (calculate_closed accumulate getNumberOfAtoms sum_over_ranks set_component
                set_derivatives noe comm_size comm_rank stride rank sga fuel s
                Hsga Hstride Hrank Hpos Htot Hs Hwrap Hr Hmod Hfuel) as E.
  split; [| split; [| split]].
  - intros Hnonempty. rewrite E.
    destruct (NOE.serial noe); [reflexivity |].
    destruct (Hnonempty eq_refl) as [H1 H2].
    destruct (Z.eqb_spec sga 0); [contradiction |].
    destruct (Z.eqb_spec getNumberOfAtoms 0); [contradiction |]. reflexivity.
  - intros Hser Hempty Hacc. rewrite E, Hser.
    destruct (couples_of_total accumulate (NOE.nga noe)
                (NOE.noes_of_rank sga stride rank) s Hacc) as [s1 ->].
    cbn [bind].
    assert (Ec : (sga =? 0) || (getNumberOfAtoms =? 0) = true).
    { destruct Hempty as [-> | ->]; [reflexivity | apply orb_true_r]. }
    rewrite Ec. reflexivity.
  - intros i j Hi Hj.
    pose proof (offset_inside (NOE.nga noe) i j Hpos ltac:(lia) Hj).
    pose proof (offset_nonneg (NOE.nga noe) i Hpos).
    pose proof (offset_mono (NOE.nga noe) (i + 1) sga Hpos ltac:(lia)).
    rewrite <- (offset_past_the_end (NOE.nga noe) sga) by lia. lia.
  - intros i i' j j' Hi Hi' Hj Hj'.
    pose proof (offset_inside (NOE.nga noe) i j Hpos ltac:(lia) Hj).
    pose proof (offset_mono (NOE.nga noe) (i + 1) i' Hpos ltac:(lia)). lia.
Qed.

(** A rank of a parallel run whose stride does not land on the end of
    [nga] adds [nga[k]] for some [k] past the end, and so does a rank above
    the number of NOEs when it looks for its first pair.  With two
    processes or more there always is such a rank. *)
Theorem NOE_parallel_ranks_read_past_the_end {St : Type}
        (accumulate : Z -> Z -> Z -> St -> result St) (getNumberOfAtoms : Z)
        (sum_over_ranks : St -> result St)
        (set_component : Z -> St -> result St)
        (set_derivatives : Z -> Z -> Z -> St -> result St)
        (noe : NOE.NOE) (comm_size sga : Z) :
  sga = Z.of_nat (length (NOE.nga noe)) ->
  NOE.serial noe = false ->
  (forall i j index s, exists s', accumulate i j index s = Ok s') ->
  (forall n, In n (NOE.nga noe) -> 0 <= n) ->
  fold_right Z.add 0 (NOE.nga noe) < UINT_RANGE ->
  0 < comm_size -> sga + comm_size <= UINT_RANGE ->
  (forall comm_rank fuel s,
      0 <= comm_rank ->
      sga < comm_rank \/ (comm_rank < sga /\ (sga - comm_rank) mod comm_size <> 0) ->
      (length (NOE.nga noe) <= fuel)%nat ->
      NOE.calculate accumulate getNumberOfAtoms sum_over_ranks set_component set_derivatives
                    fuel noe comm_size comm_rank s
      = Some (Fail Undefined))
  /\ (2 <= comm_size ->
      exists comm_rank,
        0 <= comm_rank < comm_size
        /\ forall fuel s,
            (length (NOE.nga noe) <= fuel)%nat ->
            NOE.calculate accumulate getNumberOfAtoms sum_over_ranks set_component set_derivatives
                          fuel noe comm_size comm_rank s
            = Some (Fail Undefined)).
Proof.
  intros Hsga Hser Hacc Hpos Htot Hs Hwrap.
  assert (Esz : NOE.size (NOE.nga noe) = sga).
  { unfold NOE.size. rewrite <- Hsga. apply wrap_small. lia. }
  assert (Hpast : forall comm_rank fuel s,
      0 <= comm_rank ->
      sga < comm_rank \/ (comm_rank < sga /\ (sga - comm_rank) mod comm_size <> 0) ->
      (length (NOE.nga noe) <= fuel)%nat ->
      NOE.calculate accumulate getNumberOfAtoms sum_over_ranks set_component set_derivatives
                    fuel noe comm_size comm_rank s
      = Some (Fail Undefined)).
  { intros comm_rank fuel s Hr Hcase Hfuel.
    unfold NOE.calculate. rewrite Hser, Esz, indices_range.
    pose proof (offset_below (NOE.nga noe) sga Hsga Hpos Htot sga ltac:(lia)) as Hb.
    destruct Hcase as [Hover | [Hlt Hmod]].
    - rewrite skip_couples_past; [reflexivity | exact Hpos | lia | lia | lia |].
      rewrite offset_0, <- Hsga. lia.
    - pose proof (offset_below (NOE.nga noe) sga Hsga Hpos Htot comm_rank ltac:(lia)) as Hb'.
      rewrite skip_couples_ok; [| exact Hpos | lia | lia | lia | rewrite offset_0; lia].
      rewrite offset_0, Z.sub_0_r, Z.add_0_l.
      rewrite (first_loop_past accumulate (NOE.nga noe) sga comm_size Hsga Hs Hwrap Hpos Htot)
        by (auto; lia).
      reflexivity. }
  split; [exact Hpast |].
  intros H2.
  destruct (Z.eq_dec sga 0) as [E0 | Hne0].
  - exists 1. split; [lia |]. intros fuel s Hfuel.
    apply Hpast; [lia | left; lia | exact Hfuel].
  - destruct (Z.eq_dec (sga mod comm_size) 0) as [Em | Hm].
    + exists 1. split; [lia |]. intros fuel s Hfuel.
      assert (Hge : comm_size <= sga).
      { pose proof (Z.div_mod sga comm_size ltac:(lia)) as D. rewrite Em in D.
        remember (sga / comm_size) as q.
        assert (Hq : q <= 0 \/ 1 <= q) by lia. destruct Hq; nia. }
      apply Hpast; [lia | right | exact Hfuel]. split; [lia |].
      intros E1.
      pose proof (Z.div_mod sga comm_size ltac:(lia)) as D. rewrite Em in D.
      pose proof (Z.div_mod (sga - 1) comm_size ltac:(lia)) as D1. rewrite E1 in D1.
      remember (sga / comm_size) as q. remember ((sga - 1) / comm_size) as q1.
      assert (comm_size * (q - q1) = 1) by lia.
      assert (Hq : q - q1 <= 0 \/ 1 <= q - q1) by lia. destruct Hq; nia.
    + exists 0. split; [lia |]. intros fuel s Hfuel.
      apply Hpast; [lia | right | exact Hfuel]. split; [lia |].
      rewrite Z.sub_0_r. exact Hm.
Qed.

(** ** The constructor *)

Lemma read_GROUPA_given (kw : list (list NOE.AtomNumber))
      (ga_lista : list NOE.AtomNumber) (nga : list Z) :
  NOE.read_GROUPA kw ga_lista nga
  = (ga_lista ++ concat (NOE.given kw), nga ++ map NOE.size (NOE.given kw)).
Proof.
  revert ga_lista nga. induction kw as [| t kw IH]; intros ga_lista nga.
  - simpl. rewrite !app_nil_r. reflexivity.
  - destruct t as [| a t].
    + simpl. rewrite !app_nil_r. reflexivity.
    + cbn [NOE.read_GROUPA NOE.given concat map]. rewrite IH.
      rewrite <- !app_assoc. reflexivity.
Qed.

Lemma vec_get_last {T : Type} (l : list T) (x : T) (i : Z) :
  i = Z.of_nat (length l) -> vec_get (l ++ [x]) i = Ok x.
Proof.
  intros ->. apply vec_get_lookup; [lia |].
  rewrite Nat2Z.id. apply list_lookup_middle. reflexivity.
Qed.

Lemma vec_get_past {T : Type} (l : list T) (i : Z) :
  Z.of_nat (length l) <= i -> vec_get l i = Fail Undefined.
Proof.
  intros H. unfold vec_get. destruct (Z.leb_spec 0 i); [| reflexivity].
  rewrite lookup_ge_None_2 by lia. reflexivity.
Qed.

Lemma read_GROUPB_built (nga : list Z) (kw : list (list NOE.AtomNumber)) (i : Z)
      (gb_lista gb_lista' : list NOE.AtomNumber) (ngb ngb' : list Z) :
  i = Z.of_nat (length ngb) + 1 ->
  NOE.read_GROUPB nga kw i gb_lista ngb = NOE.Built (gb_lista', ngb') ->
  gb_lista' = gb_lista ++ concat (NOE.given kw)
  /\ ngb' = ngb ++ map NOE.size (NOE.given kw)
  /\ forall k t, NOE.given kw !! k = Some t ->
                 nga !! (length ngb + k)%nat = Some (NOE.size t).
Proof.
  revert i gb_lista ngb. induction kw as [| t kw IH]; intros i gb_lista ngb Hi Hb.
  - simpl in *. injection Hb as <- <-. rewrite !app_nil_r.
    repeat split. intros k t Hk. rewrite lookup_nil in Hk. discriminate.
  - destruct t as [| a t].
    + simpl in *. injection Hb as <- <-. rewrite !app_nil_r.
      repeat split. intros k t Hk. rewrite lookup_nil in Hk. discriminate.
    + cbn [NOE.read_GROUPB NOE.given concat map] in *.
      rewrite (vec_get_last ngb (NOE.size (a :: t)) (i - 1)) in Hb by lia.
      cbn [NOE.of_result NOE.and_then] in Hb.
      destruct (vec_get nga (i - 1)) as [x |] eqn:Ex; cbn [NOE.of_result NOE.and_then] in Hb;
        [| discriminate].
      destruct (Z.eqb_spec (NOE.size (a :: t)) x) as [Eq | Hne]; cbn [negb] in Hb;
        [| discriminate].
      apply IH in Hb; [| rewrite length_app; simpl; lia].
      destruct Hb as (-> & -> & Hk). rewrite <- !app_assoc.
      repeat split. intros k t' Hk'.
      apply vec_get_inv in Ex as [_ Ex].
      destruct k as [| k].
      * simpl in Hk'. injection Hk' as <-. rewrite Nat.add_0_r.
        replace (length ngb) with (Z.to_nat (i - 1)) by lia. rewrite Ex, Eq. reflexivity.
      * simpl in Hk'. specialize (Hk k t' Hk').
        rewrite length_app in Hk. simpl in Hk.
        replace (length ngb + S k)%nat with (length ngb + 1 + k)%nat by lia. exact Hk.
Qed.

Lemma read_GROUPB_out (nga : list Z) (kw : list (list NOE.AtomNumber)) (i : Z)
      (gb_lista : list NOE.AtomNumber) (ngb : list Z) :
  i = Z.of_nat (length ngb) + 1 ->
  (length ngb <= length nga)%nat ->
  (length nga - length ngb < length (NOE.given kw))%nat ->
  (forall k t, NOE.given kw !! k = Some t -> (length ngb + k < length nga)%nat ->
               nga !! (length ngb + k)%nat = Some (NOE.size t)) ->
  NOE.read_GROUPB nga kw i gb_lista ngb = NOE.OutOfRange.
Proof.
  revert i gb_lista ngb. induction kw as [| t kw IH]; intros i gb_lista ngb Hi Hle Hlen Hsame.
  - simpl in Hlen. lia.
  - destruct t as [| a t]; [simpl in Hlen; lia |].
    cbn [NOE.read_GROUPB NOE.given length] in *.
    rewrite (vec_get_last ngb (NOE.size (a :: t)) (i - 1)) by lia.
    cbn [NOE.of_result NOE.and_then].
    destruct (Nat.eq_dec (length ngb) (length nga)) as [E | Hne].
    + rewrite vec_get_past by lia. reflexivity.
    + specialize (Hsame 0%nat (a :: t) eq_refl ltac:(lia)) as H0.
      rewrite Nat.add_0_r in H0.
      rewrite (vec_get_lookup nga (i - 1) (NOE.size (a :: t))); [| lia |].
      * cbn [NOE.of_result NOE.and_then]. rewrite Z.eqb_refl. cbn [negb].
        apply IH.
        -- rewrite length_app. simpl. lia.
        -- rewrite length_app. simpl. lia.
        -- rewrite length_app. simpl. lia.
        -- intros k t' Hk Hlt. rewrite length_app in *. simpl in *.
           replace (length ngb + 1 + k)%nat with (length ngb + S k)%nat by lia.
           apply Hsame; [exact Hk | lia].
      * replace (Z.to_nat (i - 1)) with (length ngb) by lia. exact H0.
Qed.

Lemma sum_sizes (groups : list (list NOE.AtomNumber)) :
  Z.of_nat (length (concat groups)) < UINT_RANGE ->
  fold_right Z.add 0 (map NOE.size groups) = Z.of_nat (length (concat groups))
  /\ forall t, In t groups -> NOE.size t = Z.of_nat (length t).
Proof.
  induction groups as [| t groups IH]; intros Hlt.
  - split; [reflexivity | intros t []].
  - cbn [concat map fold_right] in *. rewrite length_app in *.
    destruct IH as [IH1 IH2]; [lia |].
    assert (Et : NOE.size t = Z.of_nat (length t)).
    { unfold NOE.size. apply wrap_small. lia. }
    split; [rewrite IH1, Et; lia |].
    intros t' [<- | Ht']; [exact Et | apply IH2; exact Ht'].
Qed.

Lemma given_nonempty (kw : list (list NOE.AtomNumber)) (t : list NOE.AtomNumber) :
  In t (NOE.given kw) -> (0 < length t)%nat.
Proof.
  induction kw as [| t' kw IH]; [intros [] |].
  destruct t' as [| a t']; [intros [] |].
  cbn [NOE.given]. intros [<- | H]; [simpl; lia | apply IH; exact H].
Qed.

Lemma given_count (kw : list (list NOE.AtomNumber)) :
  (length (NOE.given kw) <= length (concat (NOE.given kw)))%nat.
Proof.
  induction kw as [| t kw IH]; [simpl; lia |].
  destruct t as [| a t]; [simpl; lia |].
  cbn [NOE.given concat length]. rewrite length_app. simpl. lia.
Qed.

Lemma read_NOEDIST_built (kw : list (option float)) (k a : nat)
      (noedist noedist' : list float) (ntarget ntarget' : Z) :
  0 <= ntarget -> ntarget + Z.of_nat k < UINT_RANGE ->
  NOE.read_NOEDIST kw (map Z.of_nat (seq a k)) noedist ntarget
  = NOE.Built (noedist', ntarget') ->
  length noedist' = length noedist
  /\ ntarget <= ntarget' <= ntarget + Z.of_nat k
  /\ (forall i, (a <= i < a + Z.to_nat (ntarget' - ntarget))%nat ->
        exists x, kw !! i = Some (Some x) /\ noedist' !! i = Some x)
  /\ (forall i, (i < a)%nat -> noedist' !! i = noedist !! i).
Proof.
  revert a noedist ntarget. induction k as [| k IH]; intros a noedist ntarget H0 Hlt Hb.
  - simpl in Hb. injection Hb as <- <-. repeat split; try lia; intros i Hi; first [lia | reflexivity].
  - cbn [seq map NOE.read_NOEDIST] in Hb. rewrite Nat2Z.id in Hb.
    destruct (kw !! a) as [[x |] |] eqn:Ekw.
    + destruct (vec_set noedist (Z.of_nat a) x) as [nd1 |] eqn:Es;
        cbn [NOE.of_result NOE.and_then] in Hb; [| discriminate].
      apply vec_set_inv in Es as [Ha ->]. rewrite Nat2Z.id in Hb.
      assert (Eu : uadd ntarget 1 = ntarget + 1) by (unfold uadd; apply wrap_small; lia).
      rewrite Eu in Hb. apply IH in Hb; [| lia | lia].
      destruct Hb as (Hlen & Hnt & Hfound & Hkeep).
      rewrite length_insert in Hlen.
      repeat split; try lia.
      * intros i Hi. destruct (Nat.eq_dec i a) as [-> | Hne].
        -- exists x. split; [exact Ekw |].
           rewrite Hkeep by lia. apply list_lookup_insert_eq. lia.
        -- apply Hfound. lia.
      * intros i Hi. rewrite Hkeep by lia. apply list_lookup_insert_ne. lia.
    + injection Hb as <- <-. repeat split; try lia; intros i Hi; first [lia | reflexivity].
    + injection Hb as <- <-. repeat split; try lia; intros i Hi; first [lia | reflexivity].
Qed.

(** A constructed [NOE] holds what the neighbour list and [calculate]
    rely on: the two lists of atoms are the given groups one after the
    other, the GROUPB keywords are as many as the GROUPA keywords and have
    the same sizes, so that the two lists are as long as each other; [nga]
    holds the sizes, none of them zero, and sums up to the number of
    pairs; with ADDDISTANCES there is one NOEDIST for each NOE. *)
Theorem NOE_constructor_invariants (ao : NOE.ActionOptions) (noe : NOE.NOE) :
  NOE.new_NOE ao = NOE.Built noe ->
  Z.of_nat (length (concat (NOE.given (NOE.GROUPA ao)))) < UINT_RANGE ->
  Z.of_nat (length (concat (NOE.given (NOE.GROUPB ao)))) < UINT_RANGE ->
  NOE.serial noe = NOE.SERIAL ao
  /\ NOE.pbc noe = negb (NOE.NOPBC ao)
  /\ NOE.ga_lista noe = concat (NOE.given (NOE.GROUPA ao))
  /\ NOE.gb_lista noe = concat (NOE.given (NOE.GROUPB ao))
  /\ NOE.nga noe = map (fun t => Z.of_nat (length t)) (NOE.given (NOE.GROUPA ao))
  /\ map (@length _) (NOE.given (NOE.GROUPA ao)) = map (@length _) (NOE.given (NOE.GROUPB ao))
  /\ length (NOE.ga_lista noe) = length (NOE.gb_lista noe)
  /\ fold_right Z.add 0 (NOE.nga noe) = Z.of_nat (length (NOE.ga_lista noe))
  /\ (forall n, In n (NOE.nga noe) -> 0 < n)
  /\ (NOE.ADDDISTANCES ao = true ->
      length (NOE.noedist noe) = length (NOE.nga noe)
      /\ forall i x, NOE.noedist noe !! i = Some x -> NOE.NOEDIST ao !! i = Some (Some x)).
Proof.
  intros Hb HA HB. unfold NOE.new_NOE in Hb. rewrite read_GROUPA_given in Hb.
  cbn [app] in Hb.
  destruct (NOE.read_GROUPB _ _ 1 [] []) as [[gb ngb] | m |] eqn:EB;
    cbn [NOE.and_then] in Hb; try discriminate.
  apply read_GROUPB_built in EB as (Egb & Engb & Hsame); [| reflexivity].
  cbn [app length Nat.add] in Egb, Engb, Hsame. subst gb ngb.
  destruct (Z.eqb_spec (Z.of_nat (length (map NOE.size (NOE.given (NOE.GROUPA ao)))))
                       (Z.of_nat (length (map NOE.size (NOE.given (NOE.GROUPB ao))))))
    as [Elen | Hne]; cbn [negb] in Hb; [| discriminate].
  rewrite !length_map in Elen.
  destruct (sum_sizes _ HA) as [SA SzA]. destruct (sum_sizes _ HB) as [SB SzB].
  assert (EA : map NOE.size (NOE.given (NOE.GROUPA ao))
               = map (fun t => Z.of_nat (length t)) (NOE.given (NOE.GROUPA ao))).
  { apply map_ext_in. exact SzA. }
  assert (EBs : map NOE.size (NOE.given (NOE.GROUPB ao))
                = map (fun t => Z.of_nat (length t)) (NOE.given (NOE.GROUPB ao))).
  { apply map_ext_in. exact SzB. }
  assert (Esizes : map NOE.size (NOE.given (NOE.GROUPA ao))
                   = map NOE.size (NOE.given (NOE.GROUPB ao))).
  { apply list_eq. intros k.
    destruct (NOE.given (NOE.GROUPB ao) !! k) as [t |] eqn:Et.
    - rewrite (Hsame k t Et). rewrite list_lookup_fmap, Et. reflexivity.
    - rewrite (list_lookup_fmap NOE.size (NOE.given (NOE.GROUPB ao))), Et. simpl.
      apply lookup_ge_None_2. rewrite length_map.
      apply lookup_ge_None_1 in Et. lia. }
  assert (Elens : map (@length _) (NOE.given (NOE.GROUPA ao))
                  = map (@length _) (NOE.given (NOE.GROUPB ao))).
  { rewrite EA, EBs in Esizes.
    apply (f_equal (map Z.to_nat)) in Esizes. rewrite !map_map in Esizes.
    rewrite !(map_ext (fun x : list NOE.AtomNumber => Z.to_nat (Z.of_nat (length x)))
                      (@length NOE.AtomNumber) (fun x => Nat2Z.id (length x))) in Esizes.
    exact Esizes. }
  assert (Hcouples : length (concat (NOE.given (NOE.GROUPA ao)))
                     = length (concat (NOE.given (NOE.GROUPB ao)))).
  { rewrite Esizes in SA. lia. }
  assert (Hposn : forall n, In n (map NOE.size (NOE.given (NOE.GROUPA ao))) -> 0 < n).
  { intros n Hn. rewrite EA in Hn. apply in_map_iff in Hn as (t & <- & Ht).
    apply given_nonempty in Ht. lia. }
  destruct (NOE.ADDDISTANCES ao) eqn:Eadd.
  - destruct (NOE.read_NOEDIST _ _ _ 0) as [[nd nt] | m |] eqn:ER;
      cbn [NOE.and_then] in Hb; try discriminate.
    destruct (Z.eqb_spec nt (Z.of_nat (length (map NOE.size (NOE.given (NOE.GROUPA ao))))))
      as [Ent | Hne]; cbn [negb NOE.and_then] in Hb; [| discriminate].
    unfold indices in ER. rewrite Nat2Z.id in ER.
    pose proof (given_count (NOE.GROUPA ao)) as Hc.
    apply read_NOEDIST_built in ER; [| lia | rewrite length_map; lia].
    destruct ER as (Hlen & Hnt & Hfound & _).
    rewrite length_replicate in Hlen.
    destruct (NOE.log_couples _ _ _) as [lg | e]; cbn [NOE.of_result NOE.and_then] in Hb;
      [| discriminate].
    destruct (NOE.exp_components _ nd) as [exps | e]; cbn [NOE.of_result NOE.and_then] in Hb;
      [| discriminate].
    destruct (NOE.checkRead _) as [u | m |]; cbn [NOE.and_then] in Hb; try discriminate.
    injection Hb as <-. cbn.
    repeat (split; [first [reflexivity | assumption] |]).
    intros i x Hi. apply lookup_lt_Some in Hi as Hlt.
    destruct (Hfound i) as (x' & Hkw & Hx'); [lia |].
    rewrite Hx' in Hi. injection Hi as <-. exact Hkw.
  - cbn [NOE.and_then] in Hb.
    destruct (NOE.log_couples _ _ _) as [lg | e]; cbn [NOE.of_result NOE.and_then] in Hb;
      [| discriminate].
    destruct (NOE.checkRead _) as [u | m |]; cbn [NOE.and_then] in Hb; try discriminate.
    injection Hb as <-. cbn.
    repeat (split; [first [reflexivity | assumption] |]).
    intros Hf. discriminate.
Qed.

(** When the GROUPB keywords are more than the GROUPA keywords the
    constructor does not get to its message about their number: comparing
    the sizes of the first group without a partner it reads [nga] past its
    end. *)
Theorem NOE_more_GROUPB_than_GROUPA (ao : NOE.ActionOptions) :
  (length (NOE.given (NOE.GROUPA ao)) < length (NOE.given (NOE.GROUPB ao)))%nat ->
  (forall k a b, NOE.given (NOE.GROUPA ao) !! k = Some a ->
                 NOE.given (NOE.GROUPB ao) !! k = Some b ->
                 NOE.size a = NOE.size b) ->
  NOE.new_NOE ao = NOE.OutOfRange.
Proof.
  intros Hmore Hsame. unfold NOE.new_NOE. rewrite read_GROUPA_given. cbn [app].
  rewrite read_GROUPB_out; [reflexivity | reflexivity | simpl; lia | | ].
  - rewrite length_map. simpl. lia.
  - intros k b Hb Hlt. rewrite length_map in Hlt. simpl in Hlt. simpl.
    destruct (lookup_lt_is_Some_2 (NOE.given (NOE.GROUPA ao)) k) as [a Ha]; [lia |].
    rewrite list_lookup_fmap, Ha. simpl. f_equal. apply (Hsame k a b Ha Hb).
Qed.

Lemma for_each_ok_in {I St : Type} (f : St -> I -> result St) (l : list I) (st : St) :
  (forall s i, In i l -> exists s', f s i = Ok s') -> exists st', for_each f l st = Ok st'.
Proof.
  revert st. induction l as [| i l IH]; intros st H; [exists st; reflexivity |].
  cbn [for_each]. destruct (H st i) as [s' ->]; [left; reflexivity |]. cbn [bind].
  apply IH. intros s0 i' Hi'. apply H. right. exact Hi'.
Qed.

Lemma read_GROUPB_ok (nga : list Z) (kw : list (list NOE.AtomNumber)) (i : Z)
      (gb_lista : list NOE.AtomNumber) (ngb : list Z) :
  i = Z.of_nat (length ngb) + 1 ->
  (forall k t, NOE.given kw !! k = Some t ->
               nga !! (length ngb + k)%nat = Some (NOE.size t)) ->
  NOE.read_GROUPB nga kw i gb_lista ngb
  = NOE.Built (gb_lista ++ concat (NOE.given kw), ngb ++ map NOE.size (NOE.given kw)).
Proof.
  revert i gb_lista ngb. induction kw as [| t kw IH]; intros i gb_lista ngb Hi Hsame.
  - simpl. rewrite !app_nil_r. reflexivity.
  - destruct t as [| a t]; [simpl; rewrite !app_nil_r; reflexivity |].
    cbn [NOE.read_GROUPB NOE.given concat map] in *.
    rewrite (vec_get_last ngb (NOE.size (a :: t)) (i - 1)) by lia.
    cbn [NOE.of_result NOE.and_then].
    pose proof (Hsame 0%nat (a :: t) eq_refl) as H0. rewrite Nat.add_0_r in H0.
    rewrite (vec_get_lookup nga (i - 1) (NOE.size (a :: t))); [| lia |].
    + cbn [NOE.of_result NOE.and_then]. rewrite Z.eqb_refl. cbn [negb].
      rewrite IH.
      * rewrite <- !app_assoc. reflexivity.
      * rewrite length_app. simpl. lia.
      * intros k t' Hk. rewrite length_app. simpl.
        replace (length ngb + 1 + k)%nat with (length ngb + S k)%nat by lia.
        apply Hsame. exact Hk.
    + replace (Z.to_nat (i - 1)) with (length ngb) by lia. exact H0.
Qed.

Lemma read_NOEDIST_ok (kw : list (option float)) (k a : nat)
      (noedist : list float) (ntarget : Z) :
  (a + k <= length noedist)%nat ->
  (forall i, (a <= i < a + k)%nat -> exists x, kw !! i = Some (Some x)) ->
  0 <= ntarget -> ntarget + Z.of_nat k < UINT_RANGE ->
  exists noedist',
    NOE.read_NOEDIST kw (map Z.of_nat (seq a k)) noedist ntarget
    = NOE.Built (noedist', ntarget + Z.of_nat k).
Proof.
  revert a noedist ntarget. induction k as [| k IH]; intros a noedist ntarget Hlen Hkw H0 Hlt.
  - exists noedist. simpl. rewrite Z.add_0_r. reflexivity.
  - cbn [seq map NOE.read_NOEDIST]. rewrite Nat2Z.id.
    destruct (Hkw a) as [x ->]; [lia |].
    rewrite vec_set_ok by lia. cbn [NOE.of_result NOE.and_then].
    assert (Eu : uadd ntarget 1 = ntarget + 1) by (unfold uadd; apply wrap_small; lia).
    rewrite Eu.
    destruct (IH (S a) (<[Z.to_nat (Z.of_nat a) := x]> noedist) (ntarget + 1))
      as [nd' E']; [rewrite length_insert; lia | intros i Hi; apply Hkw; lia | lia | lia |].
    exists nd'. rewrite E'. f_equal. f_equal. lia.
Qed.

Lemma same_lengths_concat {T : Type} (l l' : list (list T)) :
  map (@length _) l = map (@length _) l' -> length (concat l) = length (concat l').
Proof.
  revert l'. induction l as [| a l IH]; intros [| b l'] H; try discriminate; [reflexivity |].
  cbn [map concat] in *. injection H as Hab Hl. rewrite !length_app, Hab, (IH l' Hl).
  reflexivity.
Qed.

(** When the GROUPB keywords are as many as the GROUPA keywords with the
    same sizes and, with ADDDISTANCES, a NOEDIST is given for each of
    them, none of the loops of the constructor leaves its vectors, and the
    closing check decides: the input is accepted when every word of the
    line has been read, and refused when one is left, a group after a
    missing one, a NOEDIST without ADDDISTANCES or past the last NOE, or a
    word that is no keyword. *)
Theorem NOE_constructor_accepts (ao : NOE.ActionOptions) :
  map (@length _) (NOE.given (NOE.GROUPA ao)) = map (@length _) (NOE.given (NOE.GROUPB ao)) ->
  Z.of_nat (length (concat (NOE.given (NOE.GROUPA ao)))) < UINT_RANGE ->
  (NOE.ADDDISTANCES ao = true ->
   forall i, (i < length (NOE.given (NOE.GROUPA ao)))%nat ->
             exists x, NOE.NOEDIST ao !! i = Some (Some x)) ->
  (NOE.unread_keywords ao (length (NOE.given (NOE.GROUPA ao)))
                       (length (NOE.given (NOE.GROUPB ao)))
                       (if NOE.ADDDISTANCES ao then length (NOE.given (NOE.GROUPA ao))
                        else 0%nat) = false ->
   exists noe, NOE.new_NOE ao = NOE.Built noe)
  /\ (NOE.unread_keywords ao (length (NOE.given (NOE.GROUPA ao)))
                          (length (NOE.given (NOE.GROUPB ao)))
                          (if NOE.ADDDISTANCES ao then length (NOE.given (NOE.GROUPA ao))
                           else 0%nat) = true ->
      NOE.new_NOE ao = NOE.Error NOE.CannotUnderstand).
Proof.
  intros Hlens HA Hdist.
  assert (Esz : map NOE.size (NOE.given (NOE.GROUPA ao))
                = map NOE.size (NOE.given (NOE.GROUPB ao))).
  { unfold NOE.size.
    rewrite <- (map_map (@length _) (fun n => wrap (Z.of_nat n)) (NOE.given (NOE.GROUPA ao))).
    rewrite <- (map_map (@length _) (fun n => wrap (Z.of_nat n)) (NOE.given (NOE.GROUPB ao))).
    rewrite Hlens. reflexivity. }
  assert (Hcount : length (NOE.given (NOE.GROUPA ao)) = length (NOE.given (NOE.GROUPB ao))).
  { apply (f_equal (@length _)) in Hlens. rewrite !length_map in Hlens. exact Hlens. }
  assert (Hcat : length (concat (NOE.given (NOE.GROUPA ao)))
                 = length (concat (NOE.given (NOE.GROUPB ao)))).
  { apply same_lengths_concat. exact Hlens. }
  destruct (sum_sizes _ HA) as [SA SzA].
  pose proof (given_count (NOE.GROUPA ao)) as Hc.
  set (nga := map NOE.size (NOE.given (NOE.GROUPA ao))) in *.
  assert (Hlen : length nga = length (NOE.given (NOE.GROUPA ao)))
    by (unfold nga; apply length_map).
  assert (Hpos : forall n, In n nga -> 0 <= n).
  { intros n Hn. unfold nga in Hn. apply in_map_iff in Hn as (t & <- & Ht).
    rewrite (SzA t Ht). lia. }
  unfold NOE.new_NOE. rewrite read_GROUPA_given. cbn [app]. fold nga.
  rewrite read_GROUPB_ok; [| reflexivity |].
  2:{ intros k t Hk. cbn [length Nat.add]. rewrite Esz.
      rewrite list_lookup_fmap, Hk. reflexivity. }
  cbn [app NOE.and_then]. rewrite <- Esz.
  rewrite Z.eqb_refl. cbn [negb].
  assert (Hlog : exists lg,
             NOE.log_couples nga (concat (NOE.given (NOE.GROUPA ao)))
                             (concat (NOE.given (NOE.GROUPB ao))) = Ok lg).
  { unfold NOE.log_couples. rewrite all_couples_closed by (auto; lia).
    apply for_each_ok_in. intros lg i Hi. apply In_indices in Hi.
    destruct (vec_get_ok nga i Hi) as [n ->]. cbn [bind].
    apply for_each_ok_in. intros lg' j Hj. apply In_indices in Hj.
    pose proof (offset_inside nga i j Hpos Hi Hj) as Hin.
    pose proof (offset_nonneg nga i Hpos) as H0.
    pose proof (offset_mono nga (i + 1) (Z.of_nat (length nga)) Hpos ltac:(lia)) as Hm.
    rewrite (offset_past_the_end nga (Z.of_nat (length nga))) in Hm by lia.
    destruct (vec_get_ok (concat (NOE.given (NOE.GROUPA ao))) (NOE.offset nga i + j))
      as [a ->]; [lia |].
    destruct (vec_get_ok (concat (NOE.given (NOE.GROUPB ao))) (NOE.offset nga i + j))
      as [b ->]; [lia |].
    cbn [bind]. eexists. reflexivity. }
  destruct Hlog as [lg Elg].
  destruct (NOE.ADDDISTANCES ao) eqn:Eadd.
  - unfold indices. rewrite Nat2Z.id.
    destruct (read_NOEDIST_ok (NOE.NOEDIST ao) (length nga) 0
                (replicate (length nga) 0%float) 0) as [nd End].
    + rewrite length_replicate. lia.
    + intros i Hi. apply Hdist; [reflexivity | lia].
    + lia.
    + lia.
    + rewrite End. cbn [NOE.and_then]. rewrite Z.add_0_l, Z.eqb_refl. cbn [negb NOE.and_then].
      rewrite Elg. cbn [NOE.of_result NOE.and_then].
      apply read_NOEDIST_built in End as (Hnd & _); [| lia | lia].
      rewrite length_replicate in Hnd.
      destruct (for_each_ok_in
                  (fun cs i => do x <- vec_get nd i; Ok (cs ++ [NOE.exp_ i x]))
                  (map Z.of_nat (seq 0 (length nga))) []) as [exps Eexps].
      { intros cs i Hi. apply in_map_iff in Hi as (k & <- & Hk). apply in_seq in Hk.
        destruct (vec_get_ok nd (Z.of_nat k)) as [x ->]; [lia |].
        cbn [bind]. eexists. reflexivity. }
      unfold NOE.exp_components, indices. rewrite Nat2Z.id, Eexps.
      cbn [NOE.of_result NOE.and_then]. rewrite ?Nat2Z.id, ?length_map, Hlen, <- Hcount.
      split; intros HU; rewrite HU; cbn [NOE.checkRead NOE.and_then];
        [eexists; reflexivity | reflexivity].
  - cbn [NOE.and_then]. rewrite Elg. cbn [NOE.of_result NOE.and_then].
    rewrite ?length_map, Hlen, <- Hcount.
    split; intros HU; rewrite HU; cbn [NOE.checkRead NOE.and_then];
      [eexists; reflexivity | reflexivity].
Qed.

(** ** The example *)

Lemma example_noe_built : NOE.new_NOE example_noe_options = NOE.Built example_noe.
Proof. vm_compute. reflexivity. Qed.

Lemma NOE_constructor_invariants_witness :
  NOE.serial example_noe = NOE.SERIAL example_noe_options
  /\ NOE.pbc example_noe = negb (NOE.NOPBC example_noe_options)
  /\ NOE.ga_lista example_noe = concat (NOE.given (NOE.GROUPA example_noe_options))
  /\ NOE.gb_lista example_noe = concat (NOE.given (NOE.GROUPB example_noe_options))
  /\ NOE.nga example_noe
     = map (fun t => Z.of_nat (length t)) (NOE.given (NOE.GROUPA example_noe_options))
  /\ map (@length _) (NOE.given (NOE.GROUPA example_noe_options))
     = map (@length _) (NOE.given (NOE.GROUPB example_noe_options))
  /\ length (NOE.ga_lista example_noe) = length (NOE.gb_lista example_noe)
  /\ fold_right Z.add 0 (NOE.nga example_noe) = Z.of_nat (length (NOE.ga_lista example_noe))
  /\ (forall n, In n (NOE.nga example_noe) -> 0 < n)
  /\ (NOE.ADDDISTANCES example_noe_options = true ->
      length (NOE.noedist example_noe) = length (NOE.nga example_noe)
      /\ forall i x, NOE.noedist example_noe !! i = Some x ->
                     NOE.NOEDIST example_noe_options !! i = Some (Some x)).
Proof.
  apply (NOE_constructor_invariants example_noe_options example_noe).
  - exact example_noe_built.
  - vm_compute. reflexivity.
  - vm_compute. reflexivity.
Defined.

Lemma NOE_more_GROUPB_than_GROUPA_witness :
  NOE.new_NOE unpaired_groupb_options = NOE.OutOfRange.
Proof.
  apply (NOE_more_GROUPB_than_GROUPA unpaired_groupb_options).
  - vm_compute. lia.
  - intros k a b Ha Hb.
    destruct k as [| [| [| k]]]; simpl in Ha, Hb; try discriminate;
      injection Ha as <-; injection Hb as <-; reflexivity.
Defined.

Lemma example_noe_distances :
  NOE.ADDDISTANCES example_noe_options = true ->
  forall i, (i < length (NOE.given (NOE.GROUPA example_noe_options)))%nat ->
            exists x, NOE.NOEDIST example_noe_options !! i = Some (Some x).
Proof.
  intros _ i Hi. simpl in Hi.
  destruct i as [| [| [| i]]]; [eexists; reflexivity .. | lia].
Qed.

Lemma NOE_constructor_accepts_witness :
  exists noe, NOE.new_NOE example_noe_options = NOE.Built noe.
Proof.
  apply (proj1 (NOE_constructor_accepts example_noe_options eq_refl
                  ltac:(vm_compute; reflexivity) example_noe_distances)).
  reflexivity.
Defined.

(** The second of two processes deals with the second NOE only, whose
    one couple is the pair number 2. *)
Lemma NOE_calculate_couples_witness :
  NOE.calculate NOE.record_pair 12 (fun t => Ok t) (fun _ t => Ok t) NOE.record_pair
                3 example_noe 2 1 []
  = Some (Ok [(1, 0, 2); (0, 0, 0); (0, 1, 1); (1, 0, 2); (2, 0, 3); (2, 1, 4); (2, 2, 5)]).
Proof.
  destruct (NOE_calculate_couples NOE.record_pair 12 (fun t => Ok t) (fun _ t => Ok t)
              NOE.record_pair example_noe 2 1 2 1 3 3 [])
    as [E _].
  - reflexivity.
  - reflexivity.
  - reflexivity.
  - intros n Hn. simpl in Hn. lia.
  - vm_compute. reflexivity.
  - lia.
  - vm_compute. intros H. discriminate.
  - lia.
  - reflexivity.
  - simpl. lia.
  - apply E. intros _. split; discriminate.
Defined.

(** The first of two processes goes from the third NOE to a fifth. *)
Lemma NOE_parallel_ranks_read_past_the_end_witness :
  NOE.calculate NOE.record_pair 12 (fun t => Ok t) (fun _ t => Ok t) NOE.record_pair
                3 example_noe 2 0 []
  = Some (Fail Undefined).
Proof.
  destruct (NOE_parallel_ranks_read_past_the_end
              NOE.record_pair 12 (fun t => Ok t) (fun _ t => Ok t) NOE.record_pair
              example_noe 2 3) as [H _].
  - reflexivity.
  - reflexivity.
  - intros i j index s. eexists. reflexivity.
  - intros n Hn. simpl in Hn. lia.
  - vm_compute. reflexivity.
  - lia.
  - vm_compute. intros H. discriminate.
  - apply H; [lia | right; split; [lia | vm_compute; discriminate] | simpl; lia].
Defined.

(** ** A serial run of a constructed NOE *)

Lemma filter_all {A : Type} (f : A -> bool) (l : list A) :
  (forall x, In x l -> f x = true) -> List.filter f l = l.
Proof.
  induction l as [| x l IH]; intros H; [reflexivity |].
  simpl. rewrite (H x) by (left; reflexivity). f_equal. apply IH.
  intros y Hy. apply H. right. exact Hy.
Qed.

Lemma noes_of_serial_run (sga : Z) : NOE.noes_of_rank sga 1 0 = indices sga.
Proof.
  unfold NOE.noes_of_rank. apply filter_all. intros i Hi. apply In_indices in Hi.
  rewrite Z.mod_1_r. destruct (Z.leb_spec 0 i); [reflexivity | lia].
Qed.

Lemma new_NOE_fields (ao : NOE.ActionOptions) (noe : NOE.NOE) :
  NOE.new_NOE ao = NOE.Built noe ->
  NOE.serial noe = NOE.SERIAL ao
  /\ NOE.nga noe = map NOE.size (NOE.given (NOE.GROUPA ao))
  /\ NOE.ga_lista noe = concat (NOE.given (NOE.GROUPA ao))
  /\ NOE.gb_lista noe = concat (NOE.given (NOE.GROUPB ao))
  /\ map NOE.size (NOE.given (NOE.GROUPA ao)) = map NOE.size (NOE.given (NOE.GROUPB ao)).
Proof.
  intros Hb. unfold NOE.new_NOE in Hb. rewrite read_GROUPA_given in Hb. cbn [app] in Hb.
  destruct (NOE.read_GROUPB _ _ 1 [] []) as [[gb ngb] | m |] eqn:EB;
    cbn [NOE.and_then] in Hb; try discriminate.
  apply read_GROUPB_built in EB as (Egb & Engb & Hsame); [| reflexivity].
  cbn [app length Nat.add] in Egb, Engb, Hsame. subst gb ngb.
  destruct (Z.eqb_spec (Z.of_nat (length (map NOE.size (NOE.given (NOE.GROUPA ao)))))
                       (Z.of_nat (length (map NOE.size (NOE.given (NOE.GROUPB ao))))))
    as [Elen | Hne]; cbn [negb] in Hb; [| discriminate].
  rewrite !length_map in Elen.
  assert (Esizes : map NOE.size (NOE.given (NOE.GROUPA ao))
                   = map NOE.size (NOE.given (NOE.GROUPB ao))).
  { apply list_eq. intros k.
    destruct (NOE.given (NOE.GROUPB ao) !! k) as [t |] eqn:Et.
    - rewrite (Hsame k t Et). rewrite list_lookup_fmap, Et. reflexivity.
    - rewrite (list_lookup_fmap NOE.size (NOE.given (NOE.GROUPB ao))), Et. simpl.
      apply lookup_ge_None_2. rewrite length_map.
      apply lookup_ge_None_1 in Et. lia. }
  destruct (NOE.ADDDISTANCES ao).
  - destruct (NOE.read_NOEDIST _ _ _ 0) as [[nd nt] | m |];
      cbn [NOE.and_then] in Hb; try discriminate.
    destruct (negb _); cbn [NOE.and_then] in Hb; [discriminate |].
    destruct (NOE.log_couples _ _ _) as [lg | e]; cbn [NOE.of_result NOE.and_then] in Hb;
      [| discriminate].
    destruct (NOE.exp_components _ nd) as [exps | e]; cbn [NOE.of_result NOE.and_then] in Hb;
      [| discriminate].
    destruct (NOE.checkRead _) as [u | m |]; cbn [NOE.and_then] in Hb; try discriminate.
    injection Hb as <-. cbn. repeat split. exact Esizes.
  - cbn [NOE.and_then] in Hb.
    destruct (NOE.log_couples _ _ _) as [lg | e]; cbn [NOE.of_result NOE.and_then] in Hb;
      [| discriminate].
    destruct (NOE.checkRead _) as [u | m |]; cbn [NOE.and_then] in Hb; try discriminate.
    injection Hb as <-. cbn. repeat split. exact Esizes.
Qed.

(** What the constructor checks is what a serial [calculate] needs: on a
    [NOE] that the constructor has built from fewer than 2^32 atoms it
    completes, going once through every couple of every NOE in the first
    loop and once more in the second, and every pair it asks the neighbour
    list for is a pair of one atom of [ga_lista] and one of [gb_lista]. *)
Theorem NOE_serial_run_after_construction {St : Type}
        (accumulate : Z -> Z -> Z -> St -> result St) (getNumberOfAtoms : Z)
        (sum_over_ranks : St -> result St)
        (set_component : Z -> St -> result St)
        (set_derivatives : Z -> Z -> Z -> St -> result St)
        (ao : NOE.ActionOptions) (noe : NOE.NOE)
        (comm_size comm_rank : Z) (fuel : nat) (s : St) :
  NOE.new_NOE ao = NOE.Built noe ->
  NOE.SERIAL ao = true ->
  Z.of_nat (length (concat (NOE.given (NOE.GROUPA ao)))) < UINT_RANGE ->
  Z.of_nat (length (concat (NOE.given (NOE.GROUPB ao)))) < UINT_RANGE ->
  (length (NOE.nga noe) <= fuel)%nat ->
  NOE.calculate accumulate getNumberOfAtoms sum_over_ranks set_component set_derivatives
                fuel noe comm_size comm_rank s
  = Some (do s1 <- for_each (NOE.couples_of accumulate (NOE.nga noe))
                            (indices (Z.of_nat (length (NOE.nga noe)))) s;
          for_each (fun s i => do s' <- set_component i s;
                               NOE.couples_of set_derivatives (NOE.nga noe) s' i)
                   (indices (Z.of_nat (length (NOE.nga noe)))) s1)
  /\ forall i j, 0 <= i < Z.of_nat (length (NOE.nga noe)) ->
                 0 <= j < nth (Z.to_nat i) (NOE.nga noe) 0 ->
                 0 <= NOE.offset (NOE.nga noe) i + j < Z.of_nat (length (NOE.ga_lista noe))
                 /\ NOE.offset (NOE.nga noe) i + j < Z.of_nat (length (NOE.gb_lista noe)).
Proof.
  intros Hb Hser HA HB Hfuel.
  destruct (new_NOE_fields ao noe Hb) as (Es & Enga & Ega & Egb & Esizes).
  destruct (sum_sizes _ HA) as [SA SzA]. destruct (sum_sizes _ HB) as [SB _].
  pose proof (given_count (NOE.GROUPA ao)) as Hc.
  assert (Hpos : forall n, In n (NOE.nga noe) -> 0 <= n).
  { intros n Hn. rewrite Enga in Hn. apply in_map_iff in Hn as (t & <- & Ht).
    rewrite (SzA t Ht). lia. }
  assert (Htot : fold_right Z.add 0 (NOE.nga noe) < UINT_RANGE).
  { rewrite Enga, SA. exact HA. }
  assert (Hlen : length (NOE.nga noe) = length (NOE.given (NOE.GROUPA ao))).
  { rewrite Enga. apply length_map. }
  split.
  - assert (Eser : NOE.serial noe = true) by (rewrite Es; exact Hser).
    pose proof (calculate_closed accumulate getNumberOfAtoms sum_over_ranks set_component
                  set_derivatives
                  noe comm_size comm_rank 1 0 (Z.of_nat (length (NOE.nga noe))) fuel s
                  eq_refl) as E.
    rewrite Eser in E.
    assert (H1 : 0 < 1) by lia.
    assert (H2 : Z.of_nat (length (NOE.nga noe)) + 1 <= UINT_RANGE) by lia.
    assert (H3 : 0 <= 0 <= Z.of_nat (length (NOE.nga noe))) by lia.
    rewrite (E eq_refl eq_refl Hpos Htot H1 H2 H3 (Z.mod_1_r _) Hfuel).
    rewrite noes_of_serial_run. reflexivity.
  - intros i j Hi Hj.
    pose proof (offset_inside (NOE.nga noe) i j Hpos Hi Hj) as Hin.
    pose proof (offset_nonneg (NOE.nga noe) i Hpos) as H0.
    pose proof (offset_mono (NOE.nga noe) (i + 1) (Z.of_nat (length (NOE.nga noe))) Hpos
                  ltac:(lia)) as Hm.
    rewrite (offset_past_the_end (NOE.nga noe) (Z.of_nat (length (NOE.nga noe)))) in Hm by lia.
    assert (Ea : fold_right Z.add 0 (NOE.nga noe) = Z.of_nat (length (NOE.ga_lista noe))).
    { rewrite Enga, Ega. exact SA. }
    assert (Eb : fold_right Z.add 0 (NOE.nga noe) = Z.of_nat (length (NOE.gb_lista noe))).
    { rewrite Enga, Egb, Esizes. exact SB. }
    lia.
Qed.

Lemma NOE_serial_run_after_construction_witness :
  NOE.calculate NOE.record_pair 12 (fun t => Ok t) (fun _ t => Ok t) NOE.record_pair
                3 serial_noe 2 1 []
  = Some (Ok [(0, 0, 0); (0, 1, 1); (1, 0, 2); (2, 0, 3); (2, 1, 4); (2, 2, 5);
              (0, 0, 0); (0, 1, 1); (1, 0, 2); (2, 0, 3); (2, 1, 4); (2, 2, 5)]).
Proof.
  destruct (NOE_serial_run_after_construction
              NOE.record_pair 12 (fun t => Ok t) (fun _ t => Ok t) NOE.record_pair
              serial_noe_options serial_noe 2 1 3 []) as [E _].
  - vm_compute. reflexivity.
  - reflexivity.
  - vm_compute. reflexivity.
  - vm_compute. reflexivity.
  - simpl. lia.
  - exact E.
Defined.
